(** * rst_tables: reformatting of reStructuredText grid tables

    A shallow embedding of [rst_tables.py] (the Python 2 module behind the
    vim-rst-tables plugin) and the properties of its parse and render
    pipeline.

    Conventions of the embedding.
    - A Python 2 [str] is a byte string: it is a [list ascii] here.
    - [map] and [filter] return lists in Python 2; they are [List.map] and
      [List.filter].
    - An uncaught Python exception is the [Raise] case of [result].
    - The regular expressions of the module are values of [regex]
      and run on a small backtracking matcher with the priorities of
      Python's [re] (first alternative first, greedy repetition first). *)

From Stdlib Require Import String Ascii.
From Stdlib Require Import List Bool Arith Lia ZArith.
Import ListNotations.

(** ** Byte strings *)

Abbreviation str := (list ascii).

(** A literal of the source. *)
Definition L (s : string) : str := list_ascii_of_string s.

Definition TAB : ascii := "009"%char.
Definition NL : ascii := "010"%char.
Definition VT : ascii := "011"%char.
Definition FF : ascii := "012"%char.
Definition CR : ascii := "013"%char.
Definition SP : ascii := " "%char.
Definition PIPE : ascii := "|"%char.

(** Whitespace of [str.strip()] and of [\s] on byte strings. *)
Definition is_space (c : ascii) : bool :=
  Ascii.eqb c SP || Ascii.eqb c TAB || Ascii.eqb c NL
  || Ascii.eqb c CR || Ascii.eqb c VT || Ascii.eqb c FF.

Definition is_pipe (c : ascii) : bool := Ascii.eqb c PIPE.
Definition is_nl (c : ascii) : bool := Ascii.eqb c NL.

(** [if s:] on a string. *)
Definition truthy (s : str) : bool :=
  match s with [] => false | _ :: _ => true end.

Fixpoint lstrip (s : str) : str :=
  match s with
  | [] => []
  | c :: s' => if is_space c then lstrip s' else s
  end.

Definition rstrip (s : str) : str := rev (lstrip (rev s)).

Definition strip (s : str) : str := rstrip (lstrip s).

(** [sep.join(parts)]. *)
Fixpoint join (sep : str) (parts : list str) : str :=
  match parts with
  | [] => []
  | [p] => p
  | p :: rest => p ++ sep ++ join sep rest
  end.

(** [s.split(c)] for a one-character separator: the pieces between the
    occurrences of [c]; never empty. *)
Fixpoint split_on (p : ascii -> bool) (s : str) : list str :=
  match s with
  | [] => [[]]
  | c :: s' =>
      if p c then [] :: split_on p s'
      else match split_on p s' with
           | [] => [[c]]
           | piece :: pieces => (c :: piece) :: pieces
           end
  end.

(** ** Exceptions *)

Inductive exn : Type := ValueError | IndexError.

Inductive result (A : Type) : Type :=
| Ok (a : A)
| Raise (e : exn).

Arguments Ok {A} a.
Arguments Raise {A} e.

Definition bind {A B : Type} (m : result A) (f : A -> result B) : result B :=
  match m with
  | Ok a => f a
  | Raise e => Raise e
  end.

Notation "x <- m ;; k" := (bind m (fun x => k))
  (at level 61, m at next level, right associativity).

(** [max(xs)] of Python: ValueError on the empty sequence. *)
Definition py_max (xs : list nat) : result nat :=
  match xs with
  | [] => Raise ValueError
  | x :: xs' => Ok (fold_left Nat.max xs' x)
  end.

(** [xs[i]] of a Python list at a non-negative index. *)
Definition py_index {A : Type} (xs : list A) (i : nat) : result A :=
  match nth_error xs i with
  | Some x => Ok x
  | None => Raise IndexError
  end.

(** ** Regular expressions *)

Module Re.

(** The fragment of [re] that the module uses.  Repetition is applied to
    single characters and classes only. *)
Inductive regex : Type :=
| Bol                              (* ^ *)
| Eol                              (* $ *)
| Cls (p : ascii -> bool)          (* a character or a class *)
| Star (p : ascii -> bool)         (* p*, greedy *)
| Plus (p : ascii -> bool)         (* p+, greedy *)
| Cat (r1 r2 : regex)
| Alt (r1 r2 : regex).

(** A continuation gets whether the position is still the start of the
    string, and the text that is left. *)
Definition cont : Type := bool -> str -> option str.

Fixpoint star (p : ascii -> bool) (k : cont) (bos : bool) (s : str)
  : option str :=
  match s with
  | c :: s' =>
      if p c then
        match star p k false s' with
        | Some r => Some r
        | None => k bos s
        end
      else k bos s
  | [] => k bos []
  end.

Fixpoint run (r : regex) (k : cont) (bos : bool) (s : str) : option str :=
  match r with
  | Bol => if bos then k bos s else None
  | Eol =>
      (* end of string, or just before a newline that ends the string *)
      match s with
      | [] => k bos s
      | [c] => if is_nl c then k bos s else None
      | _ => None
      end
  | Cls p =>
      match s with
      | c :: s' => if p c then k false s' else None
      | [] => None
      end
  | Star p => star p k bos s
  | Plus p =>
      match s with
      | c :: s' => if p c then star p k false s' else None
      | [] => None
      end
  | Cat r1 r2 => run r1 (run r2 k) bos s
  | Alt r1 r2 =>
      match run r1 k bos s with
      | Some rest => Some rest
      | None => run r2 k bos s
      end
  end.

(** A match of [r] that starts at the current position: the text after
    it. *)
Definition match_at (r : regex) (bos : bool) (s : str) : option str :=
  run r (fun _ rest => Some rest) bos s.

(** [re.match(r, s)] as a truth value. *)
Definition matches (r : regex) (s : str) : bool :=
  match match_at r true s with Some _ => true | None => false end.

(** [re.sub(r, '', s)]: every leftmost non-overlapping match is deleted.
    [fuel] bounds the number of positions visited. *)
Fixpoint sub_loop (r : regex) (fuel : nat) (bos : bool) (s : str) : str :=
  match fuel with
  | 0 => s
  | S fuel' =>
      match s with
      | [] => []
      | c :: s' =>
          match match_at r bos s with
          | Some rest =>
              if length rest <? length s then sub_loop r fuel' false rest
              else c :: sub_loop r fuel' false s'
          | None => c :: sub_loop r fuel' false s'
          end
      end
  end.

Definition sub_empty (r : regex) (s : str) : str :=
  sub_loop r (length s) true s.

(** [re.split(r, s)] for a pattern without groups: the text between the
    leftmost non-overlapping non-empty matches.  [cur] is the field read
    so far. *)
Fixpoint split_loop (r : regex) (fuel : nat) (bos : bool) (cur : str)
  (s : str) : list str :=
  match fuel with
  | 0 => [cur ++ s]
  | S fuel' =>
      match s with
      | [] => [cur]
      | c :: s' =>
          match match_at r bos s with
          | Some rest =>
              if length rest <? length s
              then cur :: split_loop r fuel' false [] rest
              else split_loop r fuel' false (cur ++ [c]) s'
          | None => split_loop r fuel' false (cur ++ [c]) s'
          end
      end
  end.

Definition split (r : regex) (s : str) : list str :=
  split_loop r (length s) true [] s.

End Re.

Import Re.

(** ** The source, function by function *)

(** The class [[\t +=-]]. *)
Definition sep_char (c : ascii) : bool :=
  Ascii.eqb c TAB || Ascii.eqb c SP || Ascii.eqb c "+"%char
  || Ascii.eqb c "="%char || Ascii.eqb c "-"%char.

(** ['^[\t +=-]+$'] *)
Definition re_separator : regex := Cat Bol (Cat (Plus sep_char) Eol).

(** [r'^\s*\||\|\s*$'] *)
Definition re_outer_pipes : regex :=
  Alt (Cat Bol (Cat (Star is_space) (Cls is_pipe)))
      (Cat (Cls is_pipe) (Cat (Star is_space) Eol)).

(** [r'\s*\|\s*'] *)
Definition re_pipe : regex :=
  Cat (Star is_space) (Cat (Cls is_pipe) (Star is_space)).

(** [r'\s\s+'] *)
Definition re_gap : regex := Cat (Cls is_space) (Plus is_space).

Definition line_is_separator (line : str) : bool :=
  matches re_separator line.

Definition has_line_seps (raw_lines : list str) : bool :=
  existsb line_is_separator raw_lines.

(** [row_string.find("|") >= 0] *)
Definition has_pipe (s : str) : bool := existsb is_pipe s.

Definition split_table_row (row_string : str) : list str :=
  if has_pipe row_string then
    let row_string := sub_empty re_outer_pipes row_string in
    split re_pipe (strip row_string)
  else
    split re_gap (rstrip row_string).

(** [output[i].append(x)].  The index is in range wherever [join_rows]
    uses it: [output] has just been grown to the length of the row
    (lemma [add_fields_length] and [grow_output_length]). *)
Fixpoint append_at (i : nat) (x : str) (output : list (list str))
  : list (list str) :=
  match output, i with
  | lines :: rest, 0 => (lines ++ [x]) :: rest
  | lines :: rest, S i' => lines :: append_at i' x rest
  | [], _ => []
  end.

(** "grow output array, if necessary" *)
Definition grow_output (output : list (list str)) (row : list str)
  : list (list str) :=
  if length output <=? length row
  then output ++ repeat [] (length row - length output)
  else output.

(** [for i, field in enumerate(row)], from index [i] on. *)
Fixpoint add_fields (i : nat) (row : list str) (output : list (list str))
  : list (list str) :=
  match row with
  | [] => output
  | field :: row' =>
      let field_text := strip field in
      add_fields (S i) row'
        (if truthy field_text then append_at i field_text output
         else output)
  end.

(** One turn of the loop of [join_rows]. *)
Definition join_step (output : list (list str)) (row : list str)
  : list (list str) :=
  add_fields 0 row (grow_output output row).

Definition join_rows (rows : list (list str)) : list str :=
  let output := fold_left join_step rows [] in
  map (join [NL]) output.

(** The loop of [partition_raw_lines].  [curr_part] is the list object
    appended to [parts] last, so [parts] is [done ++ [curr_part]] and an
    append to [curr_part] shows in [parts]. *)
Definition partition_step (st : list (list str) * list str) (line : str)
  : list (list str) * list str :=
  let '(done, curr_part) := st in
  if line_is_separator line then (done ++ [curr_part], [])
  else (done, curr_part ++ [line]).

Definition nonempty {A : Type} (x : list A) : bool :=
  match x with [] => false | _ :: _ => true end.

Definition partition_raw_lines (raw_lines : list str) : list (list str) :=
  if negb (has_line_seps raw_lines) then map (fun x => [x]) raw_lines
  else
    let '(done, curr_part) := fold_left partition_step raw_lines ([], []) in
    let parts := done ++ [curr_part] in
    filter nonempty parts.

(** [xs[i] = v].  Where the module assigns by index the index is in
    range: [empty_cols] has the length of the padded rows and [widths]
    has just been grown to the length of the row. *)
Fixpoint update {A : Type} (i : nat) (v : A) (xs : list A) : list A :=
  match xs, i with
  | _ :: rest, 0 => v :: rest
  | x :: rest, S i' => x :: update i' v rest
  | [], _ => []
  end.

(** "register empty columns": the loop over [range(len(row))]. *)
Definition register_cols (row : list str) (empty_cols : list bool)
  : list bool :=
  fold_left
    (fun empty_cols i =>
       if truthy (strip (nth i row [])) then update i false empty_cols
       else empty_cols)
    (seq 0 (length row)) empty_cols.

(** "remove empty columns": the inner loop for one row. *)
Definition kept_cols (empty_cols : list bool) (row : list str) : list str :=
  fold_left
    (fun cols i =>
       let should_remove := nth i empty_cols true in
       if negb should_remove then cols ++ [nth i row []] else cols)
    (seq 0 (length row)) [].

(** One turn of the first loop of [unify_table].
    [row += [''] * (max_fields - curr_len)] extends the row object of the
    caller in place; the caller does not look at it again, and a row
    object that occurs twice is extended once and then left alone, so
    the result read here is the same. *)
Definition unify_step (max_fields : nat)
  (st : list (list str) * list bool) (row : list str)
  : list (list str) * list bool :=
  let '(output, empty_cols) := st in
  let curr_len := length row in
  let row :=
    if curr_len <? max_fields
    then row ++ repeat [] (max_fields - curr_len)
    else row in
  (output ++ [row], register_cols row empty_cols).

Definition unify_table (table : list (list str))
  : result (list (list str)) :=
  max_fields <- py_max (map (@length str) table) ;;
  let '(output, empty_cols) :=
    fold_left (unify_step max_fields) table ([], repeat true max_fields) in
  Ok (map (kept_cols empty_cols) output).

Definition parse_table (raw_lines : list str) : result (list (list str)) :=
  let row_partition := partition_raw_lines raw_lines in
  let lines :=
    map (fun row_string => join_rows (map split_table_row row_string))
      row_partition in
  unify_table lines.

Definition table_line (widths : list nat) (header : bool) : str :=
  let linechar := if header then "="%char else "-"%char in
  let parts := map (fun width => repeat linechar width) widths in
  let parts := if nonempty parts then [[]] ++ parts ++ [[]] else parts in
  join (L "+") parts.

(** [max(map(len, field_text.split('\n')))]; the split is never empty,
    so [max] does not raise. *)
Definition get_field_width (field_text : str) : nat :=
  list_max (map (@length ascii) (split_on is_nl field_text)).

Definition split_row_into_lines (row : list str) : result (list (list str)) :=
  let row := map (split_on is_nl) row in
  height <- py_max (map (@length str) row) ;;
  Ok (map
        (fun i =>
           map (fun field_lines =>
                  if i <? length field_lines then nth i field_lines []
                  else [])
             row)
        (seq 0 height)).

(** The inner loop of [get_column_widths], for one row. *)
Definition widen (row : list str) (widths : list nat) : list nat :=
  fold_left
    (fun widths i =>
       let field_text := nth i row [] in
       let field_width := get_field_width field_text in
       update i (Nat.max (nth i widths 0) field_width) widths)
    (seq 0 (length row)) widths.

(** One turn of the outer loop of [get_column_widths]; [widths[i]] is in
    range because [widths] has just been grown to the length of the
    row. *)
Definition widths_step (widths : list nat) (row : list str) : list nat :=
  let num_fields := length row in
  let widths :=
    if length widths <=? num_fields
    then widths ++ repeat 0 (num_fields - length widths)
    else widths in
  widen row widths.

Definition get_column_widths (table : list (list str)) : list nat :=
  fold_left widths_step table [].

(** [' %-' + str(w) + 's ' % text]: the text left-justified in a field of
    [w] characters (never cut), between two spaces. *)
Definition format_field (w : nat) (text : str) : str :=
  [SP] ++ text ++ repeat SP (w - length text) ++ [SP].

Fixpoint foldM {A B : Type} (f : B -> A -> result B) (xs : list A) (b : B)
  : result B :=
  match xs with
  | [] => Ok b
  | x :: xs' => b' <- f b x ;; foldM f xs' b'
  end.

(** One turn of the loop of [pad_fields]. *)
Definition pad_step (row : list str) (widths : list nat)
  (new_row : list str) (i : nat) : result (list str) :=
  let col := nth i row [] in
  w <- py_index widths i ;;
  Ok (new_row ++ [format_field w (strip col)]).

Definition pad_fields (row : list str) (widths : list nat)
  : result (list str) :=
  foldM (pad_step row widths) (seq 0 (length row)) [].

(** "draw the lines (num_lines) for this row": one turn. *)
Definition draw_line (col_widths : list nat) (output : list str)
  (row_line : list str) : result (list str) :=
  row_line <- pad_fields row_line col_widths ;;
  Ok (output ++ [join [PIPE] ([[]] ++ row_line ++ [[]])]).

(** One turn of the loop over the rows; the state is [output] and
    [first]. *)
Definition draw_row (col_widths : list nat) (header_line normal_line : str)
  (st : list str * bool) (row : list str) : result (list str * bool) :=
  let '(output, first) := st in
  row_lines <- split_row_into_lines row ;;
  output <- foldM (draw_line col_widths) row_lines output ;;
  if first then Ok (output ++ [header_line], false)
  else Ok (output ++ [normal_line], false).

Definition draw_table (table : list (list str)) : result (list str) :=
  match table with
  | [] => Ok []
  | _ =>
      let col_widths := get_column_widths table in
      let sep_col_widths := map (fun x => x + 2) col_widths in
      let header_line := table_line sep_col_widths true in
      let normal_line := table_line sep_col_widths false in
      st <- foldM (draw_row col_widths header_line normal_line) table
              ([header_line], true) ;;
      Ok (fst st)
  end.

(** The pure part of [reformat_table]: the lines that replace the
    selected block. *)
Definition reformat (raw_lines : list str) : result (list str) :=
  table <- parse_table raw_lines ;;
  draw_table table.

(** What the specification says of a separator line: stripped, the line
    is non-empty and made of separator characters only. *)
Definition separator_after_strip (line : str) : bool :=
  truthy (strip line) && forallb sep_char (strip line).

(** ** Auxiliary definitions of the proofs *)

(** The rest of a separator match after its first character. *)
Definition sep_tail (s : str) : option str :=
  Re.star sep_char (Re.run Eol (fun _ rest => Some rest)) false s.

(** What one line of a partition gives to column [i]: its field there,
    stripped, unless the line is shorter or the field is blank. *)
Definition field_at (i : nat) (row : list str) : list str :=
  match nth_error row i with
  | Some field => if truthy (strip field) then [strip field] else []
  | None => []
  end.

(** The cell of column [i] as the specification describes it: the
    non-blank stripped fields at index [i], in the order of the lines,
    joined by newlines. *)
Definition column_cell (i : nat) (rows : list (list str)) : str :=
  join [NL] (flat_map (field_at i) rows).

(** The input of Example 2 of the specification, first logical row. *)
Definition example2_row1 : list str := [L "foo | bar"; L "baz |"].

(** The normalizer in the words of the specification. *)

(** A row padded with empty cells up to [m] cells. *)
Definition pad_to (m : nat) (row : list str) : list str :=
  row ++ repeat [] (m - length row).

(** Column [i] is blank after trimming in every row. *)
Definition blank_column (rows : list (list str)) (i : nat) : bool :=
  forallb (fun row => negb (truthy (strip (nth i row [])))) rows.

(** The cells of a row at the given column indices, in that order. *)
Definition select_columns (cols : list nat) (row : list str) : list str :=
  map (fun i => nth i row []) cols.

Definition max_fields_of (table : list (list str)) : nat :=
  list_max (map (@length str) table).

(** The column indices that survive, in increasing order. *)
Definition surviving_columns (table : list (list str)) : list nat :=
  let m := max_fields_of table in
  filter (fun i => negb (blank_column (map (pad_to m) table) i)) (seq 0 m).


(** The cell of a row at column [i] is blank after trimming. *)
Definition cell_blank (row : list str) (i : nat) : bool :=
  negb (truthy (strip (nth i row []))).

(** ** The editor side *)

(** Modelled from the spec: the buffer of the editor ([vim.current.buffer])
    is not part of the repository.  It is a list of lines; reading a line
    outside it raises IndexError (the buffer boundary of the
    specification), at a negative index too. *)
Definition buffer_line (buffer : list str) (k : Z) : result str :=
  if ((k <? 0) || (Z.of_nat (length buffer) <=? k))%Z then Raise IndexError
  else Ok (nth (Z.to_nat k) buffer []).

(** Modelled from the spec: a slice [buffer[lo:hi]] of the editor's
    buffer is cut to the buffer. *)
Definition buffer_slice (buffer : list str) (lo hi : Z) : list str :=
  let lo := Z.to_nat (Z.max 0 lo) in
  let hi := Z.to_nat (Z.max 0 hi) in
  firstn (hi - lo) (skipn lo buffer).

(** [while buffer[upper - 1].strip(): upper -= 1], with its [except
    IndexError: pass] and [else: upper += 1]. *)
Fixpoint scan_upper (buffer : list str) (fuel : nat) (upper : Z) : Z :=
  match fuel with
  | 0 => upper
  | S fuel' =>
      match buffer_line buffer (upper - 1) with
      | Raise _ => upper
      | Ok line =>
          if truthy (strip line) then scan_upper buffer fuel' (upper - 1)%Z
          else (upper + 1)%Z
      end
  end.

Fixpoint scan_lower (buffer : list str) (fuel : nat) (lower : Z) : Z :=
  match fuel with
  | 0 => lower
  | S fuel' =>
      match buffer_line buffer (lower - 1) with
      | Raise _ => lower
      | Ok line =>
          if truthy (strip line) then scan_lower buffer fuel' (lower + 1)%Z
          else (lower - 1)%Z
      end
  end.

(** [get_table_bounds], for the cursor on line [row] (counted from 1).
    Each loop reads at most every line of the buffer once and then one
    index outside it. *)
Definition get_table_bounds (buffer : list str) (row : Z) : Z * Z :=
  let fuel := S (length buffer) in
  (scan_upper buffer fuel row, scan_lower buffer fuel row).

(** The block that [reformat_table] reads and replaces:
    [buffer[upper - 1:lower]]. *)
Definition selected_block (buffer : list str) (row : Z) : list str :=
  let '(upper, lower) := get_table_bounds buffer row in
  buffer_slice buffer (upper - 1) lower.

(** ** The renderer, total where the code does not raise *)

(** The lines of a row, as [split_row_into_lines] makes them when the row
    has a cell. *)
Definition row_height (row : list str) : nat :=
  list_max (map (@length str) (map (split_on is_nl) row)).

Definition turn_row (row : list str) : list (list str) :=
  map (fun i => map (fun field => nth i (split_on is_nl field) []) row)
    (seq 0 (row_height row)).

(** The cells of one output line, padded. *)
Definition padded_cells (widths : list nat) (row_line : list str)
  : list str :=
  map (fun i => format_field (nth i widths 0) (strip (nth i row_line [])))
    (seq 0 (length row_line)).

Definition data_line (widths : list nat) (row_line : list str) : str :=
  join [PIPE] ([[]] ++ padded_cells widths row_line ++ [[]]).

Definition data_lines (widths : list nat) (row : list str) : list str :=
  map (data_line widths) (turn_row row).

Definition header_line_of (table : list (list str)) : str :=
  table_line (map (fun x => x + 2) (get_column_widths table)) true.

Definition normal_line_of (table : list (list str)) : str :=
  table_line (map (fun x => x + 2) (get_column_widths table)) false.

(** The width of a column as the specification defines it: the largest
    rendered width of its cells. *)
Definition column_width (table : list (list str)) (i : nat) : nat :=
  list_max (map (fun row => get_field_width (nth i row [])) table).

(** A data line for the widths [ws]: cells of [w + 2] characters between
    [|] characters. *)
Definition is_data_line (ws : list nat) (line : str) : Prop :=
  exists cells,
    line = join [PIPE] ([[]] ++ cells ++ [[]]) /\
    length cells = length ws /\
    forall i, i < length ws -> length (nth i cells []) = nth i ws 0 + 2.

(** A border line for the widths [ws]: runs of [w + 2] fill characters
    between [+] characters. *)
Definition is_border_line (fill : ascii) (ws : list nat) (line : str)
  : Prop :=
  line = join (L "+") ([[]] ++ map (fun w => repeat fill (w + 2)) ws ++ [[]]).

(** The rendered width of the cell of a row at column [j], if any. *)
Definition width_in (j : nat) (row : list str) : nat :=
  if j <? length row then get_field_width (nth j row []) else 0.

(** The table of Example 1 of the specification, as parsed. *)
Definition example1_table : list (list str) :=
  [[L "a"; L "b"]; [L "cc"; L "d"]].

(** A text without blanks at its ends. *)
Definition tight (s : str) : Prop := lstrip s = s /\ rstrip s = s.

(** A line that ends a block for [get_table_bounds]: blank when
    stripped. *)
Definition blank_line (line : str) : bool := negb (truthy (strip line)).

(** The lines after a block: none, or a blank line first. *)
Definition starts_blank (ls : list str) : Prop :=
  match ls with
  | [] => True
  | l :: _ => blank_line l = true
  end.

(** The lines before a block: none, or a blank line last. *)
Definition ends_blank (ls : list str) : Prop := starts_blank (rev ls).

(** ** The row splitter in the words of the specification *)

(** "strip a single leading [|] (with optional whitespace before it) if
    present at the very start". *)
Definition drop_leading_pipe (s : str) : str :=
  match lstrip s with
  | c :: s' => if is_pipe c then s' else s
  | [] => s
  end.

(** "strip a single trailing [|] (with optional whitespace after it) if
    present at the very end". *)
Fixpoint drop_trailing_pipe (s : str) : str :=
  match s with
  | [] => []
  | c :: s' =>
      if is_pipe c && forallb is_space s' then []
      else c :: drop_trailing_pipe s'
  end.

(** "split on runs of whitespace surrounding each remaining [|]": the
    pieces between the [|] characters, each without the whitespace
    around it. *)
Definition pipe_fields (s : str) : list str :=
  map strip (split_on is_pipe s).

(** No two whitespace characters in a row. *)
Fixpoint no_gap (s : str) : bool :=
  match s with
  | c :: s' =>
      match s' with
      | d :: _ => negb (is_space c && is_space d) && no_gap s'
      | [] => true
      end
  | [] => true
  end.

(** A run of two or more whitespace characters. *)
Definition is_gap (g : str) : Prop :=
  2 <= length g /\ forallb is_space g = true.

(** Fields with a gap between each two of them. *)
Fixpoint weave (fields gaps : list str) : str :=
  match fields with
  | [] => []
  | f :: fields' =>
      match gaps with
      | [] => f
      | g :: gaps' => f ++ g ++ weave fields' gaps'
      end
  end.

(** ** The regular expressions, matched by hand *)

(** [\s*\|\s*] at the current position. *)
Definition pipe_match (s : str) : option str :=
  match lstrip s with
  | c :: s' => if is_pipe c then Some (lstrip s') else None
  | [] => None
  end.

(** [^\s*\|] at the start of the string. *)
Definition leading_match (s : str) : option str :=
  match lstrip s with
  | c :: s' => if is_pipe c then Some s' else None
  | [] => None
  end.

(** [\|\s*$] at the current position. *)
Definition trailing_match (s : str) : option str :=
  match s with
  | c :: s' => if is_pipe c && forallb is_space s' then Some [] else None
  | [] => None
  end.

(** [\s\s+] at the current position. *)
Definition gap_match (s : str) : option str :=
  match s with
  | c :: d :: s' =>
      if is_space c && is_space d then Some (lstrip s') else None
  | _ => None
  end.

(** The splitting at [|] as one pass: [cur] is the field so far, [pend]
    the whitespace read after it, [skip] says that a [|] has just been
    passed. *)
Fixpoint pipe_split (skip : bool) (cur pend : str) (s : str) : list str :=
  match s with
  | [] => [cur ++ pend]
  | c :: s' =>
      if is_pipe c then cur :: pipe_split true [] [] s'
      else if is_space c then
        if skip then pipe_split true [] [] s'
        else pipe_split false cur (pend ++ [c]) s'
      else pipe_split false (cur ++ pend ++ [c]) [] s'
  end.

(** The last character is a whitespace character. *)
Definition last_space (s : str) : bool :=
  match rev s with
  | c :: _ => is_space c
  | [] => false
  end.

(** ** Tables as the parser makes them *)

(** A raw line is one line of the buffer: it holds no newline. *)
Definition single_line (line : str) : Prop :=
  Forall (fun c => is_nl c = false) line.

Definition pipe_free (s : str) : Prop :=
  Forall (fun c => is_pipe c = false) s.

(** A piece of cell text: a field of some line, stripped and not
    empty. *)
Definition atom (a : str) : Prop :=
  a <> [] /\ tight a /\ pipe_free a /\ single_line a.

(** A cell: pieces joined by newlines. *)
Definition cell_ok (c : str) : Prop :=
  exists atoms, Forall atom atoms /\ c = join [NL] atoms.

(** A table of [n] columns, none of them blank. *)
Definition parsed_table (n : nat) (table : list (list str)) : Prop :=
  table <> [] /\ 0 < n /\
  Forall (fun row => length row = n) table /\
  Forall (Forall cell_ok) table /\
  forall i, i < n -> blank_column table i = false.

(** ** The command *)

(** Modelled from the spec: the assignment [buffer[lo:hi] = lines] of the
    editor's buffer replaces the lines of the slice, cut to the buffer
    like the slice that is read, by the new lines. *)
Definition buffer_assign (buffer : list str) (lo hi : Z) (lines : list str)
  : list str :=
  let lo := Z.to_nat (Z.max 0 lo) in
  let hi := Z.to_nat (Z.max 0 hi) in
  firstn lo buffer ++ lines ++ skipn (Nat.max lo hi) buffer.

(** [reformat_table], with the buffer and the cursor line as arguments
    and the new buffer as result. *)
Definition reformat_table (buffer : list str) (row : Z)
  : result (list str) :=
  let '(upper, lower) := get_table_bounds buffer row in
  let slice := buffer_slice buffer (upper - 1) lower in
  table <- parse_table slice ;;
  slice <- draw_table table ;;
  Ok (buffer_assign buffer (upper - 1) lower slice).

(** The length that every line of a rendered table has: the runs, and a
    [+] or [|] before, between and after them. *)
Definition rendered_width (ws : list nat) : nat :=
  list_sum (map (fun w => w + 2) ws) + length ws + 1.

(** The first character is not a whitespace character. *)
Definition starts_nonspace (s : str) : Prop :=
  match s with
  | c :: _ => is_space c = false
  | [] => False
  end.

(** "split on runs of two or more consecutive whitespace characters":
    [fields] with [gaps] between them make up [s]; a gap is a run of two
    or more whitespace characters; and the gaps are whole runs, so that
    no field holds such a run, no field ends in whitespace, and every
    field after a gap starts with a character that is no whitespace. *)
Definition gap_splitting (fields gaps : list str) (s : str) : Prop :=
  weave fields gaps = s /\
  length fields = S (length gaps) /\
  Forall is_gap gaps /\
  Forall (fun f => no_gap f = true /\ last_space f = false) fields /\
  Forall starts_nonspace (tl fields).

(** * Properties *)

(** ** Characters *)

Lemma is_space_SP : is_space SP = true.
Proof. reflexivity. Qed.

Lemma is_space_pipe c : is_pipe c = true -> is_space c = false.
Proof.
  unfold is_pipe. intros H. apply Ascii.eqb_eq in H. subst c. reflexivity.
Qed.

Lemma is_space_nl c : is_nl c = true -> is_space c = true.
Proof.
  unfold is_nl. intros H. apply Ascii.eqb_eq in H. subst c. reflexivity.
Qed.

Lemma sep_char_nl c : is_nl c = true -> sep_char c = false.
Proof.
  unfold is_nl. intros H. apply Ascii.eqb_eq in H. subst c. reflexivity.
Qed.

Lemma is_nl_eq c : is_nl c = true <-> c = NL.
Proof. apply Ascii.eqb_eq. Qed.

Lemma is_pipe_eq c : is_pipe c = true <-> c = PIPE.
Proof. apply Ascii.eqb_eq. Qed.

(** ** The separator classifier *)

Lemma line_is_separator_unfold (line : str) :
  line_is_separator line =
  match line with
  | [] => false
  | c :: s =>
      sep_char c && match sep_tail s with Some _ => true | None => false end
  end.
Proof.
  destruct line as [|c s]; [reflexivity|].
  unfold line_is_separator, Re.matches, Re.match_at, re_separator, sep_tail.
  cbn [Re.run]. destruct (sep_char c); reflexivity.
Qed.

(** After one separator character: more of them, then the end of the
    line or one final newline. *)
Lemma star_sep_eol (s : str) :
  sep_tail s <> None <->
  exists body, forallb sep_char body = true /\ (s = body \/ s = body ++ [NL]).
Proof.
  induction s as [|c s IH].
  - simpl. split; [intros _|discriminate].
    exists []. auto.
  - unfold sep_tail in *. cbn [Re.star]. destruct (sep_char c) eqn:Hc.
    + destruct (Re.star sep_char (Re.run Eol (fun _ rest => Some rest))
                  false s) eqn:Hs.
      * split; [intros _|discriminate].
        destruct IH as [IH _].
        destruct IH as (body & Hb & Hs'); [discriminate|].
        exists (c :: body). simpl. rewrite Hc, Hb.
        split; [reflexivity|]. destruct Hs'; subst; auto.
      * (* the tail does not match; [$] cannot match before [c] either *)
        split.
        -- intros H. exfalso. apply H. simpl.
           destruct s as [|c' s']; [|reflexivity].
           destruct (is_nl c) eqn:Hn; [|reflexivity].
           rewrite (sep_char_nl _ Hn) in Hc. discriminate.
        -- intros (body & Hb & Hs'). exfalso.
           destruct IH as [_ IH]. apply IH; [|reflexivity].
           destruct body as [|b body].
           ++ destruct Hs' as [Hs'|Hs']; [discriminate|].
              simpl in Hs'. injection Hs' as -> ->. discriminate.
           ++ simpl in Hb. apply andb_prop in Hb as [_ Hb].
              exists body. split; [exact Hb|].
              destruct Hs' as [Hs'|Hs']; injection Hs' as _ ->; auto.
    + simpl. destruct s as [|c' s'].
      * destruct (is_nl c) eqn:Hn.
        -- split; [intros _|discriminate].
           exists []. split; [reflexivity|]. right.
           apply is_nl_eq in Hn. subst. reflexivity.
        -- split; [intros H; congruence|].
           intros (body & Hb & Hs'). exfalso.
           destruct body as [|b body].
           ++ destruct Hs' as [Hs'|Hs']; [discriminate|].
              injection Hs' as ->. discriminate.
           ++ simpl in Hb. apply andb_prop in Hb as [Hb _].
              destruct Hs' as [Hs'|Hs']; injection Hs' as -> _; congruence.
      * split; [intros H; congruence|].
        intros (body & Hb & Hs'). exfalso.
        destruct body as [|b body].
        -- destruct Hs' as [Hs'|Hs']; discriminate.
        -- simpl in Hb. apply andb_prop in Hb as [Hb _].
           destruct Hs' as [Hs'|Hs']; injection Hs' as -> _; congruence.
Qed.

Lemma line_is_separator_iff (line : str) :
  line_is_separator line = true <->
  exists body,
    body <> [] /\ forallb sep_char body = true /\
    (line = body \/ line = body ++ [NL]).
Proof.
  rewrite line_is_separator_unfold.
  destruct line as [|c s].
  - split; [discriminate|].
    intros (body & Hne & _ & [H|H]).
    + congruence.
    + destruct body; discriminate.
  - destruct (sep_char c) eqn:Hc.
    + pose proof (star_sep_eol s) as Hs. simpl.
      destruct (sep_tail s) eqn:E.
      * split; [intros _|reflexivity].
        destruct Hs as [Hs _].
        destruct Hs as (body & Hb & Hs); [discriminate|].
        exists (c :: body). split; [discriminate|].
        simpl. rewrite Hc, Hb. split; [reflexivity|].
        destruct Hs; subst; auto.
      * split; [discriminate|].
        intros (body & Hne & Hb & Hl). exfalso.
        destruct Hs as [_ Hs]. apply Hs; [|reflexivity].
        destruct body as [|b body]; [congruence|].
        simpl in Hb. apply andb_prop in Hb as [_ Hb].
        exists body. split; [exact Hb|].
        destruct Hl as [Hl|Hl]; injection Hl as _ ->; auto.
    + split; [discriminate|].
      intros (body & Hne & Hb & Hl). exfalso.
      destruct body as [|b body]; [congruence|].
      simpl in Hb. apply andb_prop in Hb as [Hb _].
      destruct Hl as [Hl|Hl]; injection Hl as -> _; congruence.
Qed.

(** C6, as the code has it: [line_is_separator] looks at the line as it
    is, without stripping it.  A line is a separator exactly when it is a
    non-empty run of characters from tab, space, [+], [=] and [-],
    possibly followed by one final newline (which [$] tolerates); so a
    non-empty line of spaces and tabs only is a separator. *)
Theorem line_is_separator_unstripped :
  (forall line : str,
      line_is_separator line = true <->
      exists body,
        body <> [] /\ forallb sep_char body = true /\
        (line = body \/ line = body ++ [NL]))
  /\
  (forall line : str,
      line <> [] ->
      forallb (fun c => Ascii.eqb c SP || Ascii.eqb c TAB) line = true ->
      line_is_separator line = true).
Proof.
  split; [exact line_is_separator_iff|].
  intros line Hne Hws. apply line_is_separator_iff. exists line.
  split; [exact Hne|]. split; [|auto].
  rewrite forallb_forall in *. intros c Hin. specialize (Hws c Hin).
  unfold sep_char. apply orb_prop in Hws as [H|H]; rewrite H.
  - rewrite orb_true_r. reflexivity.
  - reflexivity.
Qed.

Lemma line_is_separator_unstripped_witness :
  line_is_separator (L "+---+===+") = true /\
  line_is_separator (L "  ") = true.
Proof.
  split.
  - apply (proj1 line_is_separator_unstripped).
    exists (L "+---+===+").
    split; [discriminate|]. split; [reflexivity|]. left. reflexivity.
  - apply (proj2 line_is_separator_unstripped (L "  ")).
    + discriminate.
    + reflexivity.
Defined.

(** C6 as the specification words it fails on a line of one space: the
    code calls it a separator, and stripped it is empty. *)
Lemma line_is_separator_blank_counterexample :
  line_is_separator (L " ") = true /\
  separator_after_strip (L " ") = false /\
  ~ (line_is_separator (L " ") = true <->
     separator_after_strip (L " ") = true).
Proof.
  split; [reflexivity|]. split; [reflexivity|].
  intros [H _]. specialize (H eq_refl). discriminate.
Qed.

(** ** Lists *)

Lemma nth_map_lt {A B : Type} (f : A -> B) (l : list A) (n : nat) d d' :
  n < length l -> nth n (map f l) d = f (nth n l d').
Proof.
  intros H. rewrite (nth_indep _ d (f d')) by (rewrite length_map; exact H).
  apply map_nth.
Qed.

(** ** The field joiner *)

Lemma append_at_length i x (output : list (list str)) :
  length (append_at i x output) = length output.
Proof.
  revert i. induction output as [|l rest IH]; intros [|i]; simpl; auto.
Qed.

Lemma append_at_nth i x (output : list (list str)) j :
  i < length output ->
  nth j (append_at i x output) [] =
  if j =? i then nth j output [] ++ [x] else nth j output [].
Proof.
  revert i j. induction output as [|l rest IH]; intros i j Hi.
  - simpl in Hi. lia.
  - destruct i as [|i], j as [|j]; simpl; try reflexivity.
    apply IH. simpl in Hi. lia.
Qed.

Lemma grow_output_length (output : list (list str)) row :
  length (grow_output output row) = Nat.max (length output) (length row).
Proof.
  unfold grow_output. destruct (length output <=? length row) eqn:E.
  - apply Nat.leb_le in E. rewrite length_app, repeat_length. lia.
  - apply Nat.leb_gt in E. lia.
Qed.

Lemma grow_output_nth (output : list (list str)) row j :
  nth j (grow_output output row) [] = nth j output [].
Proof.
  unfold grow_output. destruct (length output <=? length row); [|reflexivity].
  destruct (Nat.lt_ge_cases j (length output)) as [H|H].
  - apply app_nth1. exact H.
  - rewrite app_nth2 by exact H. rewrite (nth_overflow output) by exact H.
    apply nth_repeat.
Qed.

Lemma add_fields_length i row (output : list (list str)) :
  length (add_fields i row output) = length output.
Proof.
  revert i output. induction row as [|f row IH]; intros i output; simpl.
  - reflexivity.
  - rewrite IH. destruct (truthy (strip f)); [apply append_at_length|auto].
Qed.

Lemma field_at_overflow i row : length row <= i -> field_at i row = [].
Proof.
  intros H. unfold field_at.
  apply nth_error_None in H. rewrite H. reflexivity.
Qed.

(** The enumeration from index [i] adds to column [j] the field of the
    row at [j - i]. *)
Lemma add_fields_nth i row (output : list (list str)) j :
  i + length row <= length output ->
  nth j (add_fields i row output) [] =
  nth j output [] ++ (if i <=? j then field_at (j - i) row else []).
Proof.
  revert i output. induction row as [|f row IH]; intros i output Hlen.
  - simpl. unfold field_at.
    destruct (j - i); simpl; destruct (i <=? j); rewrite app_nil_r;
      reflexivity.
  - simpl in Hlen. cbn [add_fields]. rewrite IH.
    2:{ destruct (truthy (strip f)); [rewrite append_at_length|]; lia. }
    assert (Hcur :
      nth j (if truthy (strip f) then append_at i (strip f) output
             else output) [] =
      nth j output [] ++ (if j =? i then field_at 0 (f :: row) else [])).
    { unfold field_at. simpl. destruct (truthy (strip f)).
      - rewrite append_at_nth by lia. destruct (j =? i); [reflexivity|].
        rewrite app_nil_r. reflexivity.
      - destruct (j =? i); rewrite app_nil_r; reflexivity. }
    rewrite Hcur, <- app_assoc. f_equal.
    destruct (j =? i) eqn:Eji.
    + apply Nat.eqb_eq in Eji. subst j.
      replace (S i <=? i) with false by (symmetry; apply Nat.leb_gt; lia).
      rewrite Nat.leb_refl, Nat.sub_diag, app_nil_r. reflexivity.
    + apply Nat.eqb_neq in Eji. rewrite app_nil_l.
      destruct (Nat.leb_spec i j) as [Eij|Eij].
      * destruct (Nat.leb_spec (S i) j) as [_|?]; [|lia].
        replace (j - i) with (S (j - S i)) by lia. reflexivity.
      * destruct (Nat.leb_spec (S i) j) as [?|_]; [lia|]. reflexivity.
Qed.

Lemma join_step_length output row :
  length (join_step output row) = Nat.max (length output) (length row).
Proof.
  unfold join_step. rewrite add_fields_length. apply grow_output_length.
Qed.

Lemma join_step_nth output row j :
  nth j (join_step output row) [] = nth j output [] ++ field_at j row.
Proof.
  unfold join_step. rewrite add_fields_nth.
  - simpl. rewrite Nat.sub_0_r, grow_output_nth. reflexivity.
  - rewrite grow_output_length. lia.
Qed.

Lemma join_fold_length rows output :
  length (fold_left join_step rows output) =
  Nat.max (length output) (list_max (map (@length str) rows)).
Proof.
  revert output. induction rows as [|row rows IH]; intros output; simpl.
  - lia.
  - rewrite IH, join_step_length. lia.
Qed.

Lemma join_fold_nth rows output j :
  nth j (fold_left join_step rows output) [] =
  nth j output [] ++ flat_map (field_at j) rows.
Proof.
  revert output. induction rows as [|row rows IH]; intros output; simpl.
  - rewrite app_nil_r. reflexivity.
  - rewrite IH, join_step_nth, <- app_assoc. reflexivity.
Qed.

(** The joiner, column by column. *)
Lemma join_rows_columns (rows : list (list str)) :
  join_rows rows =
  map (fun i => column_cell i rows)
    (seq 0 (list_max (map (@length str) rows))).
Proof.
  unfold join_rows.
  apply nth_ext with (d := []) (d' := []).
  - rewrite !length_map, length_seq, join_fold_length. reflexivity.
  - intros n Hn. rewrite length_map, join_fold_length in Hn. simpl in Hn.
    rewrite (nth_map_lt _ _ _ _ [])
      by (rewrite join_fold_length; exact Hn).
    rewrite (nth_map_lt _ _ _ _ 0) by (rewrite length_seq; exact Hn).
    rewrite seq_nth by exact Hn. simpl.
    unfold column_cell. rewrite join_fold_nth.
    rewrite nth_overflow by (simpl; lia). reflexivity.
Qed.

Lemma join_rows_length (rows : list (list str)) :
  length (join_rows rows) = list_max (map (@length str) rows).
Proof. rewrite join_rows_columns, length_map, length_seq. reflexivity. Qed.

(** C7: for every partition of raw lines, the cell that [join_rows]
    makes at column [i] of the split lines is the newline-joined
    sequence of the non-blank stripped fields found at index [i], in the
    order of the lines; a line whose field there is blank, or that has no
    field there, adds nothing.  There is one cell per column of the
    longest line.  On Example 2 the first logical row has column 0 equal
    to "foo\nbaz" and column 1 equal to "bar". *)
Theorem join_rows_column_cells :
  (forall partition : list str,
      let rows := map split_table_row partition in
      join_rows rows =
      map (fun i => column_cell i rows)
        (seq 0 (list_max (map (@length str) rows))))
  /\
  (forall (i : nat) (row : list str),
      (forall field, nth_error row i = Some field -> strip field = []) ->
      field_at i row = [])
  /\
  join_rows (map split_table_row example2_row1) =
  [L "foo" ++ [NL] ++ L "baz"; L "bar"].
Proof.
  split; [|split].
  - intros partition rows. apply join_rows_columns.
  - intros i row H. unfold field_at.
    destruct (nth_error row i) as [field|] eqn:E; [|reflexivity].
    rewrite (H field eq_refl). reflexivity.
  - vm_compute. reflexivity.
Qed.

Lemma join_rows_column_cells_witness :
  join_rows (map split_table_row [L "a | b"; L "c"; L "d | e"]) =
  [L "a" ++ [NL] ++ L "c" ++ [NL] ++ L "d"; L "b" ++ [NL] ++ L "e"].
Proof.
  rewrite (proj1 join_rows_column_cells [L "a | b"; L "c"; L "d | e"]).
  vm_compute. reflexivity.
Defined.

(** ** The normalizer *)

Lemma fold_max_list_max (xs : list nat) (x : nat) :
  fold_left Nat.max xs x = Nat.max x (list_max xs).
Proof.
  revert x. induction xs as [|y xs IH]; intros x; simpl.
  - lia.
  - rewrite IH. lia.
Qed.

Lemma py_max_ok (xs : list nat) :
  xs <> [] -> py_max xs = Ok (list_max xs).
Proof.
  destruct xs as [|x xs]; [congruence|]. intros _. simpl.
  rewrite fold_max_list_max. reflexivity.
Qed.

Lemma update_length {A : Type} i (v : A) xs :
  length (update i v xs) = length xs.
Proof.
  revert i. induction xs as [|x xs IH]; intros [|i]; simpl; auto.
Qed.

Lemma update_nth {A : Type} i (v : A) xs j d :
  i < length xs ->
  nth j (update i v xs) d = if j =? i then v else nth j xs d.
Proof.
  revert i j. induction xs as [|x xs IH]; intros i j Hi.
  - simpl in Hi. lia.
  - destruct i as [|i], j as [|j]; simpl; try reflexivity.
    apply IH. simpl in Hi. lia.
Qed.

Lemma register_loop_spec (row : list str) (a n : nat) (ec : list bool) :
  a + n <= length ec ->
  let ec' :=
    fold_left
      (fun empty_cols i =>
         if truthy (strip (nth i row [])) then update i false empty_cols
         else empty_cols)
      (seq a n) ec in
  length ec' = length ec /\
  forall j,
    nth j ec' true =
    if (a <=? j) && (j <? a + n) then nth j ec true && cell_blank row j
    else nth j ec true.
Proof.
  revert a ec. induction n as [|n IH]; intros a ec Hlen; simpl.
  - split; [reflexivity|]. intros j.
    destruct (Nat.leb_spec a j); destruct (Nat.ltb_spec j (a + 0));
      simpl; auto; lia.
  - set (ec1 := if truthy (strip (nth a row [])) then update a false ec
                else ec).
    assert (Hl1 : length ec1 = length ec).
    { unfold ec1. destruct (truthy _); [apply update_length|reflexivity]. }
    assert (Hn1 : forall j, nth j ec1 true =
                            if j =? a then nth j ec true && cell_blank row j
                            else nth j ec true).
    { intros j. unfold ec1, cell_blank.
      destruct (Nat.eqb_spec j a) as [->|Hne].
      - destruct (truthy (strip (nth a row []))); cbn [negb].
        + rewrite update_nth by lia. rewrite Nat.eqb_refl. rewrite andb_false_r.
          reflexivity.
        + rewrite andb_true_r. reflexivity.
      - destruct (truthy (strip (nth a row []))); [|reflexivity].
        rewrite update_nth by lia.
        destruct (Nat.eqb_spec j a); [contradiction|reflexivity]. }
    destruct (IH (S a) ec1) as [IHl IHn]; [lia|].
    split; [congruence|].
    intros j. rewrite IHn, Hn1.
    destruct (Nat.eqb_spec j a) as [Heq|Hne];
      destruct (Nat.leb_spec (S a) j); destruct (Nat.leb_spec a j);
      destruct (Nat.ltb_spec j (S a + n));
      destruct (Nat.ltb_spec j (a + S n)); simpl; try lia; try reflexivity.
Qed.

Lemma register_cols_spec (row : list str) (ec : list bool) :
  length row <= length ec ->
  length (register_cols row ec) = length ec /\
  forall j,
    j < length row ->
    nth j (register_cols row ec) true = nth j ec true && cell_blank row j.
Proof.
  intros Hlen. destruct (register_loop_spec row 0 (length row) ec) as [Hl Hn].
  - simpl. exact Hlen.
  - split; [exact Hl|]. intros j Hj. unfold register_cols.
    rewrite Hn. simpl.
    destruct (Nat.ltb_spec j (length row)); [reflexivity|lia].
Qed.

Lemma kept_loop_spec ec (row : list str) (idx : list nat) (cols : list str) :
  fold_left
    (fun cols i =>
       let should_remove := nth i ec true in
       if negb should_remove then cols ++ [nth i row []] else cols)
    idx cols =
  cols ++ select_columns (filter (fun i => negb (nth i ec true)) idx) row.
Proof.
  revert cols. induction idx as [|i idx IH]; intros cols; simpl.
  - rewrite app_nil_r. reflexivity.
  - rewrite IH. destruct (negb (nth i ec true)); simpl.
    + rewrite <- app_assoc. reflexivity.
    + reflexivity.
Qed.

Lemma kept_cols_spec ec (row : list str) :
  kept_cols ec row =
  select_columns (filter (fun i => negb (nth i ec true))
                    (seq 0 (length row))) row.
Proof. unfold kept_cols. apply kept_loop_spec. Qed.

Lemma pad_to_length m (row : list str) : length row <= m -> length (pad_to m row) = m.
Proof.
  intros H. unfold pad_to. rewrite length_app, repeat_length. lia.
Qed.

Lemma list_max_ge (xs : list nat) x : In x xs -> x <= list_max xs.
Proof.
  induction xs as [|y xs IH]; simpl; [tauto|].
  intros [->|H]; [lia|]. specialize (IH H). lia.
Qed.

Lemma unify_fold_spec m (table : list (list str)) output ec :
  Forall (fun row => length row <= m) table ->
  length ec = m ->
  let st := fold_left (unify_step m) table (output, ec) in
  fst st = output ++ map (pad_to m) table /\
  length (snd st) = m /\
  forall j,
    j < m ->
    nth j (snd st) true = nth j ec true && blank_column (map (pad_to m) table) j.
Proof.
  revert output ec. induction table as [|row table IH]; intros output ec Hall Hec.
  - simpl. rewrite app_nil_r. repeat split; auto.
    intros j _. rewrite andb_true_r. reflexivity.
  - inversion Hall as [|? ? Hrow Hrest]; subst.
    cbn [fold_left unify_step].
    assert (Hpad : (if length row <? length ec
                    then row ++ repeat [] (length ec - length row)
                    else row) = pad_to (length ec) row).
    { unfold pad_to. destruct (Nat.ltb_spec (length row) (length ec)).
      - reflexivity.
      - replace (length ec - length row) with 0 by lia.
        simpl. rewrite app_nil_r. reflexivity. }
    rewrite Hpad.
    destruct (register_cols_spec (pad_to (length ec) row) ec) as [Hl Hn].
    { rewrite pad_to_length; auto. }
    destruct (IH (output ++ [pad_to (length ec) row])
                (register_cols (pad_to (length ec) row) ec) Hrest Hl)
      as (H1 & H2 & H3).
    split; [|split].
    + rewrite H1, <- app_assoc. reflexivity.
    + exact H2.
    + intros j Hj. rewrite H3 by exact Hj.
      rewrite Hn by (rewrite pad_to_length; auto).
      simpl. unfold cell_blank. rewrite andb_assoc. reflexivity.
Qed.

(** The normalizer computes what the specification describes. *)
Lemma unify_table_spec (table : list (list str)) :
  table <> [] ->
  unify_table table =
  Ok (map (select_columns (surviving_columns table))
        (map (pad_to (max_fields_of table)) table)).
Proof.
  intros Hne. unfold unify_table.
  rewrite py_max_ok by (destruct table; [congruence|discriminate]).
  cbn [bind]. fold (max_fields_of table). set (m := max_fields_of table).
  assert (Hall : Forall (fun row : list str => length row <= m) table).
  { apply Forall_forall. intros row Hin. apply list_max_ge.
    apply in_map. exact Hin. }
  destruct (unify_fold_spec m table [] (repeat true m) Hall
              (repeat_length _ _))
    as (H1 & H2 & H3).
  destruct (fold_left (unify_step m) table ([], repeat true m))
    as [output ec] eqn:E.
  simpl in H1, H2, H3. subst output. f_equal.
  apply map_ext_in. intros row Hin.
  apply in_map_iff in Hin as (row0 & <- & Hin0).
  rewrite kept_cols_spec. unfold surviving_columns. fold m.
  rewrite pad_to_length by (rewrite Forall_forall in Hall; auto).
  f_equal. apply filter_ext_in. intros i Hi. apply in_seq in Hi.
  rewrite H3 by lia. rewrite nth_repeat. reflexivity.
Qed.

Lemma select_columns_length cols row :
  length (select_columns cols row) = length cols.
Proof. apply length_map. Qed.

Lemma filter_negb_length {A : Type} (f : A -> bool) (l : list A) :
  length (filter (fun x => negb (f x)) l) = length l - length (filter f l).
Proof.
  enough (length (filter (fun x => negb (f x)) l) + length (filter f l)
          = length l) by lia.
  induction l as [|x l IH]; [reflexivity|].
  cbn [filter length]. destruct (f x); cbn [negb length]; lia.
Qed.

(** C5: for every non-empty table, [unify_table] returns the rows in
    their order, each padded to the longest row and then reduced to the
    columns that are not blank in every padded row, these in their
    order; so all rows get the same length: the longest row length minus
    the number of all-blank columns. *)
Theorem unify_table_normalizes (table : list (list str)) :
  table <> [] ->
  let m := max_fields_of table in
  let padded := map (pad_to m) table in
  exists out,
    unify_table table = Ok out /\
    out = map (select_columns (surviving_columns table)) padded /\
    surviving_columns table =
      filter (fun i => negb (blank_column padded i)) (seq 0 m) /\
    length out = length table /\
    Forall
      (fun row =>
         length row = m - length (filter (blank_column padded) (seq 0 m)))
      out.
Proof.
  intros Hne m padded.
  exists (map (select_columns (surviving_columns table)) padded).
  split; [apply unify_table_spec; exact Hne|].
  split; [reflexivity|]. split; [reflexivity|].
  split; [unfold padded; rewrite !length_map; reflexivity|].
  apply Forall_forall. intros row Hin.
  apply in_map_iff in Hin as (row0 & <- & _).
  rewrite select_columns_length. unfold surviving_columns. fold m padded.
  rewrite filter_negb_length, length_seq. reflexivity.
Qed.

Lemma unify_table_normalizes_witness :
  exists out,
    unify_table [[L "a"; L " "; L "b"]; [L "c"]] = Ok out /\
    out = [[L "a"; L "b"]; [L "c"; L ""]].
Proof.
  destruct (unify_table_normalizes [[L "a"; L " "; L "b"]; [L "c"]])
    as (out & H1 & H2 & _).
  - discriminate.
  - exists out. split; [exact H1|]. rewrite H2. vm_compute. reflexivity.
Defined.

(** ** Column widths *)

Lemma widen_loop_spec (row : list str) (a n : nat) (ws : list nat) :
  a + n <= length ws ->
  let ws' :=
    fold_left
      (fun widths i =>
         let field_text := nth i row [] in
         let field_width := get_field_width field_text in
         update i (Nat.max (nth i widths 0) field_width) widths)
      (seq a n) ws in
  length ws' = length ws /\
  forall j,
    nth j ws' 0 =
    if (a <=? j) && (j <? a + n)
    then Nat.max (nth j ws 0) (get_field_width (nth j row []))
    else nth j ws 0.
Proof.
  revert a ws. induction n as [|n IH]; intros a ws Hlen; simpl.
  - split; [reflexivity|]. intros j.
    destruct (Nat.leb_spec a j); destruct (Nat.ltb_spec j (a + 0));
      simpl; auto; lia.
  - set (ws1 := update a (Nat.max (nth a ws 0)
                            (get_field_width (nth a row []))) ws).
    assert (Hl1 : length ws1 = length ws) by apply update_length.
    destruct (IH (S a) ws1) as [IHl IHn]; [lia|].
    split; [rewrite <- Hl1; exact IHl|].
    intros j. rewrite IHn. unfold ws1. rewrite update_nth by lia.
    destruct (Nat.eqb_spec j a) as [Heq|Hne];
      destruct (Nat.leb_spec (S a) j); destruct (Nat.leb_spec a j);
      destruct (Nat.ltb_spec j (S a + n));
      destruct (Nat.ltb_spec j (a + S n)); simpl; try lia; try reflexivity.
    subst j. reflexivity.
Qed.

Lemma widths_step_spec (ws : list nat) (row : list str) :
  length (widths_step ws row) = Nat.max (length ws) (length row) /\
  forall j,
    nth j (widths_step ws row) 0 =
    if j <? length row
    then Nat.max (nth j ws 0) (get_field_width (nth j row []))
    else nth j ws 0.
Proof.
  unfold widths_step, widen. cbv zeta.
  set (ws0 := if length ws <=? length row
              then ws ++ repeat 0 (length row - length ws) else ws).
  assert (Hl0 : length ws0 = Nat.max (length ws) (length row)).
  { unfold ws0. destruct (Nat.leb_spec (length ws) (length row)).
    - rewrite length_app, repeat_length. lia.
    - lia. }
  assert (Hn0 : forall j, nth j ws0 0 = nth j ws 0).
  { intros j. unfold ws0.
    destruct (Nat.leb_spec (length ws) (length row)); [|reflexivity].
    destruct (Nat.lt_ge_cases j (length ws)) as [Hj|Hj].
    - apply app_nth1. exact Hj.
    - rewrite app_nth2 by exact Hj. rewrite (nth_overflow ws) by exact Hj.
      apply nth_repeat. }
  destruct (widen_loop_spec row 0 (length row) ws0) as [Hl Hn].
  { simpl. lia. }
  cbv zeta in Hl, Hn.
  split; [rewrite Hl; exact Hl0|]. intros j. rewrite Hn, Hn0. reflexivity.
Qed.

Lemma widths_fold_spec (table : list (list str)) (ws : list nat) :
  length (fold_left widths_step table ws) =
    Nat.max (length ws) (list_max (map (@length str) table)) /\
  forall j,
    nth j (fold_left widths_step table ws) 0 =
    Nat.max (nth j ws 0) (list_max (map (width_in j) table)).
Proof.
  revert ws. induction table as [|row table IH]; intros ws; simpl.
  - split; [lia|]. intros j. lia.
  - destruct (IH (widths_step ws row)) as [IHl IHn].
    destruct (widths_step_spec ws row) as [Hl Hn].
    split; [rewrite IHl, Hl; lia|].
    intros j. rewrite IHn, Hn. unfold width_in.
    destruct (j <? length row); lia.
Qed.

Lemma get_column_widths_length (table : list (list str)) :
  length (get_column_widths table) = list_max (map (@length str) table).
Proof.
  unfold get_column_widths.
  rewrite (proj1 (widths_fold_spec table [])). reflexivity.
Qed.

Lemma get_column_widths_nth (table : list (list str)) j :
  nth j (get_column_widths table) 0 = list_max (map (width_in j) table).
Proof.
  unfold get_column_widths.
  rewrite (proj2 (widths_fold_spec table [])). destruct j; reflexivity.
Qed.

Lemma list_max_same (xs : list nat) n :
  xs <> [] -> Forall (fun x => x = n) xs -> list_max xs = n.
Proof.
  induction xs as [|x xs IH]; [congruence|]. intros _ Hall.
  inversion Hall as [|? ? Hx Hxs]; subst. simpl.
  destruct xs as [|y xs]; [simpl; lia|].
  rewrite IH; [lia|discriminate|exact Hxs].
Qed.

Lemma normalized_max_fields (table : list (list str)) n :
  table <> [] ->
  Forall (fun row => length row = n) table ->
  list_max (map (@length str) table) = n.
Proof.
  intros Hne Hall. apply list_max_same.
  - destruct table; [congruence|discriminate].
  - apply Forall_map. exact Hall.
Qed.

(** On a table with rows of one length, the computed width of a column
    is the largest rendered width of its cells. *)
Lemma get_column_widths_normalized (table : list (list str)) n j :
  Forall (fun row => length row = n) table ->
  j < n ->
  nth j (get_column_widths table) 0 = column_width table j.
Proof.
  intros Hall Hj. rewrite get_column_widths_nth. unfold column_width.
  f_equal. apply map_ext_in. intros row Hin.
  rewrite Forall_forall in Hall. specialize (Hall row Hin).
  unfold width_in. destruct (Nat.ltb_spec j (length row)); [reflexivity|lia].
Qed.

(** ** Rendering one row *)

Lemma foldM_app {A B : Type} (f : B -> A -> result B) xs ys b :
  foldM f (xs ++ ys) b = (b' <- foldM f xs b ;; foldM f ys b').
Proof.
  revert b. induction xs as [|x xs IH]; intros b; simpl; [reflexivity|].
  destruct (f b x); simpl; [apply IH|reflexivity].
Qed.

Lemma pad_loop_ok (row : list str) (ws : list nat) idx acc :
  Forall (fun i => i < length ws) idx ->
  foldM (pad_step row ws) idx acc =
  Ok (acc ++ map (fun i => format_field (nth i ws 0) (strip (nth i row [])))
              idx).
Proof.
  revert acc. induction idx as [|i idx IH]; intros acc Hall; simpl.
  - rewrite app_nil_r. reflexivity.
  - inversion Hall as [|? ? Hi Hidx]; subst.
    unfold pad_step at 1. unfold py_index.
    destruct (nth_error ws i) as [w|] eqn:E.
    + simpl. rewrite IH by exact Hidx. rewrite <- app_assoc. simpl.
      rewrite (nth_error_nth _ _ 0 E). reflexivity.
    + apply nth_error_None in E. lia.
Qed.

Lemma pad_fields_ok (row : list str) (ws : list nat) :
  length row <= length ws ->
  pad_fields row ws = Ok (padded_cells ws row).
Proof.
  intros H. unfold pad_fields. rewrite pad_loop_ok; [reflexivity|].
  apply Forall_forall. intros i Hi. apply in_seq in Hi. lia.
Qed.

Lemma split_row_into_lines_ok (row : list str) :
  row <> [] -> split_row_into_lines row = Ok (turn_row row).
Proof.
  intros Hne. unfold split_row_into_lines.
  rewrite py_max_ok by (destruct row; [congruence|discriminate]).
  simpl. f_equal. unfold turn_row, row_height.
  apply map_ext. intros i. rewrite map_map. apply map_ext. intros field.
  destruct (Nat.ltb_spec i (length (split_on is_nl field))); [reflexivity|].
  symmetry. apply nth_overflow. assumption.
Qed.

Lemma split_row_into_lines_nil :
  split_row_into_lines [] = Raise ValueError.
Proof. reflexivity. Qed.

Lemma turn_row_lengths (row : list str) :
  Forall (fun row_line => length row_line = length row) (turn_row row).
Proof.
  apply Forall_forall. intros rl Hin. unfold turn_row in Hin.
  apply in_map_iff in Hin as (i & <- & _). apply length_map.
Qed.

Lemma draw_lines_ok (ws : list nat) (row_lines : list (list str)) output :
  Forall (fun row_line => length row_line <= length ws) row_lines ->
  foldM (draw_line ws) row_lines output =
  Ok (output ++ map (data_line ws) row_lines).
Proof.
  revert output. induction row_lines as [|rl rls IH]; intros output Hall.
  - simpl. rewrite app_nil_r. reflexivity.
  - inversion Hall as [|? ? Hrl Hrls]; subst. simpl.
    unfold draw_line at 1. rewrite pad_fields_ok by exact Hrl. simpl.
    rewrite IH by exact Hrls. rewrite <- app_assoc. reflexivity.
Qed.

Lemma draw_row_ok (ws : list nat) (h n : str) output (first : bool) row :
  row <> [] ->
  length row <= length ws ->
  draw_row ws h n (output, first) row =
  Ok (output ++ data_lines ws row ++ [if first then h else n], false).
Proof.
  intros Hne Hlen. unfold draw_row.
  rewrite split_row_into_lines_ok by exact Hne. simpl.
  rewrite draw_lines_ok.
  - simpl. destruct first; rewrite <- app_assoc; reflexivity.
  - eapply Forall_impl; [|apply turn_row_lengths].
    simpl. intros rl Hrl. lia.
Qed.

Lemma draw_rows_ok (ws : list nat) (h n : str) rows output :
  Forall (fun row => row <> [] /\ length row <= length ws) rows ->
  foldM (draw_row ws h n) rows (output, false) =
  Ok (output ++ flat_map (fun row => data_lines ws row ++ [n]) rows, false).
Proof.
  revert output. induction rows as [|row rows IH]; intros output Hall.
  - simpl. rewrite app_nil_r. reflexivity.
  - inversion Hall as [|? ? [Hne Hlen] Hrows]; subst.
    cbn [foldM]. rewrite draw_row_ok by assumption. cbn [bind].
    rewrite IH by exact Hrows. cbn [flat_map].
    rewrite <- !app_assoc. reflexivity.
Qed.

(** The layout of the output: the header border, the lines of the first
    row, the header border again, and then every further row followed by
    a normal border. *)
Lemma draw_table_layout (row : list str) (rest : list (list str)) :
  Forall (fun r => r <> []) (row :: rest) ->
  let table := row :: rest in
  let ws := get_column_widths table in
  draw_table table =
  Ok ([header_line_of table] ++ data_lines ws row ++ [header_line_of table]
      ++ flat_map (fun r => data_lines ws r ++ [normal_line_of table]) rest).
Proof.
  intros Hall table ws.
  assert (Hlen : Forall (fun r => r <> [] /\ length r <= length ws) table).
  { apply Forall_forall. intros r Hin. rewrite Forall_forall in Hall.
    split; [apply Hall; exact Hin|].
    unfold ws. rewrite get_column_widths_length. apply list_max_ge.
    apply in_map. exact Hin. }
  inversion Hlen as [|? ? [Hne Hrow] Hrest]; subst.
  change (draw_table table)
    with (st <- foldM (draw_row ws (header_line_of table)
                         (normal_line_of table))
                  (row :: rest) ([header_line_of table], true) ;;
          Ok (fst st)).
  cbn [foldM].
  rewrite draw_row_ok by assumption. cbn [bind].
  rewrite draw_rows_ok by exact Hrest. cbn [bind fst].
  rewrite <- !app_assoc. reflexivity.
Qed.

(** ** Stripping *)

Lemma lstrip_length (s : str) : length (lstrip s) <= length s.
Proof.
  induction s as [|c s IH]; simpl; [lia|].
  destruct (is_space c); simpl; lia.
Qed.

Lemma rstrip_length (s : str) : length (rstrip s) <= length s.
Proof.
  unfold rstrip. rewrite length_rev.
  etransitivity; [apply lstrip_length|]. rewrite length_rev. lia.
Qed.

Lemma strip_length (s : str) : length (strip s) <= length s.
Proof.
  unfold strip. etransitivity; [apply rstrip_length|apply lstrip_length].
Qed.

Lemma lstrip_app_space (a b : str) :
  forallb is_space a = true -> lstrip (a ++ b) = lstrip b.
Proof.
  induction a as [|c a IH]; simpl; [reflexivity|].
  intros H. apply andb_prop in H as [Hc Ha]. rewrite Hc. auto.
Qed.

Lemma lstrip_all_space (s : str) :
  forallb is_space s = true -> lstrip s = [].
Proof.
  intros H. rewrite <- (app_nil_r s). rewrite lstrip_app_space by exact H.
  reflexivity.
Qed.

Lemma lstrip_nil_all_space (s : str) :
  lstrip s = [] -> forallb is_space s = true.
Proof.
  induction s as [|c s IH]; simpl; [reflexivity|].
  destruct (is_space c); [exact IH|discriminate].
Qed.

Lemma lstrip_decomp (s : str) :
  exists a, s = a ++ lstrip s /\ forallb is_space a = true.
Proof.
  induction s as [|c s (a & Hs & Ha)]; simpl.
  - exists []. auto.
  - destruct (is_space c) eqn:Hc.
    + exists (c :: a). simpl. rewrite Hc, Ha. split; [congruence|reflexivity].
    + exists []. auto.
Qed.

Lemma lstrip_head (s : str) c t : lstrip s = c :: t -> is_space c = false.
Proof.
  induction s as [|c' s IH]; simpl; [discriminate|].
  destruct (is_space c') eqn:Hc; [exact IH|].
  intros H. injection H as -> _. exact Hc.
Qed.

Lemma lstrip_fixed (s : str) :
  lstrip s = s <-> match s with [] => True | c :: _ => is_space c = false end.
Proof.
  destruct s as [|c s]; simpl; [tauto|].
  destruct (is_space c) eqn:Hc.
  - split; [|discriminate]. intros H.
    pose proof (lstrip_length s) as Hl. rewrite H in Hl. simpl in Hl. lia.
  - tauto.
Qed.

Lemma lstrip_idem (s : str) : lstrip (lstrip s) = lstrip s.
Proof.
  apply lstrip_fixed. destruct (lstrip s) as [|c t] eqn:E; [exact I|].
  apply (lstrip_head _ _ _ E).
Qed.

Lemma lstrip_snoc (x : str) (c : ascii) :
  lstrip (x ++ [c]) =
  match lstrip x with
  | [] => if is_space c then [] else [c]
  | l => l ++ [c]
  end.
Proof.
  induction x as [|d x IH]; simpl.
  - reflexivity.
  - destruct (is_space d); [exact IH|reflexivity].
Qed.

(** [rstrip] by recursion from the left. *)
Lemma rstrip_cons (c : ascii) (s : str) :
  rstrip (c :: s) =
  match rstrip s with
  | [] => if is_space c then [] else [c]
  | r => c :: r
  end.
Proof.
  unfold rstrip. simpl. rewrite lstrip_snoc.
  destruct (lstrip (rev s)) as [|d l] eqn:E; simpl.
  - destruct (is_space c); reflexivity.
  - rewrite rev_app_distr. simpl.
    destruct (rev l ++ [d]) eqn:E'; [destruct (rev l); discriminate|].
    reflexivity.
Qed.

Lemma rstrip_nil : rstrip [] = [].
Proof. reflexivity. Qed.

Lemma rstrip_app_space (a b : str) :
  forallb is_space b = true -> rstrip (a ++ b) = rstrip a.
Proof.
  intros H. unfold rstrip. rewrite rev_app_distr.
  rewrite lstrip_app_space; [reflexivity|].
  rewrite forallb_forall in *. intros c Hc. apply H.
  apply in_rev. exact Hc.
Qed.

Lemma rstrip_all_space (s : str) :
  forallb is_space s = true -> rstrip s = [].
Proof.
  intros H. change s with ([] ++ s). rewrite rstrip_app_space by exact H.
  reflexivity.
Qed.

Lemma rstrip_snoc_nonspace (s : str) (c : ascii) :
  is_space c = false -> rstrip (s ++ [c]) = s ++ [c].
Proof.
  intros H. unfold rstrip. rewrite rev_app_distr. simpl. rewrite H.
  simpl. rewrite rev_involutive. reflexivity.
Qed.

Lemma rstrip_decomp (s : str) :
  exists b, s = rstrip s ++ b /\ forallb is_space b = true.
Proof.
  unfold rstrip. destruct (lstrip_decomp (rev s)) as (a & Hs & Ha).
  exists (rev a). split.
  - rewrite <- rev_app_distr, <- Hs, rev_involutive. reflexivity.
  - rewrite forallb_forall in *. intros c Hc. apply Ha.
    apply in_rev. exact Hc.
Qed.

Lemma rstrip_last (s t : str) c : rstrip s = t ++ [c] -> is_space c = false.
Proof.
  unfold rstrip. intros H.
  assert (E : lstrip (rev s) = c :: rev t).
  { rewrite <- (rev_involutive (lstrip (rev s))), H, rev_app_distr.
    reflexivity. }
  apply (lstrip_head _ _ _ E).
Qed.

Lemma rstrip_idem (s : str) : rstrip (rstrip s) = rstrip s.
Proof.
  unfold rstrip. rewrite rev_involutive, lstrip_idem. reflexivity.
Qed.

Lemma rstrip_cons_nonspace (c : ascii) (s : str) :
  is_space c = false -> rstrip (c :: s) = c :: rstrip s.
Proof.
  intros H. rewrite rstrip_cons, H. destruct (rstrip s); reflexivity.
Qed.

Lemma lstrip_rstrip_comm (s : str) : lstrip (rstrip s) = rstrip (lstrip s).
Proof.
  induction s as [|c s IH]; [reflexivity|].
  rewrite rstrip_cons. cbn [lstrip]. destruct (is_space c) eqn:Hc.
  - destruct (rstrip s) as [|d r] eqn:E.
    + simpl. simpl in IH. rewrite <- IH. reflexivity.
    + cbn [lstrip]. rewrite Hc. exact IH.
  - rewrite rstrip_cons, Hc.
    destruct (rstrip s); simpl; rewrite Hc; reflexivity.
Qed.

Lemma strip_decomp (s : str) :
  exists a b,
    s = a ++ strip s ++ b /\
    forallb is_space a = true /\ forallb is_space b = true.
Proof.
  destruct (lstrip_decomp s) as (a & Hs & Ha).
  destruct (rstrip_decomp (lstrip s)) as (b & Hl & Hb).
  exists a, b. unfold strip. rewrite <- Hl. auto.
Qed.

Lemma strip_lstrip_fixed (s : str) : lstrip (strip s) = strip s.
Proof.
  unfold strip. rewrite lstrip_rstrip_comm, lstrip_idem. reflexivity.
Qed.

Lemma strip_rstrip_fixed (s : str) : rstrip (strip s) = strip s.
Proof. unfold strip. apply rstrip_idem. Qed.

Lemma strip_idem (s : str) : strip (strip s) = strip s.
Proof.
  unfold strip at 1. rewrite strip_lstrip_fixed. apply strip_rstrip_fixed.
Qed.

Lemma strip_tight (s : str) : tight (strip s).
Proof. split; [apply strip_lstrip_fixed|apply strip_rstrip_fixed]. Qed.

Lemma tight_strip (s : str) : tight s -> strip s = s.
Proof. intros [Hl Hr]. unfold strip. rewrite Hl. exact Hr. Qed.

Lemma tight_nil : tight [].
Proof. split; reflexivity. Qed.

(** Blanks around a tight text are what [strip] removes. *)
Lemma strip_around (a core b : str) :
  forallb is_space a = true ->
  forallb is_space b = true ->
  tight core ->
  strip (a ++ core ++ b) = core.
Proof.
  intros Ha Hb [Hl Hr]. unfold strip. rewrite lstrip_app_space by exact Ha.
  destruct core as [|c core].
  - simpl. rewrite lstrip_all_space by exact Hb. reflexivity.
  - apply lstrip_fixed in Hl. cbn [app lstrip]. rewrite Hl.
    change (c :: core ++ b) with ((c :: core) ++ b).
    rewrite rstrip_app_space by exact Hb. exact Hr.
Qed.

Lemma strip_all_space (s : str) :
  forallb is_space s = true -> strip s = [].
Proof.
  intros H. unfold strip. rewrite lstrip_all_space by exact H. reflexivity.
Qed.

Lemma strip_Forall (P : ascii -> Prop) (s : str) :
  Forall P s -> Forall P (strip s).
Proof.
  intros H. destruct (strip_decomp s) as (a & b & Hs & _).
  rewrite Hs in H. apply Forall_app in H as [_ H].
  apply Forall_app in H as [H _]. exact H.
Qed.

Lemma strip_In_nonspace (s : str) (c : ascii) :
  In c s -> is_space c = false -> truthy (strip s) = true.
Proof.
  intros Hin Hc. destruct (strip_decomp s) as (a & b & Hs & Ha & Hb).
  rewrite Hs in Hin. rewrite forallb_forall in Ha, Hb.
  apply in_app_or in Hin as [Hin|Hin].
  - rewrite (Ha c Hin) in Hc. discriminate.
  - apply in_app_or in Hin as [Hin|Hin].
    + destruct (strip s); [contradiction|reflexivity].
    + rewrite (Hb c Hin) in Hc. discriminate.
Qed.

Lemma strip_nil_all_space (s : str) :
  strip s = [] -> forallb is_space s = true.
Proof.
  intros H. destruct (strip_decomp s) as (a & b & Hs & Ha & Hb).
  rewrite H in Hs. simpl in Hs. rewrite Hs, forallb_app, Ha, Hb. reflexivity.
Qed.

(** ** Cell widths *)

Lemma format_field_length (w : nat) (text : str) :
  length text <= w -> length (format_field w text) = w + 2.
Proof.
  intros H. unfold format_field.
  rewrite !length_app, repeat_length. simpl. lia.
Qed.

Lemma get_field_width_sub_line (field : str) (k : nat) :
  length (nth k (split_on is_nl field) []) <= get_field_width field.
Proof.
  unfold get_field_width.
  destruct (Nat.lt_ge_cases k (length (split_on is_nl field))) as [H|H].
  - apply list_max_ge. apply in_map. apply nth_In. exact H.
  - rewrite nth_overflow by exact H. simpl. lia.
Qed.

Lemma width_in_le_widths (table : list (list str)) row j :
  In row table -> width_in j row <= nth j (get_column_widths table) 0.
Proof.
  intros Hin. rewrite get_column_widths_nth. apply list_max_ge.
  apply in_map. exact Hin.
Qed.

(** Every line of a row of the table is a data line for the widths of the
    table. *)
Lemma data_lines_are_data_lines (table : list (list str)) n row :
  Forall (fun r => length r = n) table ->
  In row table ->
  Forall (is_data_line (get_column_widths table))
    (data_lines (get_column_widths table) row).
Proof.
  intros Hall Hin. set (ws := get_column_widths table).
  assert (Hne : table <> []) by (intros ->; contradiction).
  assert (Hws : length ws = n).
  { unfold ws. rewrite get_column_widths_length.
    apply normalized_max_fields; assumption. }
  assert (Hrow : length row = n).
  { rewrite Forall_forall in Hall. apply Hall. exact Hin. }
  apply Forall_forall. intros line Hline. unfold data_lines in Hline.
  apply in_map_iff in Hline as (rl & <- & Hrl).
  unfold turn_row in Hrl. apply in_map_iff in Hrl as (k & <- & _).
  set (rl := map (fun field => nth k (split_on is_nl field) []) row).
  assert (Hrl : length rl = n) by (unfold rl; rewrite length_map; exact Hrow).
  exists (padded_cells ws rl). split; [reflexivity|].
  unfold padded_cells. rewrite length_map, length_seq.
  split; [congruence|].
  intros i Hi.
  rewrite (nth_map_lt _ _ _ _ 0) by (rewrite length_seq; lia).
  rewrite seq_nth by lia. simpl.
  apply format_field_length.
  etransitivity; [apply strip_length|].
  unfold rl. rewrite (nth_map_lt _ _ _ _ []) by lia.
  etransitivity; [apply get_field_width_sub_line|].
  pose proof (width_in_le_widths table row i Hin) as Hw.
  unfold width_in in Hw.
  destruct (Nat.ltb_spec i (length row)); [exact Hw|lia].
Qed.

Lemma table_line_border (ws : list nat) (header : bool) :
  ws <> [] ->
  is_border_line (if header then "="%char else "-"%char) ws
    (table_line (map (fun x => x + 2) ws) header).
Proof.
  intros Hne. unfold is_border_line, table_line.
  rewrite map_map. destruct ws as [|w ws]; [congruence|]. reflexivity.
Qed.

Lemma split_on_nonempty (p : ascii -> bool) (s : str) : split_on p s <> [].
Proof.
  destruct s as [|c s]; simpl; [discriminate|].
  destruct (p c); [discriminate|].
  destruct (split_on p s); discriminate.
Qed.

Lemma row_height_pos (row : list str) : row <> [] -> 0 < row_height row.
Proof.
  destruct row as [|field row]; [congruence|]. intros _.
  unfold row_height.
  pose proof (split_on_nonempty is_nl field) as H.
  apply Nat.lt_le_trans with (length (split_on is_nl field)).
  - destruct (split_on is_nl field); [congruence|]. simpl. lia.
  - apply list_max_ge. left. reflexivity.
Qed.

Lemma data_lines_length (ws : list nat) (row : list str) :
  length (data_lines ws row) = row_height row.
Proof.
  unfold data_lines, turn_row. rewrite !length_map, length_seq. reflexivity.
Qed.

Lemma data_lines_nonempty (ws : list nat) (row : list str) :
  row <> [] -> data_lines ws row <> [].
Proof.
  intros Hne E. pose proof (row_height_pos row Hne) as H.
  rewrite <- (data_lines_length ws), E in H. simpl in H. lia.
Qed.

(** The lines of one row of the table, cell by cell: the row takes as
    many lines as its tallest cell has embedded lines; line [k] is the
    cells between [|] characters, one cell for each column; the cell of
    column [j] is a space, the stripped embedded line [k] of the field
    (nothing when the field has fewer lines), spaces up to the width of
    the column, and a space; that is the width of the column plus 2
    characters. *)
Lemma data_lines_cells (table : list (list str)) (n : nat) (row : list str) :
  Forall (fun r => length r = n) table ->
  In row table ->
  let ws := get_column_widths table in
  length (data_lines ws row) = row_height row /\
  forall k, k < row_height row ->
    exists cells,
      nth k (data_lines ws row) [] = join [PIPE] ([[]] ++ cells ++ [[]]) /\
      length cells = n /\
      forall j, j < n ->
        let text := strip (nth k (split_on is_nl (nth j row [])) []) in
        nth j cells [] =
          [SP] ++ text ++ repeat SP (nth j ws 0 - length text) ++ [SP] /\
        length text <= nth j ws 0 /\
        length (nth j cells []) = nth j ws 0 + 2.
Proof.
  intros Hall Hin ws. split; [apply data_lines_length|].
  intros k Hk.
  assert (Hrow : length row = n).
  { rewrite Forall_forall in Hall. apply Hall. exact Hin. }
  set (rl := map (fun field => nth k (split_on is_nl field) []) row).
  assert (Hrl : length rl = n) by (unfold rl; rewrite length_map; exact Hrow).
  assert (Hline : nth k (data_lines ws row) [] = data_line ws rl).
  { unfold data_lines, turn_row. rewrite map_map.
    rewrite (nth_map_lt _ _ _ _ 0) by (rewrite length_seq; exact Hk).
    rewrite seq_nth by exact Hk. reflexivity. }
  exists (padded_cells ws rl). split; [exact Hline|].
  unfold padded_cells. rewrite length_map, length_seq.
  split; [exact Hrl|].
  intros j Hj.
  set (text := strip (nth k (split_on is_nl (nth j row [])) [])).
  assert (Hcell :
    nth j (map (fun i => format_field (nth i ws 0) (strip (nth i rl [])))
             (seq 0 (length rl))) [] = format_field (nth j ws 0) text).
  { rewrite (nth_map_lt _ _ _ _ 0) by (rewrite length_seq; lia).
    rewrite seq_nth by lia. cbn [Nat.add]. unfold text, rl.
    rewrite (nth_map_lt _ _ _ _ []) by lia. reflexivity. }
  assert (Htext : length text <= nth j ws 0).
  { unfold text. etransitivity; [apply strip_length|].
    etransitivity; [apply get_field_width_sub_line|].
    pose proof (width_in_le_widths table row j Hin) as Hw.
    unfold width_in in Hw.
    destruct (Nat.ltb_spec j (length row)); [exact Hw|lia]. }
  rewrite Hcell. split; [reflexivity|]. split; [exact Htext|].
  apply format_field_length. exact Htext.
Qed.

(** C9: on a table whose rows all have [n] cells, the computed width of a
    column is the largest, over the rows, of the longest embedded line of
    the cell.  [draw_table] returns no line for the table without rows
    and raises ValueError for a table whose rows have no cell.
    Otherwise its output is the [=]-filled border, the lines of the
    first row, the [=]-filled border again, and then for every further
    row its lines and the [-]-filled border; the runs of both borders
    have the width of their column plus 2 characters.  A row takes as
    many lines as its tallest cell has embedded lines, and line [k] of it
    is one cell for each column between [|] characters: the cell of
    column [j] is a space, the stripped embedded line [k] of the field,
    spaces up to the width of the column, and a space, which are the
    width of the column plus 2 characters. *)
Theorem draw_table_cell_widths (table : list (list str)) (n : nat) :
  Forall (fun row => length row = n) table ->
  let ws := get_column_widths table in
  (table = [] -> draw_table table = Ok [])
  /\ (table <> [] -> n = 0 -> draw_table table = Raise ValueError)
  /\ (table <> [] ->
      length ws = n /\ forall j, j < n -> nth j ws 0 = column_width table j)
  /\ (table <> [] -> 0 < n ->
      exists header normal,
        header = join (L "+")
                   ([[]] ++ map (fun w => repeat "="%char (w + 2)) ws
                    ++ [[]]) /\
        normal = join (L "+")
                   ([[]] ++ map (fun w => repeat "-"%char (w + 2)) ws
                    ++ [[]]) /\
        draw_table table =
          Ok ([header] ++ data_lines ws (hd [] table) ++ [header]
              ++ flat_map (fun row => data_lines ws row ++ [normal])
                   (tl table)))
  /\ (forall row, In row table ->
        length (data_lines ws row) = row_height row /\
        forall k, k < row_height row ->
          exists cells,
            nth k (data_lines ws row) [] =
              join [PIPE] ([[]] ++ cells ++ [[]]) /\
            length cells = n /\
            forall j, j < n ->
              let text := strip (nth k (split_on is_nl (nth j row [])) []) in
              nth j cells [] =
                [SP] ++ text ++ repeat SP (nth j ws 0 - length text)
                ++ [SP] /\
              length text <= nth j ws 0 /\
              length (nth j cells []) = nth j ws 0 + 2).
Proof.
  intros Hall ws.
  assert (Hlen : table <> [] -> length ws = n).
  { intros Hne. unfold ws. rewrite get_column_widths_length.
    apply normalized_max_fields; assumption. }
  split; [intros ->; reflexivity|].
  split.
  { intros Hne ->. destruct table as [|row rest]; [congruence|].
    inversion Hall as [|? ? Hrow _]; subst.
    apply length_zero_iff_nil in Hrow. subst row.
    unfold draw_table. cbn [foldM draw_row].
    rewrite split_row_into_lines_nil. reflexivity. }
  split.
  { intros Hne. split; [exact (Hlen Hne)|].
    intros j Hj. apply get_column_widths_normalized with (n := n); assumption. }
  split.
  { intros Hne Hn. destruct table as [|row rest]; [congruence|].
    assert (Hrows : Forall (fun r : list str => r <> []) (row :: rest)).
    { eapply Forall_impl; [|exact Hall].
      simpl. intros r Hr ->. simpl in Hr. lia. }
    assert (Hws : ws <> []).
    { intros E. specialize (Hlen Hne). rewrite E in Hlen. simpl in Hlen. lia. }
    exists (header_line_of (row :: rest)), (normal_line_of (row :: rest)).
    split; [apply (table_line_border ws true); exact Hws|].
    split; [apply (table_line_border ws false); exact Hws|].
    apply (draw_table_layout row rest Hrows). }
  intros row Hin. apply (data_lines_cells table n row Hall Hin).
Qed.

Lemma draw_table_cell_widths_witness :
  draw_table example1_table =
    Ok [L "+====+===+"; L "| a  | b |"; L "+====+===+"; L "| cc | d |";
        L "+----+---+"]
  /\ nth 0 (get_column_widths example1_table) 0 = 2
  /\ exists cells,
       nth 0 (data_lines (get_column_widths example1_table) [L "a"; L "b"])
         [] = join [PIPE] ([[]] ++ cells ++ [[]]) /\
       nth 0 cells [] = L " a  " /\ length (nth 1 cells []) = 1 + 2.
Proof.
  assert (H : Forall (fun row : list str => length row = 2) example1_table)
    by (repeat constructor).
  pose proof (draw_table_cell_widths example1_table 2 H)
    as (_ & _ & Hws & Hout & Hcells).
  assert (Hne : example1_table <> []) by discriminate.
  split; [|split].
  - destruct (Hout Hne) as (header & normal & -> & -> & ->); [lia|].
    vm_compute. reflexivity.
  - rewrite (proj2 (Hws Hne)) by lia. reflexivity.
  - destruct (Hcells [L "a"; L "b"]) as [_ Hk]; [left; reflexivity|].
    destruct (Hk 0) as (cells & Hline & _ & Hj); [vm_compute; lia|].
    exists cells. split; [exact Hline|]. split.
    + rewrite (proj1 (Hj 0 ltac:(lia))). vm_compute. reflexivity.
    + rewrite (proj2 (proj2 (Hj 1 ltac:(lia)))). vm_compute. reflexivity.
Defined.

(** ** The end of the output *)

(** C1, as the code has it: on a table of at least two rows, all with
    the same positive number of cells, the output of [draw_table] is the
    [=]-filled border, the lines of the first row, the [=]-filled border
    again, every row between the first and the final one followed by
    the [-]-filled border, and at its end the lines of the final row, of
    which there is at least one, followed by exactly one more line, the
    [-]-filled border.  So the last line of the output is that border,
    and the line before it is the last line of the final row. *)
Theorem draw_table_ends_with_border
  (first : list str) (middle : list (list str)) (final_row : list str)
  (n : nat) :
  0 < n ->
  Forall (fun row => length row = n) (first :: middle ++ [final_row]) ->
  let table := first :: middle ++ [final_row] in
  let ws := get_column_widths table in
  let header := join (L "+")
                  ([[]] ++ map (fun w => repeat "="%char (w + 2)) ws
                   ++ [[]]) in
  let normal := join (L "+")
                  ([[]] ++ map (fun w => repeat "-"%char (w + 2)) ws
                   ++ [[]]) in
  draw_table table =
    Ok ([header] ++ data_lines ws first ++ [header]
        ++ flat_map (fun row => data_lines ws row ++ [normal]) middle
        ++ data_lines ws final_row ++ [normal])
  /\ length (data_lines ws final_row) = row_height final_row
  /\ 0 < row_height final_row
  /\ forall out,
       draw_table table = Ok out ->
       last out [] = normal /\
       last (removelast out) [] = last (data_lines ws final_row) [] /\
       last out [] <> last (data_lines ws final_row) [].
Proof.
  intros Hn Hall table ws header normal.
  assert (Hne : Forall (fun r : list str => r <> []) table).
  { eapply Forall_impl; [|exact Hall].
    simpl. intros r Hr ->. simpl in Hr. lia. }
  assert (Hfinal : final_row <> []).
  { rewrite Forall_forall in Hne. apply Hne.
    right. apply in_or_app. right. left. reflexivity. }
  assert (Hws : ws <> []).
  { intros E. assert (Hl : length ws = n).
    { unfold ws. rewrite get_column_widths_length.
      apply normalized_max_fields; [discriminate|exact Hall]. }
    rewrite E in Hl. simpl in Hl. lia. }
  assert (Hh : header_line_of table = header)
    by (apply (table_line_border ws true); exact Hws).
  assert (Hnl : normal_line_of table = normal)
    by (apply (table_line_border ws false); exact Hws).
  assert (Hout :
    draw_table table =
      Ok ([header] ++ data_lines ws first ++ [header]
          ++ flat_map (fun row => data_lines ws row ++ [normal]) middle
          ++ data_lines ws final_row ++ [normal])).
  { unfold table at 1.
    rewrite (draw_table_layout first (middle ++ [final_row]) Hne).
    fold table. fold ws. rewrite Hh, Hnl.
    rewrite flat_map_app. cbn [flat_map]. rewrite app_nil_r.
    rewrite <- ?app_assoc. reflexivity. }
  assert (Hlines : data_lines ws final_row <> [])
    by (apply data_lines_nonempty; exact Hfinal).
  split; [exact Hout|].
  split; [apply data_lines_length|].
  split; [apply row_height_pos; exact Hfinal|].
  intros out Hout'.
  set (before := [header] ++ data_lines ws first ++ [header]
                 ++ flat_map (fun row => data_lines ws row ++ [normal])
                      middle).
  assert (Eo : out = (before ++ data_lines ws final_row) ++ [normal]).
  { rewrite Hout in Hout'. injection Hout' as <-. unfold before.
    rewrite <- !app_assoc. reflexivity. }
  rewrite Eo, last_last, removelast_last.
  assert (Hprev : last (before ++ data_lines ws final_row) [] =
                  last (data_lines ws final_row) []).
  { destruct (exists_last Hlines) as (front & line & ->).
    rewrite app_assoc, !last_last. reflexivity. }
  split; [reflexivity|]. split; [exact Hprev|].
  (* the last line of the row starts with a [|], the border with a [+] *)
  destruct (exists_last Hlines) as (front & line & Hfl).
  rewrite Hfl, last_last.
  assert (Hin : In line (data_lines ws final_row))
    by (rewrite Hfl; apply in_or_app; right; left; reflexivity).
  unfold data_lines in Hin. apply in_map_iff in Hin as (rl & <- & _).
  unfold normal, data_line. destruct ws as [|w ws']; [congruence|].
  cbn [app map].
  destruct (padded_cells (w :: ws') rl ++ [[]]) eqn:E;
    [destruct (padded_cells (w :: ws') rl); discriminate|].
  cbn [join]. discriminate.
Qed.

Lemma draw_table_ends_with_border_witness :
  draw_table example1_table =
    Ok [L "+====+===+"; L "| a  | b |"; L "+====+===+"; L "| cc | d |";
        L "+----+---+"]
  /\ forall out,
       draw_table example1_table = Ok out ->
       last out [] = L "+----+---+" /\
       last (removelast out) [] = L "| cc | d |".
Proof.
  pose proof (draw_table_ends_with_border [L "a"; L "b"] [] [L "cc"; L "d"] 2)
    as H.
  destruct H as (Hout & _ & _ & Hlast).
  - lia.
  - repeat constructor.
  - split; [exact Hout|].
    intros out Ho. destruct (Hlast out Ho) as (H1 & H2 & _).
    split; [exact H1|exact H2].
Defined.

(** C1 as the specification words it fails on the table of Example 1:
    the last line of the output is a border, not the line of the final
    row. *)
Lemma draw_table_last_line_counterexample :
  draw_table example1_table =
    Ok [L "+====+===+"; L "| a  | b |"; L "+====+===+"; L "| cc | d |";
        L "+----+---+"]
  /\ data_lines (get_column_widths example1_table) [L "cc"; L "d"] =
     [L "| cc | d |"]
  /\ forall out,
       draw_table example1_table = Ok out ->
       last out [] <>
       last (data_lines (get_column_widths example1_table) [L "cc"; L "d"])
         [].
Proof.
  split; [vm_compute; reflexivity|]. split; [vm_compute; reflexivity|].
  intros out H. vm_compute in H. injection H as <-. vm_compute.
  discriminate.
Qed.

(** ** Lines of the output are not blank *)

Lemma join_cons2 (sep p q : str) (rest : list str) :
  join sep (p :: q :: rest) = p ++ sep ++ join sep (q :: rest).
Proof. reflexivity. Qed.

Lemma join_nil_cons (sep : str) (parts : list str) :
  parts <> [] -> join sep ([] :: parts) = sep ++ join sep parts.
Proof. destruct parts as [|q rest]; [congruence|reflexivity]. Qed.

Lemma data_line_has_pipe (line : str) (ws : list nat) :
  is_data_line ws line -> In PIPE line.
Proof.
  intros (cells & -> & _). cbn [app].
  rewrite join_nil_cons by (destruct cells; discriminate).
  left. reflexivity.
Qed.

Lemma border_line_has_plus (fill : ascii) (ws : list nat) (line : str) :
  ws <> [] ->
  is_border_line fill ws line ->
  In "+"%char line /\ In fill line.
Proof.
  intros Hne ->. destruct ws as [|w ws]; [congruence|].
  cbn [app map].
  rewrite join_nil_cons by discriminate.
  split; [left; reflexivity|].
  right. simpl.
  destruct (map (fun w0 => repeat fill (w0 + 2)) ws ++ [[]]) eqn:E.
  - destruct (map (fun w0 => repeat fill (w0 + 2)) ws); discriminate.
  - replace (w + 2) with (S (S w)) by lia. left. reflexivity.
Qed.

Lemma get_column_widths_nonempty (table : list (list str)) n :
  table <> [] -> 0 < n ->
  Forall (fun row => length row = n) table ->
  get_column_widths table <> [].
Proof.
  intros Hne Hn Hall E.
  assert (Hl : length (get_column_widths table) = n).
  { rewrite get_column_widths_length.
    apply normalized_max_fields; assumption. }
  rewrite E in Hl. simpl in Hl. lia.
Qed.

(** On a table with rows of one positive length the renderer returns,
    and each of its lines is a data line or a border line. *)
Lemma draw_table_classified (table : list (list str)) (n : nat) :
  table <> [] -> 0 < n ->
  Forall (fun row => length row = n) table ->
  let ws := get_column_widths table in
  exists out,
    draw_table table = Ok out /\ out <> [] /\
    Forall
      (fun line =>
         is_data_line ws line \/
         is_border_line "="%char ws line \/
         is_border_line "-"%char ws line)
      out.
Proof.
  intros Htable Hn Hall ws.
  destruct table as [|row rest]; [congruence|].
  assert (Hne : Forall (fun r : list str => r <> []) (row :: rest)).
  { eapply Forall_impl; [|exact Hall].
    simpl. intros r Hr ->. simpl in Hr. lia. }
  eexists. split; [apply (draw_table_layout row rest Hne)|].
  split; [discriminate|]. fold ws.
  assert (Hws : ws <> [])
    by (apply get_column_widths_nonempty with (n := n); assumption).
  assert (Hh : is_border_line "="%char ws (header_line_of (row :: rest)))
    by (apply (table_line_border ws true); exact Hws).
  assert (Hnl : is_border_line "-"%char ws (normal_line_of (row :: rest)))
    by (apply (table_line_border ws false); exact Hws).
  assert (Hdl : forall r, In r (row :: rest) ->
                Forall (fun line =>
                          is_data_line ws line \/
                          is_border_line "="%char ws line \/
                          is_border_line "-"%char ws line)
                  (data_lines ws r)).
  { intros r Hr. eapply Forall_impl;
      [|apply (data_lines_are_data_lines _ _ _ Hall Hr)].
    simpl. auto. }
  constructor; [auto|]. apply Forall_app; split; [|constructor].
  - apply Hdl. left. reflexivity.
  - auto.
  - apply Forall_forall. intros line Hline.
    apply in_flat_map in Hline as (r & Hr & Hline).
    apply in_app_or in Hline as [Hline|[<-|[]]].
    + specialize (Hdl r (or_intror Hr)).
      rewrite Forall_forall in Hdl. apply Hdl. exact Hline.
    + auto.
Qed.

(** ** The bounds scan *)

Section Scan.

Variables (pre block post : list str).
Hypothesis block_not_blank : Forall (fun l => blank_line l = false) block.
Hypothesis pre_ends_blank : ends_blank pre.
Hypothesis post_starts_blank : starts_blank post.

Let buffer := pre ++ block ++ post.
Let p := length pre.
Let m := length block.

Lemma buffer_line_in_block (k : nat) :
  p <= k < p + m ->
  exists line,
    buffer_line buffer (Z.of_nat k) = Ok line /\ blank_line line = false.
Proof.
  intros Hk. exists (nth (k - p) block []). split.
  - unfold buffer_line, buffer. rewrite !length_app. fold p m.
    destruct (Z.ltb_spec (Z.of_nat k) 0); [lia|].
    destruct (Z.leb_spec (Z.of_nat (p + (m + length post))) (Z.of_nat k));
      [lia|].
    simpl. rewrite Nat2Z.id. rewrite app_nth2 by (fold p; lia). fold p.
    rewrite app_nth1 by (fold m; lia). reflexivity.
  - rewrite Forall_forall in block_not_blank. apply block_not_blank.
    apply nth_In. fold m. lia.
Qed.

Lemma buffer_line_before :
  (p = 0 /\ exists e, buffer_line buffer (-1) = Raise e) \/
  (0 < p /\ exists line,
      buffer_line buffer (Z.of_nat p - 1) = Ok line /\
      blank_line line = true).
Proof.
  destruct (Nat.eq_dec p 0) as [Hp|Hp].
  - left. split; [exact Hp|]. exists IndexError. reflexivity.
  - right. split; [lia|].
    unfold ends_blank in pre_ends_blank.
    destruct (rev pre) as [|b rp] eqn:E.
    { apply (f_equal (@length _)) in E. rewrite length_rev in E.
      fold p in E. simpl in E. lia. }
    simpl in pre_ends_blank.
    assert (Hpre : pre = rev rp ++ [b]).
    { rewrite <- (rev_involutive pre), E. reflexivity. }
    exists b. split; [|exact pre_ends_blank].
    unfold buffer_line, buffer. rewrite !length_app. fold p m.
    destruct (Z.ltb_spec (Z.of_nat p - 1) 0); [lia|].
    destruct (Z.leb_spec (Z.of_nat (p + (m + length post)))
                (Z.of_nat p - 1)); [lia|].
    simpl. f_equal.
    replace (Z.to_nat (Z.of_nat p - 1)) with (length (rev rp)).
    2:{ unfold p. rewrite Hpre, length_app. simpl. lia. }
    rewrite app_nth1 by (rewrite Hpre, length_app; simpl; lia).
    rewrite Hpre. rewrite app_nth2 by lia.
    rewrite Nat.sub_diag. reflexivity.
Qed.

Lemma buffer_line_after :
  (post = [] /\ exists e, buffer_line buffer (Z.of_nat (p + m)) = Raise e) \/
  (post <> [] /\ exists line,
      buffer_line buffer (Z.of_nat (p + m)) = Ok line /\
      blank_line line = true).
Proof.
  destruct post as [|b post'] eqn:E.
  - left. split; [reflexivity|]. exists IndexError.
    unfold buffer_line, buffer. rewrite !length_app. fold p m. simpl.
    destruct (Z.ltb_spec (Z.of_nat (p + m)) 0); [reflexivity|].
    destruct (Z.leb_spec (Z.of_nat (p + (m + 0))) (Z.of_nat (p + m)));
      [reflexivity|lia].
  - right. split; [discriminate|]. exists b.
    split; [|exact post_starts_blank].
    unfold buffer_line, buffer. rewrite !length_app. fold p m. simpl.
    destruct (Z.ltb_spec (Z.of_nat (p + m)) 0); [lia|].
    destruct (Z.leb_spec (Z.of_nat (p + (m + S (length post'))))
                (Z.of_nat (p + m))); [lia|].
    simpl. f_equal. rewrite Nat2Z.id.
    rewrite app_nth2 by (fold p; lia). fold p.
    rewrite app_nth2 by (fold m; lia). fold m.
    replace (p + m - p - m) with 0 by lia. reflexivity.
Qed.

Lemma scan_upper_block (fuel u : nat) :
  p <= u <= p + m ->
  u - p < fuel ->
  scan_upper buffer fuel (Z.of_nat u) =
  if p =? 0 then 0%Z else (Z.of_nat p + 1)%Z.
Proof.
  revert u. induction fuel as [|fuel IH]; intros u Hu Hf; [lia|].
  cbn [scan_upper].
  destruct (Nat.eq_dec u p) as [->|Hne].
  - destruct buffer_line_before as [[Hp (e & He)]|[Hp (line & Hl & Hb)]].
    + replace (Z.of_nat p - 1)%Z with (-1)%Z by lia.
      rewrite He. destruct (Nat.eqb_spec p 0); lia.
    + rewrite Hl. unfold blank_line in Hb.
      destruct (truthy (strip line)); [discriminate|].
      destruct (Nat.eqb_spec p 0); [lia|reflexivity].
  - destruct (buffer_line_in_block (u - 1)) as (line & Hl & Hb); [lia|].
    replace (Z.of_nat u - 1)%Z with (Z.of_nat (u - 1)) by lia.
    rewrite Hl. unfold blank_line in Hb.
    destruct (truthy (strip line)); [|discriminate].
    apply IH; lia.
Qed.

Lemma scan_lower_block (fuel l : nat) :
  p + 1 <= l <= p + m + 1 ->
  p + m + 1 - l < fuel ->
  scan_lower buffer fuel (Z.of_nat l) =
  match post with
  | [] => Z.of_nat (p + m + 1)
  | _ :: _ => Z.of_nat (p + m)
  end.
Proof.
  remember (p + m + 1 - l) as d eqn:Hd.
  revert l d Hd. induction fuel as [|fuel IH]; intros l d Hd Hl Hf; [lia|].
  cbn [scan_lower].
  replace (Z.of_nat l - 1)%Z with (Z.of_nat (l - 1)) by lia.
  destruct (Nat.eq_dec (l - 1) (p + m)) as [He|Hne].
  - rewrite He.
    destruct buffer_line_after as [[Hp (e & Hr)]|[Hp (line & Hk & Hb)]].
    + rewrite Hr, Hp. f_equal. lia.
    + rewrite Hk. unfold blank_line in Hb.
      destruct (truthy (strip line)); [discriminate|].
      destruct post; [congruence|]. lia.
  - destruct (buffer_line_in_block (l - 1)) as (line & Hk & Hb); [lia|].
    rewrite Hk. unfold blank_line in Hb.
    destruct (truthy (strip line)); [|discriminate].
    replace (Z.of_nat l + 1)%Z with (Z.of_nat (S l)) by lia.
    apply (IH (S l) (p + m + 1 - S l)); lia.
Qed.

(** With the cursor inside a block of non-blank lines, between blank
    lines or the ends of the buffer, the selected block is that block. *)
Lemma selected_block_of_block (row : Z) :
  (Z.of_nat p < row <= Z.of_nat (p + m))%Z ->
  selected_block buffer row = block.
Proof.
  intros Hrow. unfold selected_block, get_table_bounds.
  replace row with (Z.of_nat (Z.to_nat row)) by lia.
  assert (Hlen : length buffer = p + m + length post).
  { unfold buffer. rewrite !length_app. fold p m. lia. }
  rewrite scan_upper_block by lia.
  rewrite scan_lower_block by lia.
  unfold buffer_slice.
  assert (Hlo : Z.to_nat (Z.max 0 ((if p =? 0 then 0 else Z.of_nat p + 1) - 1))
                = p).
  { destruct (Nat.eqb_spec p 0); lia. }
  rewrite Hlo. unfold buffer, p.
  rewrite skipn_app, skipn_all, Nat.sub_diag. cbn [skipn app].
  fold p. destruct post as [|b post'].
  - rewrite app_nil_r. apply firstn_all2. fold m. lia.
  - replace (Z.to_nat (Z.max 0 (Z.of_nat (p + m))) - p) with (length block)
      by (fold m; lia).
    rewrite firstn_app, firstn_all, Nat.sub_diag. cbn [firstn].
    apply app_nil_r.
Qed.

End Scan.




(** ** The regular expressions *)

Lemma star_any (p : ascii -> bool) (b : bool) (s : str) :
  exists r, Re.star p (fun _ rest => Some rest) b s = Some r.
Proof.
  revert b. induction s as [|c s IH]; intros b; simpl.
  - eauto.
  - destruct (p c); [|eauto].
    destruct (IH false) as (r & ->). eauto.
Qed.

Lemma star_space_all (b : bool) (s : str) :
  Re.star is_space (fun _ rest => Some rest) b s = Some (lstrip s).
Proof.
  revert b. induction s as [|c s IH]; intros b; simpl.
  - reflexivity.
  - destruct (is_space c); [|reflexivity]. rewrite IH. reflexivity.
Qed.

(** Whitespace, then a continuation that cannot start on whitespace:
    only the end of the whitespace can do. *)
Lemma star_space_skip (k : Re.cont) (b : bool) (s : str) :
  (forall b1 b2 x, k b1 x = k b2 x) ->
  (forall b' c s', is_space c = true -> k b' (c :: s') = None) ->
  Re.star is_space k b s = k false (lstrip s).
Proof.
  intros Hb Hws. revert b. induction s as [|c s IH]; intros b.
  - simpl. apply Hb.
  - cbn [Re.star lstrip]. destruct (is_space c) eqn:Hc.
    + rewrite IH. destruct (k false (lstrip s)); [reflexivity|].
      apply Hws. exact Hc.
    + apply Hb.
Qed.

Lemma match_at_pipe (b : bool) (s : str) :
  Re.match_at re_pipe b s = pipe_match s.
Proof.
  unfold Re.match_at, re_pipe. cbn [Re.run].
  rewrite star_space_skip.
  - unfold pipe_match. destruct (lstrip s) as [|c s']; [reflexivity|].
    destruct (is_pipe c); [|reflexivity]. apply star_space_all.
  - reflexivity.
  - intros b' c s' Hc. destruct (is_pipe c) eqn:Hp; [|reflexivity].
    rewrite (is_space_pipe _ Hp) in Hc. discriminate.
Qed.

(** Whitespace up to the end of the string. *)
Lemma star_space_eol (b : bool) (s : str) :
  Re.star is_space (Re.run Eol (fun _ rest => Some rest)) b s =
  if forallb is_space s then Some [] else None.
Proof.
  revert b. induction s as [|c s IH]; intros b.
  - reflexivity.
  - cbn [Re.star forallb]. destruct (is_space c) eqn:Hc.
    + rewrite IH. simpl. destruct (forallb is_space s) eqn:Hs; [reflexivity|].
      destruct s as [|d s]; [discriminate|reflexivity].
    + simpl. destruct s as [|d s]; [|reflexivity].
      destruct (is_nl c) eqn:Hn; [|reflexivity].
      rewrite (is_space_nl _ Hn) in Hc. discriminate.
Qed.

Lemma match_at_outer (b : bool) (s : str) :
  Re.match_at re_outer_pipes b s =
  match (if b then leading_match s else None) with
  | Some rest => Some rest
  | None => trailing_match s
  end.
Proof.
  assert (Htrail : Re.run (Cat (Cls is_pipe) (Cat (Star is_space) Eol))
                     (fun _ rest => Some rest) b s = trailing_match s).
  { cbn [Re.run]. unfold trailing_match. destruct s as [|c s']; [reflexivity|].
    destruct (is_pipe c); [|reflexivity]. simpl.
    apply star_space_eol. }
  assert (Hlead : Re.run (Cat Bol (Cat (Star is_space) (Cls is_pipe)))
                    (fun _ rest => Some rest) b s
                  = if b then leading_match s else None).
  { cbn [Re.run]. destruct b; [|reflexivity]. rewrite star_space_skip.
    - reflexivity.
    - reflexivity.
    - intros b' c s' Hc.
      destruct (is_pipe c) eqn:Hp; [|reflexivity].
      rewrite (is_space_pipe _ Hp) in Hc. discriminate. }
  unfold Re.match_at, re_outer_pipes.
  change (Re.run (Alt ?r1 ?r2) ?k b s)
    with (match Re.run r1 k b s with
          | Some rest => Some rest
          | None => Re.run r2 k b s
          end).
  rewrite Hlead, Htrail. reflexivity.
Qed.

Lemma match_at_gap (b : bool) (s : str) :
  Re.match_at re_gap b s = gap_match s.
Proof.
  unfold Re.match_at, re_gap, gap_match. cbn [Re.run].
  destruct s as [|c [|d s']]; try reflexivity.
  - destruct (is_space c); reflexivity.
  - destruct (is_space c); [|reflexivity]. simpl.
    destruct (is_space d); [|reflexivity]. apply star_space_all.
Qed.

(** ** Deleting the outer pipes *)

Lemma drop_trailing_pipe_loop (fuel : nat) (s : str) :
  length s <= fuel ->
  Re.sub_loop re_outer_pipes fuel false s = drop_trailing_pipe s.
Proof.
  revert s. induction fuel as [|fuel IH]; intros s Hlen.
  - destruct s; [reflexivity|simpl in Hlen; lia].
  - destruct s as [|c s']; [reflexivity|].
    cbn [Re.sub_loop]. rewrite match_at_outer. cbn [drop_trailing_pipe].
    unfold trailing_match.
    destruct (is_pipe c && forallb is_space s').
    + simpl. destruct fuel; reflexivity.
    + f_equal. apply IH. simpl in Hlen. lia.
Qed.

Lemma leading_match_none_trailing (s : str) :
  leading_match s = None -> trailing_match s = None.
Proof.
  unfold leading_match, trailing_match. destruct s as [|c s']; [reflexivity|].
  destruct (is_pipe c) eqn:Hp; [|reflexivity].
  cbn [lstrip]. rewrite (is_space_pipe _ Hp), Hp. discriminate.
Qed.

Lemma leading_match_length (s rest : str) :
  leading_match s = Some rest -> length rest < length s.
Proof.
  unfold leading_match. intros H.
  pose proof (lstrip_length s) as Hl.
  destruct (lstrip s) as [|c s']; [discriminate|].
  destruct (is_pipe c); [|discriminate].
  injection H as <-. simpl in Hl. lia.
Qed.

(** [re.sub(r'^\s*\||\|\s*$', '', s)] removes the leading pipe, then the
    trailing one. *)
Lemma sub_outer_pipes (s : str) :
  Re.sub_empty re_outer_pipes s = drop_trailing_pipe (drop_leading_pipe s).
Proof.
  unfold Re.sub_empty. destruct s as [|c s']; [reflexivity|].
  cbn [length Re.sub_loop]. rewrite match_at_outer.
  unfold drop_leading_pipe.
  destruct (leading_match (c :: s')) as [rest|] eqn:E.
  - pose proof (leading_match_length _ _ E) as Hl. simpl in Hl.
    assert (Hlt : (length rest <? S (length s')) = true)
      by (apply Nat.ltb_lt; lia).
    rewrite Hlt.
    rewrite drop_trailing_pipe_loop by lia.
    unfold leading_match in E.
    destruct (lstrip (c :: s')) as [|d t]; [discriminate|].
    destruct (is_pipe d); [|discriminate].
    injection E as <-. reflexivity.
  - rewrite (leading_match_none_trailing _ E).
    rewrite drop_trailing_pipe_loop by lia.
    assert (Hs : match lstrip (c :: s') with
                 | [] => c :: s'
                 | d :: t => if is_pipe d then t else c :: s'
                 end = c :: s').
    { unfold leading_match in E. destruct (lstrip (c :: s')) as [|d t];
        [reflexivity|]. destruct (is_pipe d); [discriminate|reflexivity]. }
    rewrite Hs. cbn [drop_trailing_pipe].
    pose proof (leading_match_none_trailing _ E) as Ht.
    unfold trailing_match in Ht.
    destruct (is_pipe c && forallb is_space s'); [discriminate|reflexivity].
Qed.

(** ** Splitting at the pipes *)

Lemma pipe_match_length (s rest : str) :
  pipe_match s = Some rest -> length rest < length s.
Proof.
  unfold pipe_match. intros H.
  pose proof (lstrip_length s) as Hl.
  destruct (lstrip s) as [|c s']; [discriminate|].
  destruct (is_pipe c); [|discriminate].
  injection H as <-. pose proof (lstrip_length s'). simpl in Hl. lia.
Qed.

Lemma pipe_split_to_pipe (cur pend w : str) (c : ascii) (s : str) :
  forallb is_space w = true ->
  is_pipe c = true ->
  pipe_split false cur pend (w ++ c :: s) = cur :: pipe_split true [] [] s.
Proof.
  intros Hw Hc. revert pend. induction w as [|d w IH]; intros pend.
  - simpl. rewrite Hc. reflexivity.
  - simpl in Hw. apply andb_prop in Hw as [Hd Hw].
    cbn [app pipe_split]. rewrite Hd.
    destruct (is_pipe d) eqn:Hp.
    + rewrite (is_space_pipe _ Hp) in Hd. discriminate.
    + apply IH. exact Hw.
Qed.

Lemma pipe_split_skip (s : str) :
  pipe_split true [] [] s = pipe_split false [] [] (lstrip s).
Proof.
  induction s as [|c s IH]; [reflexivity|].
  cbn [lstrip pipe_split]. destruct (is_space c) eqn:Hc.
  - destruct (is_pipe c) eqn:Hp.
    + rewrite (is_space_pipe _ Hp) in Hc. discriminate.
    + exact IH.
  - cbn [pipe_split]. rewrite Hc. reflexivity.
Qed.

Lemma pipe_split_no_match (cur pend s : str) :
  pipe_match s = None ->
  pipe_split false cur pend s = pipe_split false (cur ++ pend) [] s.
Proof.
  revert cur pend. induction s as [|c s IH]; intros cur pend Hm.
  - simpl. rewrite app_nil_r. reflexivity.
  - cbn [pipe_split app]. unfold pipe_match in Hm. cbn [lstrip] in Hm.
    destruct (is_space c) eqn:Hc.
    + destruct (is_pipe c) eqn:Hp.
      { rewrite (is_space_pipe _ Hp) in Hc. discriminate. }
      rewrite (IH cur (pend ++ [c])) by exact Hm.
      rewrite (IH (cur ++ pend) [c]) by exact Hm.
      rewrite <- app_assoc. reflexivity.
    + destruct (is_pipe c); [discriminate|].
      rewrite <- !app_assoc. reflexivity.
Qed.

Lemma pipe_match_some (s rest : str) :
  pipe_match s = Some rest ->
  exists w c s2,
    s = w ++ c :: s2 /\ forallb is_space w = true /\ is_pipe c = true /\
    rest = lstrip s2.
Proof.
  unfold pipe_match. intros H.
  destruct (lstrip_decomp s) as (w & Hs & Hw).
  destruct (lstrip s) as [|c s2]; [discriminate|].
  destruct (is_pipe c) eqn:Hp; [|discriminate].
  injection H as <-. exists w, c, s2. auto.
Qed.

(** [re.split(r'\s*\|\s*', s)] is the one-pass splitting. *)
Lemma split_loop_pipe (fuel : nat) (b : bool) (cur s : str) :
  length s <= fuel ->
  Re.split_loop re_pipe fuel b cur s = pipe_split false cur [] s.
Proof.
  revert b cur s. induction fuel as [|fuel IH]; intros b cur s Hlen.
  - destruct s; [|simpl in Hlen; lia]. simpl. reflexivity.
  - destruct s as [|c s']; [simpl; rewrite app_nil_r; reflexivity|].
    cbn [Re.split_loop]. rewrite match_at_pipe.
    destruct (pipe_match (c :: s')) as [rest|] eqn:E.
    + pose proof (pipe_match_length _ _ E) as Hl.
      assert (Hlt : (length rest <? length (c :: s')) = true)
        by (apply Nat.ltb_lt; exact Hl).
      rewrite Hlt.
      destruct (pipe_match_some _ _ E) as (w & d & s2 & Hs & Hw & Hd & Hr).
      rewrite Hs, (pipe_split_to_pipe cur [] w d s2 Hw Hd).
      rewrite pipe_split_skip, <- Hr. f_equal.
      apply IH. simpl in Hl, Hlen. lia.
    + rewrite IH by (simpl in Hlen; lia).
      cbn [pipe_split]. unfold pipe_match in E. cbn [lstrip] in E.
      destruct (is_space c) eqn:Hc.
      * destruct (is_pipe c) eqn:Hp.
        { rewrite (is_space_pipe _ Hp) in Hc. discriminate. }
        symmetry. apply (pipe_split_no_match cur [c] s'). exact E.
      * destruct (is_pipe c); [discriminate|]. reflexivity.
Qed.

Lemma rstrip_fixed_tail (a b : str) : rstrip (a ++ b) = a ++ b -> rstrip b = b.
Proof.
  induction a as [|c a IH]; [auto|].
  cbn [app]. rewrite rstrip_cons. intros H.
  apply IH. destruct (rstrip (a ++ b)) as [|d r] eqn:E.
  - destruct (is_space c); [discriminate|].
    injection H as H. exact H.
  - injection H as H. exact H.
Qed.

Lemma rstrip_app_nonspace (x : str) (c : ascii) (y : str) :
  is_space c = false -> rstrip (x ++ c :: y) = x ++ c :: rstrip y.
Proof.
  intros Hc. induction x as [|d x IH].
  - simpl. apply rstrip_cons_nonspace. exact Hc.
  - cbn [app]. rewrite rstrip_cons, IH.
    destruct (x ++ c :: rstrip y) eqn:E; [destruct x; discriminate|].
    reflexivity.
Qed.

Lemma split_on_cons_not (p : ascii -> bool) (c : ascii) (s : str) :
  p c = false ->
  exists q rest,
    split_on p s = q :: rest /\ split_on p (c :: s) = (c :: q) :: rest.
Proof.
  intros Hc. simpl. rewrite Hc.
  destruct (split_on p s) as [|q rest] eqn:E.
  - exfalso. apply (split_on_nonempty p s E).
  - exists q, rest. auto.
Qed.

(** The one-pass splitting gives the pieces between the pipes, stripped,
    when the text does not end in whitespace. *)
Lemma pipe_split_pieces (s : str) :
  (forall cur pend,
      forallb is_space pend = true ->
      rstrip (pend ++ s) = pend ++ s ->
      exists p1 rest,
        split_on is_pipe s = p1 :: rest /\
        pipe_split false cur pend s =
        (cur ++ rstrip (pend ++ p1)) :: map strip rest)
  /\
  (rstrip s = s ->
   pipe_split true [] [] s = map strip (split_on is_pipe s)).
Proof.
  induction s as [|c s [IH1 IH2]].
  - split.
    + intros cur pend Hp Hr. exists [], []. split; [reflexivity|].
      simpl. rewrite app_nil_r in Hr. rewrite app_nil_r, Hr. reflexivity.
    + reflexivity.
  - split.
    + intros cur pend Hp Hr. cbn [pipe_split split_on].
      destruct (is_pipe c) eqn:Hc.
      * exists [], (split_on is_pipe s). split; [reflexivity|].
        rewrite app_nil_r, (rstrip_all_space pend Hp), app_nil_r.
        f_equal. apply IH2.
        apply (rstrip_fixed_tail (pend ++ [c])).
        rewrite <- app_assoc. exact Hr.
      * destruct (is_space c) eqn:Hs.
        -- destruct (IH1 cur (pend ++ [c])) as (p1 & rest & Hsp & Hps).
           { rewrite forallb_app, Hp. simpl. rewrite Hs. reflexivity. }
           { rewrite <- app_assoc. exact Hr. }
           rewrite Hsp. exists (c :: p1), rest. split; [reflexivity|].
           rewrite Hps, <- app_assoc. reflexivity.
        -- destruct (IH1 (cur ++ pend ++ [c]) []) as (p1 & rest & Hsp & Hps).
           { reflexivity. }
           { apply (rstrip_fixed_tail (pend ++ [c])).
             rewrite <- app_assoc. exact Hr. }
           rewrite Hsp. exists (c :: p1), rest. split; [reflexivity|].
           rewrite Hps. cbn [app].
           rewrite (rstrip_app_nonspace pend c p1 Hs).
           rewrite <- !app_assoc. reflexivity.
    + intros Hr. cbn [pipe_split split_on].
      assert (Hr' : rstrip s = s) by (apply (rstrip_fixed_tail [c]); exact Hr).
      destruct (is_pipe c) eqn:Hc.
      * cbn [map]. rewrite IH2 by exact Hr'. reflexivity.
      * destruct (split_on is_pipe s) as [|p1 rest] eqn:Hsp.
        { exfalso. apply (split_on_nonempty is_pipe s Hsp). }
        destruct (is_space c) eqn:Hs.
        -- rewrite IH2 by exact Hr'. cbn [map]. f_equal.
           unfold strip. cbn [lstrip]. rewrite Hs. reflexivity.
        -- destruct (IH1 [c] []) as (p1' & rest' & Hsp' & Hps).
           { reflexivity. }
           { exact Hr'. }
           injection Hsp' as <- <-.
           cbn [app] in Hps |- *. rewrite Hps. cbn [map]. f_equal.
           unfold strip. cbn [lstrip]. rewrite Hs.
           rewrite rstrip_cons_nonspace by exact Hs. reflexivity.
Qed.

Lemma split_on_head_lstrip (s p1 : str) (rest : list str) :
  lstrip s = s -> split_on is_pipe s = p1 :: rest -> lstrip p1 = p1.
Proof.
  intros Hl Hs. apply lstrip_fixed in Hl. apply lstrip_fixed.
  destruct s as [|c s]; simpl in Hs.
  - injection Hs as <- _. exact I.
  - destruct (is_pipe c).
    + injection Hs as <- _. exact I.
    + destruct (split_on is_pipe s); injection Hs as <- _; exact Hl.
Qed.

(** On a stripped text, [re.split(r'\s*\|\s*', s)] gives the pieces
    between the pipes, each stripped. *)
Lemma split_pipe_tight (s : str) :
  tight s -> Re.split re_pipe s = pipe_fields s.
Proof.
  intros [Hl Hr]. unfold Re.split. rewrite split_loop_pipe by lia.
  destruct (proj1 (pipe_split_pieces s) [] []) as (p1 & rest & Hsp & Hps).
  - reflexivity.
  - exact Hr.
  - rewrite Hps. unfold pipe_fields. rewrite Hsp. cbn [map app]. f_equal.
    unfold strip. rewrite (split_on_head_lstrip s p1 rest Hl Hsp).
    reflexivity.
Qed.

Lemma split_on_lstrip_space (a s : str) :
  forallb is_space a = true ->
  map lstrip (split_on is_pipe (a ++ s)) = map lstrip (split_on is_pipe s).
Proof.
  induction a as [|c a IH]; [reflexivity|].
  intros H. simpl in H. apply andb_prop in H as [Hc Ha].
  cbn [app].
  assert (Hp : is_pipe c = false).
  { destruct (is_pipe c) eqn:Hp; [|reflexivity].
    rewrite (is_space_pipe _ Hp) in Hc. discriminate. }
  destruct (split_on_cons_not is_pipe c (a ++ s) Hp) as (q & rest & H1 & H2).
  rewrite H2, <- (IH Ha), H1. cbn [map lstrip]. rewrite Hc. reflexivity.
Qed.

Lemma split_on_rstrip_space (s b : str) :
  forallb is_space b = true ->
  map rstrip (split_on is_pipe (s ++ b)) = map rstrip (split_on is_pipe s).
Proof.
  intros Hb. induction s as [|c s IH].
  - cbn [app split_on map]. rewrite rstrip_nil.
    clear -Hb. induction b as [|d b IH]; [reflexivity|].
    simpl in Hb. apply andb_prop in Hb as [Hd Hb].
    assert (Hp : is_pipe d = false).
    { destruct (is_pipe d) eqn:Hp; [|reflexivity].
      rewrite (is_space_pipe _ Hp) in Hd. discriminate. }
    destruct (split_on_cons_not is_pipe d b Hp) as (q & rest & H1 & H2).
    rewrite H2. rewrite H1 in IH. specialize (IH Hb).
    cbn [map] in *. injection IH as Hq Hrest.
    rewrite rstrip_cons, Hq, Hd, Hrest. reflexivity.
  - cbn [app]. destruct (is_pipe c) eqn:Hp.
    + simpl. rewrite Hp. cbn [map]. rewrite IH. reflexivity.
    + destruct (split_on_cons_not is_pipe c (s ++ b) Hp)
        as (q & rest & H1 & H2).
      destruct (split_on_cons_not is_pipe c s Hp) as (q' & rest' & H1' & H2').
      rewrite H2, H2'. rewrite H1, H1' in IH. cbn [map] in *.
      injection IH as Hq Hrest.
      rewrite !rstrip_cons, Hq, Hrest. reflexivity.
Qed.

Lemma strip_as_lstrip_rstrip (s : str) : strip s = lstrip (rstrip s).
Proof. unfold strip. symmetry. apply lstrip_rstrip_comm. Qed.

(** Stripping the text first does not change the stripped pieces. *)
Lemma pipe_fields_strip (s : str) : pipe_fields (strip s) = pipe_fields s.
Proof.
  destruct (strip_decomp s) as (a & b & Hs & Ha & Hb).
  rewrite Hs at 2. unfold pipe_fields.
  transitivity (map rstrip (map lstrip (split_on is_pipe (strip s ++ b)))).
  - rewrite map_map.
    transitivity (map lstrip (map rstrip (split_on is_pipe (strip s ++ b)))).
    + rewrite (split_on_rstrip_space (strip s) b Hb), map_map.
      apply map_ext. intros x. apply strip_as_lstrip_rstrip.
    + rewrite map_map. apply map_ext. intros x. apply lstrip_rstrip_comm.
  - rewrite <- (split_on_lstrip_space a (strip s ++ b) Ha), map_map.
    reflexivity.
Qed.

(** The pipe branch of the row splitter. *)
Lemma split_table_row_pipe (line : str) :
  has_pipe line = true ->
  split_table_row line =
  pipe_fields (drop_trailing_pipe (drop_leading_pipe line)).
Proof.
  intros H. unfold split_table_row. rewrite H.
  rewrite sub_outer_pipes, split_pipe_tight by apply strip_tight.
  apply pipe_fields_strip.
Qed.

(** ** Splitting at the gaps *)

Lemma gap_match_some (s rest : str) :
  gap_match s = Some rest ->
  exists g, s = g ++ rest /\ is_gap g /\ length rest < length s.
Proof.
  unfold gap_match. destruct s as [|c [|d s']]; try discriminate.
  destruct (is_space c) eqn:Hc; [|discriminate].
  destruct (is_space d) eqn:Hd; [|discriminate].
  simpl. intros H. injection H as <-.
  destruct (lstrip_decomp s') as (w & Hs & Hw).
  exists (c :: d :: w). split; [simpl; congruence|]. split.
  - split; [simpl; lia|]. simpl. rewrite Hc, Hd. exact Hw.
  - pose proof (lstrip_length s'). simpl. lia.
Qed.

Lemma last_space_snoc (s : str) (c : ascii) :
  last_space (s ++ [c]) = is_space c.
Proof. unfold last_space. rewrite rev_app_distr. reflexivity. Qed.

Lemma last_space_cons (d : ascii) (s : str) :
  s <> [] -> last_space (d :: s) = last_space s.
Proof.
  intros Hne. unfold last_space. simpl.
  destruct (rev s) as [|e r] eqn:E; [|reflexivity].
  apply (f_equal (@rev _)) in E. rewrite rev_involutive in E.
  simpl in E. congruence.
Qed.

Lemma no_gap_snoc (cur : str) (c : ascii) :
  no_gap (cur ++ [c]) = no_gap cur && negb (last_space cur && is_space c).
Proof.
  induction cur as [|d cur IH]; [reflexivity|].
  destruct cur as [|e cur].
  - simpl. unfold last_space. simpl. rewrite andb_true_r. reflexivity.
  - change (no_gap ((d :: e :: cur) ++ [c]))
      with (negb (is_space d && is_space e) && no_gap ((e :: cur) ++ [c])).
    change (no_gap (d :: e :: cur))
      with (negb (is_space d && is_space e) && no_gap (e :: cur)).
    rewrite IH. rewrite (last_space_cons d) by discriminate.
    rewrite andb_assoc. reflexivity.
Qed.

Lemma split_loop_gap (fuel : nat) (b : bool) (cur s : str) :
  length s <= fuel ->
  no_gap cur = true ->
  (last_space cur = true ->
   match s with c :: _ => is_space c = false | [] => True end) ->
  let fields := Re.split_loop re_gap fuel b cur s in
  exists gaps,
    weave fields gaps = cur ++ s /\
    length fields = S (length gaps) /\
    Forall is_gap gaps /\
    Forall (fun f => no_gap f = true) fields.
Proof.
  revert b cur s. induction fuel as [|fuel IH]; intros b cur s Hlen Hcur Hlast.
  - destruct s; [|simpl in Hlen; lia]. exists []. simpl.
    rewrite app_nil_r. repeat split; auto.
  - destruct s as [|c s'].
    { exists []. simpl. rewrite app_nil_r. repeat split; auto. }
    cbn [Re.split_loop]. rewrite match_at_gap.
    destruct (gap_match (c :: s')) as [rest|] eqn:E.
    + destruct (gap_match_some _ _ E) as (g & Hs & Hg & Hl).
      assert (Hlt : (length rest <? length (c :: s')) = true)
        by (apply Nat.ltb_lt; exact Hl).
      rewrite Hlt.
      destruct (IH false [] rest) as (gaps & Hw & Hn & Hgs & Hfs).
      { simpl in Hl, Hlen. lia. }
      { reflexivity. }
      { discriminate. }
      exists (g :: gaps). cbn [weave]. rewrite Hw, Hs. simpl.
      repeat split; auto.
    + assert (Hcur' : no_gap (cur ++ [c]) = true).
      { rewrite no_gap_snoc, Hcur. simpl.
        destruct (last_space cur); [|reflexivity].
        rewrite (Hlast eq_refl). reflexivity. }
      destruct (IH false (cur ++ [c]) s') as (gaps & Hw & Hn & Hgs & Hfs).
      { simpl in Hlen. lia. }
      { exact Hcur'. }
      { rewrite last_space_snoc. intros Hc.
        unfold gap_match in E. destruct s' as [|d s'']; [exact I|].
        rewrite Hc in E. simpl in E.
        destruct (is_space d); [discriminate|reflexivity]. }
      exists gaps. rewrite Hw, <- app_assoc. auto.
Qed.

Lemma split_loop_no_gap (fuel : nat) (b : bool) (cur s : str) :
  length s <= fuel ->
  no_gap s = true ->
  Re.split_loop re_gap fuel b cur s = [cur ++ s].
Proof.
  revert b cur s. induction fuel as [|fuel IH]; intros b cur s Hlen Hs.
  - reflexivity.
  - destruct s as [|c s']; [simpl; rewrite app_nil_r; reflexivity|].
    cbn [Re.split_loop]. rewrite match_at_gap.
    assert (Hm : gap_match (c :: s') = None /\ no_gap s' = true).
    { unfold gap_match. destruct s' as [|d s'']; [auto|].
      change (no_gap (c :: d :: s''))
        with (negb (is_space c && is_space d) && no_gap (d :: s'')) in Hs.
      apply andb_prop in Hs as [H1 H2]. split; [|exact H2].
      destruct (is_space c && is_space d); [discriminate|reflexivity]. }
    destruct Hm as [Hm Hs']. rewrite Hm.
    rewrite IH by (simpl in Hlen; lia || exact Hs').
    rewrite <- app_assoc. reflexivity.
Qed.

Lemma last_space_app (a b : str) :
  b <> [] -> last_space (a ++ b) = last_space b.
Proof.
  intros Hb. unfold last_space. rewrite rev_app_distr.
  destruct (rev b) as [|c r] eqn:E; [|reflexivity].
  apply (f_equal (@rev _)) in E. rewrite rev_involutive in E.
  simpl in E. congruence.
Qed.

Lemma last_space_all_space (g : str) :
  g <> [] -> forallb is_space g = true -> last_space g = true.
Proof.
  intros Hne Hg. unfold last_space.
  destruct (rev g) as [|c r] eqn:E.
  - apply (f_equal (@rev _)) in E. rewrite rev_involutive in E.
    simpl in E. congruence.
  - rewrite forallb_forall in Hg. apply Hg. apply in_rev.
    rewrite E. left. reflexivity.
Qed.

Lemma rstrip_last_space (s : str) : last_space (rstrip s) = false.
Proof.
  unfold last_space.
  destruct (rev (rstrip s)) as [|c r] eqn:E; [reflexivity|].
  apply (rstrip_last s (rev r) c).
  rewrite <- (rev_involutive (rstrip s)), E. reflexivity.
Qed.

Lemma gap_match_head (c : ascii) (s rest : str) :
  gap_match (c :: s) = Some rest ->
  is_space c = true /\ lstrip rest = rest.
Proof.
  unfold gap_match. destruct s as [|d s']; [discriminate|].
  destruct (is_space c); [|discriminate].
  destruct (is_space d); [|discriminate].
  simpl. intros H. injection H as <-. split; [reflexivity|apply lstrip_idem].
Qed.

(** The fields that the splitting at the gaps returns do not end in
    whitespace, and after the first they start with a character that is
    no whitespace, when the text does not end in whitespace. *)
Lemma split_loop_gap_edges (fuel : nat) (b : bool) (cur s : str) :
  length s <= fuel ->
  last_space (cur ++ s) = false ->
  (last_space cur = true ->
   match s with c :: _ => is_space c = false | [] => True end) ->
  let fields := Re.split_loop re_gap fuel b cur s in
  Forall (fun f => last_space f = false) fields /\
  Forall starts_nonspace (tl fields) /\
  exists t,
    hd [] fields = cur ++ t /\
    forall c s', s = c :: s' -> is_space c = false -> exists t', t = c :: t'.
Proof.
  revert b cur s. induction fuel as [|fuel IH]; intros b cur s Hlen Hend Hlast.
  - destruct s; [|simpl in Hlen; lia]. simpl.
    split; [constructor; [exact Hend|constructor]|].
    split; [constructor|]. exists []. split; [reflexivity|discriminate].
  - destruct s as [|c s'].
    { simpl. rewrite app_nil_r in Hend.
      split; [constructor; [exact Hend|constructor]|].
      split; [constructor|]. exists [].
      split; [rewrite app_nil_r; reflexivity|discriminate]. }
    cbn [Re.split_loop]. rewrite match_at_gap.
    destruct (gap_match (c :: s')) as [rest|] eqn:E.
    + destruct (gap_match_some _ _ E) as (g & Hs & [Hg2 Hg] & Hl).
      destruct (gap_match_head _ _ _ E) as [Hc Hrest].
      assert (Hlt : (length rest <? length (c :: s')) = true)
        by (apply Nat.ltb_lt; exact Hl).
      rewrite Hlt.
      assert (Hgne : g <> []) by (destruct g; [simpl in Hg2; lia|discriminate]).
      assert (Hrne : rest <> []).
      { intros ->. rewrite app_nil_r in Hs. rewrite Hs in Hend.
        rewrite (last_space_app cur g Hgne) in Hend.
        rewrite (last_space_all_space g Hgne Hg) in Hend. discriminate. }
      destruct rest as [|c' r']; [congruence|].
      assert (Hc' : is_space c' = false)
        by (apply lstrip_fixed in Hrest; exact Hrest).
      destruct (IH false [] (c' :: r')) as (H1 & H2 & t & Ht & Ht').
      { cbn [length] in Hl, Hlen |- *. lia. }
      { rewrite Hs, app_assoc in Hend.
        rewrite last_space_app in Hend by discriminate. exact Hend. }
      { discriminate. }
      destruct (Ht' c' r' eq_refl Hc') as (t' & ->).
      destruct (Re.split_loop re_gap fuel false [] (c' :: r'))
        as [|f' fields'] eqn:Ef; [discriminate|].
      cbn [hd app] in Ht. subst f'.
      split; [|split].
      * constructor; [|exact H1].
        destruct (last_space cur) eqn:Hcur; [|reflexivity].
        specialize (Hlast eq_refl). simpl in Hlast. congruence.
      * cbn [tl]. constructor; [exact Hc'|exact H2].
      * exists []. split; [rewrite app_nil_r; reflexivity|].
        intros c0 s0 Hc0 Hn. injection Hc0 as <- _. congruence.
    + destruct (IH false (cur ++ [c]) s') as (H1 & H2 & t & Ht & _).
      { simpl in Hlen. lia. }
      { rewrite <- app_assoc. exact Hend. }
      { rewrite last_space_snoc. intros Hc.
        unfold gap_match in E. destruct s' as [|d s'']; [exact I|].
        rewrite Hc in E. simpl in E.
        destruct (is_space d); [discriminate|reflexivity]. }
      split; [exact H1|]. split; [exact H2|].
      exists (c :: t). split.
      * rewrite Ht, <- app_assoc. reflexivity.
      * intros c0 s0 Hc0 _. injection Hc0 as <- _. exists t. reflexivity.
Qed.

Lemma split_loop_nil (r : Re.regex) (fuel : nat) (b : bool) (cur : str) :
  Re.split_loop r fuel b cur [] = [cur].
Proof. destruct fuel; simpl; [rewrite app_nil_r|]; reflexivity. Qed.

Lemma split_loop_gap_bos (fuel : nat) (b b' : bool) (cur s : str) :
  Re.split_loop re_gap fuel b cur s = Re.split_loop re_gap fuel b' cur s.
Proof.
  destruct fuel as [|fuel]; [reflexivity|].
  destruct s as [|c s']; [reflexivity|].
  cbn [Re.split_loop]. rewrite !match_at_gap. reflexivity.
Qed.

(** Reading a field: no gap starts inside it. *)
Lemma split_loop_gap_field (f rest : str) (fuel : nat) (b : bool)
  (cur : str) :
  no_gap f = true -> last_space f = false ->
  length (f ++ rest) <= fuel ->
  Re.split_loop re_gap fuel b cur (f ++ rest) =
  Re.split_loop re_gap (fuel - length f) b (cur ++ f) rest.
Proof.
  revert fuel b cur. induction f as [|c f IH]; intros fuel b cur Hng Hls Hlen.
  - simpl. rewrite Nat.sub_0_r, app_nil_r. reflexivity.
  - destruct fuel as [|fuel]; [simpl in Hlen; lia|].
    cbn [app Re.split_loop length Nat.sub]. rewrite match_at_gap.
    assert (Hm : gap_match (c :: f ++ rest) = None).
    { unfold gap_match. destruct f as [|d f'].
      - unfold last_space in Hls. simpl in Hls. rewrite Hls.
        destruct rest; reflexivity.
      - change (no_gap (c :: d :: f'))
          with (negb (is_space c && is_space d) && no_gap (d :: f')) in Hng.
        apply andb_prop in Hng as [H1 _]. cbn [app].
        destruct (is_space c && is_space d); [discriminate|reflexivity]. }
    rewrite Hm. rewrite (split_loop_gap_bos fuel false b).
    rewrite IH.
    + rewrite <- app_assoc. reflexivity.
    + destruct f as [|d f']; [reflexivity|].
      change (no_gap (c :: d :: f'))
        with (negb (is_space c && is_space d) && no_gap (d :: f')) in Hng.
      apply andb_prop in Hng as [_ H2]. exact H2.
    + destruct f as [|d f']; [reflexivity|].
      rewrite last_space_cons in Hls by discriminate. exact Hls.
    + simpl in Hlen. lia.
Qed.

(** Reading a gap: it is cut out whole when a character that is no
    whitespace follows it. *)
Lemma split_loop_gap_gap (g rest : str) (fuel : nat) (b : bool)
  (cur : str) :
  is_gap g -> starts_nonspace rest ->
  length (g ++ rest) <= fuel ->
  exists fuel',
    length rest <= fuel' /\
    Re.split_loop re_gap fuel b cur (g ++ rest) =
    cur :: Re.split_loop re_gap fuel' false [] rest.
Proof.
  intros [Hg2 Hg] Hrest Hlen.
  destruct g as [|c1 [|c2 g']]; try (simpl in Hg2; lia).
  destruct fuel as [|fuel]; [simpl in Hlen; lia|].
  exists fuel. split; [simpl in Hlen; rewrite length_app in Hlen; lia|].
  cbn [app Re.split_loop]. rewrite match_at_gap.
  simpl in Hg. apply andb_prop in Hg as [H1 Hg].
  apply andb_prop in Hg as [H2 Hg].
  unfold gap_match. rewrite H1, H2. cbn [andb].
  rewrite lstrip_app_space by exact Hg.
  assert (Hl : lstrip rest = rest).
  { apply lstrip_fixed. destruct rest; [exact I|exact Hrest]. }
  rewrite Hl.
  assert (Hlt : (length rest <? length (c1 :: c2 :: g' ++ rest)) = true).
  { apply Nat.ltb_lt. simpl. rewrite length_app. lia. }
  rewrite Hlt. reflexivity.
Qed.

Lemma weave_starts_nonspace (fields gaps : list str) :
  match fields with f :: _ => starts_nonspace f | [] => False end ->
  starts_nonspace (weave fields gaps).
Proof.
  destruct fields as [|f fields]; [tauto|]. intros Hf.
  destruct f as [|c f]; [contradiction|].
  destruct gaps; exact Hf.
Qed.

(** The splitting at the gaps is the only splitting of this kind. *)
Lemma gap_splitting_unique (fields gaps : list str) (s : str)
  (fuel : nat) (b : bool) (cur : str) :
  gap_splitting fields gaps s ->
  length s <= fuel ->
  Re.split_loop re_gap fuel b cur s = (cur ++ hd [] fields) :: tl fields.
Proof.
  revert gaps s fuel b cur.
  induction fields as [|f fields IH];
    intros gaps s fuel b cur (Hw & Hl & Hg & Hf & Hs) Hlen.
  - discriminate.
  - inversion Hf as [|? ? [Hng Hls] Hf']; subst.
    destruct gaps as [|g gaps].
    + destruct fields; [|discriminate]. cbn [weave hd tl] in *.
      rewrite <- (app_nil_r f) at 1.
      rewrite split_loop_gap_field
        by (try assumption; rewrite app_nil_r; exact Hlen).
      apply split_loop_nil.
    + destruct fields as [|f1 fields]; [discriminate|].
      cbn [hd tl] in *.
      change (weave (f :: f1 :: fields) (g :: gaps))
        with (f ++ g ++ weave (f1 :: fields) gaps) in *.
      inversion Hg as [|? ? Hg1 Hg']; subst.
      inversion Hs as [|? ? Hs1 Hs']; subst.
      rewrite split_loop_gap_field by assumption.
      assert (Hnext : starts_nonspace (weave (f1 :: fields) gaps))
        by (apply weave_starts_nonspace; exact Hs1).
      destruct (split_loop_gap_gap g (weave (f1 :: fields) gaps)
                  (fuel - length f) b (cur ++ f) Hg1 Hnext)
        as (fuel' & Hfuel' & Heq).
      { rewrite length_app in Hlen. lia. }
      rewrite Heq. f_equal.
      rewrite (IH gaps (weave (f1 :: fields) gaps) fuel' false []).
      * reflexivity.
      * split; [reflexivity|]. split; [simpl in Hl |- *; lia|].
        split; [exact Hg'|]. split; [exact Hf'|].
        destruct fields; [constructor|]. inversion Hs'; assumption || exact Hs'.
      * exact Hfuel'.
Qed.

(** C8: [split_table_row] always returns at least one field.  On a line
    with a [|] it removes one leading [|] with the whitespace before it
    and one trailing [|] with the whitespace after it, and returns the
    pieces between the remaining [|] characters, each without the
    whitespace around it.  On a line without [|] it cuts the
    right-stripped line at its runs of two or more whitespace
    characters, and nowhere else: its fields, with such runs as gaps
    between them, make up the line, no field holds such a run or ends in
    whitespace, every field after a gap starts with a character that is
    no whitespace, and it is the only splitting of this kind; so a
    line without such a run is one field, its single spaces kept. *)
Theorem split_table_row_fields (line : str) :
  split_table_row line <> []
  /\ (has_pipe line = true ->
      split_table_row line =
      pipe_fields (drop_trailing_pipe (drop_leading_pipe line)))
  /\ (has_pipe line = false ->
      (exists gaps,
          gap_splitting (split_table_row line) gaps (rstrip line))
      /\ (forall fields gaps,
             gap_splitting fields gaps (rstrip line) ->
             split_table_row line = fields)
      /\ (no_gap (rstrip line) = true ->
          split_table_row line = [rstrip line])).
Proof.
  assert (Hgap : has_pipe line = false ->
                 split_table_row line = Re.split re_gap (rstrip line)).
  { intros H. unfold split_table_row. rewrite H. reflexivity. }
  assert (Hspec :
    exists gaps,
      gap_splitting (Re.split re_gap (rstrip line)) gaps (rstrip line)).
  { unfold Re.split.
    destruct (split_loop_gap (length (rstrip line)) true [] (rstrip line))
      as (gaps & Hw & Hn & Hg & Hf); [lia|reflexivity|discriminate|].
    destruct (split_loop_gap_edges (length (rstrip line)) true []
                (rstrip line)) as (He & Hs & _);
      [lia|apply rstrip_last_space|discriminate|].
    exists gaps. split; [exact Hw|]. split; [exact Hn|].
    split; [exact Hg|]. split; [|exact Hs].
    apply Forall_forall. intros f Hin. rewrite Forall_forall in Hf, He.
    split; [apply Hf|apply He]; exact Hin. }
  assert (Huniq : forall fields gaps,
             gap_splitting fields gaps (rstrip line) ->
             Re.split re_gap (rstrip line) = fields).
  { intros fields gaps H. unfold Re.split.
    rewrite (gap_splitting_unique fields gaps (rstrip line) _ true [] H)
      by lia.
    destruct H as (_ & Hl & _). destruct fields; [discriminate|reflexivity]. }
  split; [|split].
  - destruct (has_pipe line) eqn:H.
    + rewrite split_table_row_pipe by exact H. unfold pipe_fields.
      intros E. apply map_eq_nil in E.
      apply (split_on_nonempty _ _ E).
    + rewrite Hgap by reflexivity.
      destruct Hspec as (gaps & _ & Hn & _). intros E. rewrite E in Hn.
      discriminate.
  - apply split_table_row_pipe.
  - intros H. rewrite (Hgap H).
    split; [exact Hspec|]. split; [exact Huniq|].
    intros Hng. unfold Re.split. apply split_loop_no_gap; [lia|exact Hng].
Qed.

Lemma split_table_row_fields_witness :
  split_table_row (L "| a  | b |") = [L "a"; L "b"] /\
  split_table_row (L "a   b c  ") = [L "a"; L "b c"] /\
  split_table_row (L "one two ") = [L "one two"].
Proof.
  split; [|split].
  - rewrite (proj1 (proj2 (split_table_row_fields (L "| a  | b |"))))
      by reflexivity.
    vm_compute. reflexivity.
  - apply (proj1 (proj2 (proj2 (proj2 (split_table_row_fields
                                         (L "a   b c  "))) eq_refl))
             [L "a"; L "b c"] [L "   "]).
    split; [reflexivity|]. split; [reflexivity|].
    split; [repeat constructor|].
    split; [repeat constructor|repeat constructor].
  - apply (proj2 (proj2 (proj2 (split_table_row_fields (L "one two ")))
                    eq_refl)).
    reflexivity.
Defined.

(** ** Blocks on which the pipeline raises *)

Lemma partition_fold_separators (lines : list str) (done : list (list str)) :
  forallb line_is_separator lines = true ->
  fold_left partition_step lines (done, []) =
  (done ++ repeat [] (length lines), []).
Proof.
  revert done. induction lines as [|line lines IH]; intros done H.
  - simpl. rewrite app_nil_r. reflexivity.
  - simpl in H. apply andb_prop in H as [Hl Hs].
    cbn [fold_left partition_step]. rewrite Hl, IH by exact Hs.
    rewrite <- app_assoc. reflexivity.
Qed.

Lemma filter_nonempty_repeat (k : nat) :
  filter (@nonempty str) (repeat [] k) = [].
Proof. induction k as [|k IH]; [reflexivity|exact IH]. Qed.

Lemma partition_only_separators (lines : list str) :
  forallb line_is_separator lines = true ->
  partition_raw_lines lines = [].
Proof.
  intros H. unfold partition_raw_lines.
  destruct (has_line_seps lines) eqn:E.
  - simpl. rewrite partition_fold_separators by exact H.
    simpl. rewrite filter_app, filter_nonempty_repeat. reflexivity.
  - simpl. destruct lines as [|line lines]; [reflexivity|].
    simpl in H, E. apply andb_prop in H as [Hl _]. rewrite Hl in E.
    discriminate.
Qed.

(** C3 fails on the code: [max] of an empty sequence raises ValueError
    where the claim promises a table.  A block of separator lines only
    leaves no partition, and [unify_table] raises on the empty table; a
    block whose fields are all blank leaves rows without cells, and
    [split_row_into_lines] raises on the first of them. *)
Theorem reformat_degenerate_block_raises :
  (forall lines : list str,
      forallb line_is_separator lines = true ->
      reformat lines = Raise ValueError)
  /\ reformat [L "+---+---+"] = Raise ValueError
  /\ parse_table [L "|"] = Ok [[]]
  /\ draw_table [[]] = Raise ValueError
  /\ reformat [L "|"] = Raise ValueError.
Proof.
  split; [|repeat split; vm_compute; reflexivity].
  intros lines H. unfold reformat, parse_table.
  rewrite partition_only_separators by exact H. reflexivity.
Qed.

Lemma reformat_degenerate_block_raises_witness :
  reformat [L "-----"; L "====="] = Raise ValueError.
Proof.
  apply (proj1 reformat_degenerate_block_raises). reflexivity.
Defined.

(** C4 fails on the code: on the empty block [parse_table] raises
    ValueError, from [max] of an empty sequence in [unify_table], before
    [draw_table], which would return no line for the empty table, is
    reached.  The empty block is what the bounds scan selects when the
    cursor is on a blank line. *)
Theorem reformat_empty_block_raises :
  parse_table [] = Raise ValueError
  /\ reformat [] = Raise ValueError
  /\ draw_table [] = Ok []
  /\ selected_block [L "above"; L ""; L "below"] 2 = [].
Proof. repeat split; vm_compute; reflexivity. Qed.

(** ** More on lists and joins *)

Lemma map_nth_seq {A : Type} (l : list A) (d : A) :
  map (fun i => nth i l d) (seq 0 (length l)) = l.
Proof.
  apply nth_ext with (d := d) (d' := d).
  - rewrite length_map, length_seq. reflexivity.
  - intros i Hi. rewrite length_map, length_seq in Hi.
    rewrite (nth_map_lt _ _ _ _ 0) by (rewrite length_seq; exact Hi).
    rewrite seq_nth by exact Hi. reflexivity.
Qed.

Lemma filter_all {A : Type} (f : A -> bool) (l : list A) :
  (forall x, In x l -> f x = true) -> filter f l = l.
Proof.
  induction l as [|x l IH]; intros H; [reflexivity|].
  simpl. rewrite (H x (or_introl eq_refl)). f_equal.
  apply IH. intros y Hy. apply H. right. exact Hy.
Qed.

Lemma join_snoc_nil (sep : str) (parts : list str) :
  parts <> [] -> join sep (parts ++ [[]]) = join sep parts ++ sep.
Proof.
  induction parts as [|p parts IH]; [congruence|]. intros _.
  destruct parts as [|q parts].
  - simpl. rewrite app_nil_r. reflexivity.
  - change (join sep ((p :: q :: parts) ++ [[]]))
      with (p ++ sep ++ join sep ((q :: parts) ++ [[]])).
    rewrite IH by discriminate.
    change (join sep (p :: q :: parts)) with (p ++ sep ++ join sep (q :: parts)).
    rewrite <- !app_assoc. reflexivity.
Qed.

Lemma forallb_join (P : ascii -> bool) (sep : str) (parts : list str) :
  forallb P sep = true ->
  Forall (fun p => forallb P p = true) parts ->
  forallb P (join sep parts) = true.
Proof.
  intros Hsep Hparts. induction Hparts as [|p parts Hp _ IH]; [reflexivity|].
  destruct parts as [|q parts]; [exact Hp|].
  change (join sep (p :: q :: parts)) with (p ++ sep ++ join sep (q :: parts)).
  rewrite !forallb_app, Hp, Hsep, IH. reflexivity.
Qed.

Lemma Forall_join (P : ascii -> Prop) (sep : str) (parts : list str) :
  Forall P sep ->
  Forall (Forall P) parts ->
  Forall P (join sep parts).
Proof.
  intros Hsep Hparts. induction Hparts as [|p parts Hp _ IH]; [constructor|].
  destruct parts as [|q parts]; [exact Hp|].
  change (join sep (p :: q :: parts)) with (p ++ sep ++ join sep (q :: parts)).
  apply Forall_app. split; [exact Hp|].
  apply Forall_app. split; [exact Hsep|exact IH].
Qed.

Lemma split_on_free (p : ascii -> bool) (s : str) :
  Forall (fun c => p c = false) s -> split_on p s = [s].
Proof.
  induction s as [|c s IH]; intros H; [reflexivity|].
  inversion H as [|? ? Hc Hs]; subst. simpl. rewrite Hc, (IH Hs).
  reflexivity.
Qed.

Lemma split_on_app_sep (p : ascii -> bool) (a : str) (c : ascii) (s : str) :
  Forall (fun c => p c = false) a ->
  p c = true ->
  split_on p (a ++ c :: s) = a :: split_on p s.
Proof.
  intros Ha Hc. induction a as [|d a IH].
  - simpl. rewrite Hc. reflexivity.
  - inversion Ha as [|? ? Hd Ha']; subst. cbn [app split_on].
    rewrite Hd, (IH Ha'). reflexivity.
Qed.

(** Splitting a join at its separator gives the parts back. *)
Lemma split_on_join (p : ascii -> bool) (c : ascii) (parts : list str) :
  p c = true ->
  parts <> [] ->
  Forall (Forall (fun c => p c = false)) parts ->
  split_on p (join [c] parts) = parts.
Proof.
  intros Hc Hne Hparts. induction Hparts as [|q parts Hq _ IH]; [congruence|].
  destruct parts as [|q' parts].
  - simpl. apply split_on_free. exact Hq.
  - change (join [c] (q :: q' :: parts))
      with (q ++ c :: join [c] (q' :: parts)).
    rewrite split_on_app_sep by assumption.
    rewrite IH by discriminate. reflexivity.
Qed.

Lemma split_on_pieces_free (p : ascii -> bool) (s : str) :
  Forall (Forall (fun c => p c = false)) (split_on p s).
Proof.
  induction s as [|c s IH]; [repeat constructor|].
  simpl. destruct (p c) eqn:Hc.
  - constructor; [constructor|exact IH].
  - destruct (split_on p s) as [|q rest]; [repeat constructor; exact Hc|].
    inversion IH as [|? ? Hq Hrest]; subst.
    constructor; [constructor; assumption|exact Hrest].
Qed.

Lemma split_on_pieces_Forall (P : ascii -> Prop) (p : ascii -> bool)
  (s : str) :
  Forall P s -> Forall (Forall P) (split_on p s).
Proof.
  induction s as [|c s IH]; intros H; [repeat constructor|].
  inversion H as [|? ? Hc Hs]; subst. specialize (IH Hs).
  simpl. destruct (p c).
  - constructor; [constructor|exact IH].
  - destruct (split_on p s) as [|q rest]; [repeat constructor; exact Hc|].
    inversion IH as [|? ? Hq Hrest]; subst.
    constructor; [constructor; assumption|exact Hrest].
Qed.

(** ** The fields of a line *)

Lemma drop_leading_pipe_Forall (P : ascii -> Prop) (s : str) :
  Forall P s -> Forall P (drop_leading_pipe s).
Proof.
  intros H. unfold drop_leading_pipe.
  destruct (lstrip_decomp s) as (a & Hs & _).
  destruct (lstrip s) as [|c s'] eqn:E; [exact H|].
  destruct (is_pipe c); [|exact H].
  rewrite Hs in H. apply Forall_app in H as [_ H].
  inversion H; assumption.
Qed.

Lemma drop_trailing_pipe_Forall (P : ascii -> Prop) (s : str) :
  Forall P s -> Forall P (drop_trailing_pipe s).
Proof.
  induction s as [|c s IH]; intros H; [constructor|].
  inversion H as [|? ? Hc Hs]; subst. simpl.
  destruct (is_pipe c && forallb is_space s); [constructor|].
  constructor; auto.
Qed.

Lemma pipe_fields_Forall (P : ascii -> Prop) (s : str) :
  Forall P s -> Forall (Forall P) (pipe_fields s).
Proof.
  intros H. unfold pipe_fields. apply Forall_map.
  eapply Forall_impl; [|apply (split_on_pieces_Forall P is_pipe s H)].
  intros x. apply strip_Forall.
Qed.

Lemma pipe_fields_pipe_free (s : str) : Forall pipe_free (pipe_fields s).
Proof.
  unfold pipe_fields. apply Forall_map.
  eapply Forall_impl; [|apply (split_on_pieces_free is_pipe s)].
  intros x. apply strip_Forall.
Qed.

Lemma weave_Forall (P : ascii -> Prop) (fields gaps : list str) (x : str) :
  weave fields gaps = x ->
  length fields = S (length gaps) ->
  Forall P x ->
  Forall (Forall P) fields.
Proof.
  revert gaps x. induction fields as [|f fields IH]; intros gaps x Hw Hl Hx.
  - constructor.
  - destruct gaps as [|g gaps].
    + simpl in Hl. destruct fields; [|discriminate].
      simpl in Hw. subst x. repeat constructor. exact Hx.
    + cbn [weave] in Hw. subst x.
      apply Forall_app in Hx as [Hf Hx]. apply Forall_app in Hx as [_ Hx].
      constructor; [exact Hf|].
      apply (IH gaps _ eq_refl); [simpl in Hl; lia|exact Hx].
Qed.

Lemma rstrip_Forall (P : ascii -> Prop) (s : str) :
  Forall P s -> Forall P (rstrip s).
Proof.
  intros H. destruct (rstrip_decomp s) as (b & Hs & _).
  rewrite Hs in H. apply Forall_app in H as [H _]. exact H.
Qed.

(** The fields of a line are made of characters of the line. *)
Lemma split_table_row_Forall (P : ascii -> Prop) (line : str) :
  Forall P line -> Forall (Forall P) (split_table_row line).
Proof.
  intros H. destruct (has_pipe line) eqn:E.
  - rewrite split_table_row_pipe by exact E.
    apply pipe_fields_Forall, drop_trailing_pipe_Forall,
      drop_leading_pipe_Forall, H.
  - unfold split_table_row. rewrite E. unfold Re.split.
    destruct (split_loop_gap (length (rstrip line)) true [] (rstrip line))
      as (gaps & Hw & Hl & _); [lia|reflexivity|discriminate|].
    apply (weave_Forall P _ gaps _ Hw Hl). simpl.
    apply rstrip_Forall, H.
Qed.

Lemma has_pipe_false (s : str) : has_pipe s = false -> pipe_free s.
Proof.
  unfold has_pipe, pipe_free. induction s as [|c s IH]; [constructor|].
  simpl. intros H. apply orb_false_elim in H as [Hc Hs].
  constructor; auto.
Qed.

Lemma split_table_row_pipe_free (line : str) :
  Forall pipe_free (split_table_row line).
Proof.
  destruct (has_pipe line) eqn:E.
  - rewrite split_table_row_pipe by exact E. apply pipe_fields_pipe_free.
  - apply split_table_row_Forall. apply has_pipe_false. exact E.
Qed.

(** ** What the parser returns *)

Lemma truthy_nonempty (s : str) : truthy s = true -> s <> [].
Proof. destruct s; [discriminate|discriminate]. Qed.

Lemma field_at_atoms (i : nat) (row : list str) :
  Forall pipe_free row -> Forall single_line row ->
  Forall atom (field_at i row).
Proof.
  intros Hp Hs. unfold field_at.
  destruct (nth_error row i) as [f|] eqn:E; [|constructor].
  destruct (truthy (strip f)) eqn:Ht; [|constructor].
  apply nth_error_In in E. rewrite Forall_forall in Hp, Hs.
  constructor; [|constructor].
  repeat split.
  - apply truthy_nonempty. exact Ht.
  - apply strip_lstrip_fixed.
  - apply strip_rstrip_fixed.
  - apply strip_Forall. apply Hp. exact E.
  - apply strip_Forall. apply Hs. exact E.
Qed.

Lemma column_cell_ok (i : nat) (rows : list (list str)) :
  Forall (Forall pipe_free) rows -> Forall (Forall single_line) rows ->
  cell_ok (column_cell i rows).
Proof.
  intros Hp Hs. exists (flat_map (field_at i) rows).
  split; [|reflexivity].
  apply Forall_forall. intros a Ha.
  apply in_flat_map in Ha as (row & Hrow & Ha).
  rewrite Forall_forall in Hp, Hs.
  pose proof (field_at_atoms i row (Hp row Hrow) (Hs row Hrow)) as H.
  rewrite Forall_forall in H. apply H. exact Ha.
Qed.

Lemma join_rows_cells_ok (partition : list str) :
  Forall single_line partition ->
  Forall cell_ok (join_rows (map split_table_row partition)).
Proof.
  intros H. rewrite join_rows_columns. apply Forall_map.
  apply Forall_forall. intros i _. apply column_cell_ok.
  - apply Forall_map. apply Forall_forall. intros line _.
    apply split_table_row_pipe_free.
  - apply Forall_map. eapply Forall_impl; [|exact H].
    intros line Hl. apply split_table_row_Forall. exact Hl.
Qed.

Lemma partition_fold_Forall (P : str -> Prop) (lines : list str)
  (done : list (list str)) (cur : list str) :
  Forall P lines -> Forall (Forall P) done -> Forall P cur ->
  Forall (Forall P) (fst (fold_left partition_step lines (done, cur)))
  /\ Forall P (snd (fold_left partition_step lines (done, cur))).
Proof.
  revert done cur. induction lines as [|line lines IH];
    intros done cur Hl Hd Hc.
  - simpl. auto.
  - inversion Hl as [|? ? Hline Hlines]; subst.
    cbn [fold_left partition_step].
    destruct (line_is_separator line).
    + apply IH; [exact Hlines| |constructor].
      apply Forall_app. split; [exact Hd|]. constructor; [exact Hc|constructor].
    + apply IH; [exact Hlines|exact Hd|].
      apply Forall_app. split; [exact Hc|]. constructor; [exact Hline|constructor].
Qed.

(** Partitions are made of lines of the input. *)
Lemma partition_raw_lines_Forall (P : str -> Prop) (lines : list str) :
  Forall P lines -> Forall (Forall P) (partition_raw_lines lines).
Proof.
  intros H. unfold partition_raw_lines.
  destruct (negb (has_line_seps lines)).
  - apply Forall_map. eapply Forall_impl; [|exact H].
    intros line Hl. constructor; [exact Hl|constructor].
  - destruct (partition_fold_Forall P lines [] [] H) as [Hd Hc];
      [constructor|constructor|].
    destruct (fold_left partition_step lines ([], [])) as [done cur].
    simpl in Hd, Hc. apply Forall_forall. intros part Hin.
    apply filter_In in Hin as [Hin _].
    apply in_app_or in Hin as [Hin|[<-|[]]].
    + rewrite Forall_forall in Hd. apply Hd. exact Hin.
    + exact Hc.
Qed.

Lemma cell_ok_nil : cell_ok [].
Proof. exists []. split; [constructor|reflexivity]. Qed.

Lemma cell_ok_nth (row : list str) (i : nat) :
  Forall cell_ok row -> cell_ok (nth i row []).
Proof.
  intros H. destruct (Nat.lt_ge_cases i (length row)) as [Hi|Hi].
  - rewrite Forall_forall in H. apply H. apply nth_In. exact Hi.
  - rewrite nth_overflow by exact Hi. apply cell_ok_nil.
Qed.

Lemma pad_to_cells_ok (m : nat) (row : list str) :
  Forall cell_ok row -> Forall cell_ok (pad_to m row).
Proof.
  intros H. unfold pad_to. apply Forall_app. split; [exact H|].
  apply Forall_forall. intros c Hc. apply repeat_spec in Hc. subst c.
  apply cell_ok_nil.
Qed.

Lemma select_columns_nth (cols : list nat) (row : list str) (j : nat) :
  j < length cols ->
  nth j (select_columns cols row) [] = nth (nth j cols 0) row [].
Proof.
  intros Hj. unfold select_columns.
  apply (nth_map_lt (fun i => nth i row []) cols j [] 0 Hj).
Qed.

Lemma blank_column_select (cols : list nat) (rows : list (list str)) j :
  j < length cols ->
  blank_column (map (select_columns cols) rows) j =
  blank_column rows (nth j cols 0).
Proof.
  intros Hj. unfold blank_column. induction rows as [|row rows IH].
  - reflexivity.
  - cbn [map forallb]. rewrite IH, select_columns_nth by exact Hj.
    reflexivity.
Qed.

(** What [parse_table] returns, when it returns: rows of one length,
    cells made of stripped pieces, and no blank column. *)
Lemma parse_table_shape (lines : list str) (table : list (list str)) :
  Forall single_line lines ->
  parse_table lines = Ok table ->
  exists n,
    table <> [] /\
    Forall (fun row => length row = n) table /\
    Forall (Forall cell_ok) table /\
    forall i, i < n -> blank_column table i = false.
Proof.
  intros Hlines Hparse. unfold parse_table in Hparse.
  set (rows := map (fun row_string => join_rows (map split_table_row row_string))
                 (partition_raw_lines lines)) in Hparse.
  assert (Hrows : Forall (Forall cell_ok) rows).
  { unfold rows. apply Forall_map.
    eapply Forall_impl; [|apply (partition_raw_lines_Forall _ _ Hlines)].
    intros part Hpart. apply join_rows_cells_ok. exact Hpart. }
  destruct rows as [|row0 rows0] eqn:Erows; [discriminate|].
  rewrite <- Erows in *. clear Erows.
  assert (Hne : rows <> []) by (intros E; rewrite E in Hparse; discriminate).
  rewrite unify_table_spec in Hparse by exact Hne.
  injection Hparse as <-.
  exists (length (surviving_columns rows)).
  split; [|split; [|split]].
  - destruct rows; [congruence|discriminate].
  - apply Forall_map. apply Forall_forall. intros row _.
    apply select_columns_length.
  - apply Forall_map, Forall_map. eapply Forall_impl; [|exact Hrows].
    intros row Hrow. unfold select_columns. apply Forall_map.
    apply Forall_forall. intros i _. apply cell_ok_nth.
    apply pad_to_cells_ok. exact Hrow.
  - intros i Hi. rewrite blank_column_select by exact Hi.
    assert (Hin : In (nth i (surviving_columns rows) 0)
                    (surviving_columns rows)) by (apply nth_In; exact Hi).
    unfold surviving_columns in Hin at 2.
    apply filter_In in Hin as [_ Hnb].
    apply negb_true_iff in Hnb. exact Hnb.
Qed.

(** ** Partitioning the output again *)

Lemma border_is_separator (fill : ascii) (ws : list nat) (line : str) :
  sep_char fill = true ->
  ws <> [] ->
  is_border_line fill ws line ->
  line_is_separator line = true.
Proof.
  intros Hfill Hws Hb. apply line_is_separator_iff. exists line.
  split; [|split; [|left; reflexivity]].
  - destruct (border_line_has_plus fill ws line Hws Hb) as [Hin _].
    intros E. rewrite E in Hin. contradiction.
  - rewrite Hb. apply forallb_join; [reflexivity|].
    constructor; [reflexivity|]. apply Forall_app. split.
    + apply Forall_map. apply Forall_forall. intros w _.
      apply forallb_forall. intros c Hc. apply repeat_spec in Hc.
      subst c. exact Hfill.
    + constructor; [reflexivity|constructor].
Qed.

Lemma data_line_unfold (ws : list nat) (rl : list str) :
  rl <> [] ->
  data_line ws rl = PIPE :: join [PIPE] (padded_cells ws rl) ++ [PIPE].
Proof.
  intros Hne. unfold data_line. cbn [app].
  assert (Hp : padded_cells ws rl <> []).
  { unfold padded_cells. intros E. apply map_eq_nil in E.
    destruct rl; [congruence|discriminate]. }
  rewrite join_nil_cons by (destruct (padded_cells ws rl); discriminate).
  rewrite join_snoc_nil by exact Hp. reflexivity.
Qed.

Lemma data_line_not_separator (ws : list nat) (rl : list str) :
  line_is_separator (data_line ws rl) = false.
Proof.
  unfold data_line. cbn [app].
  rewrite join_nil_cons by (destruct (padded_cells ws rl); discriminate).
  rewrite line_is_separator_unfold. reflexivity.
Qed.

Lemma data_lines_not_separators (ws : list nat) (row : list str) :
  Forall (fun l => line_is_separator l = false) (data_lines ws row).
Proof.
  unfold data_lines. apply Forall_map. apply Forall_forall.
  intros rl _. apply data_line_not_separator.
Qed.

Lemma partition_fold_block (block : list str) (done : list (list str))
  (cur : list str) :
  Forall (fun l => line_is_separator l = false) block ->
  fold_left partition_step block (done, cur) = (done, cur ++ block).
Proof.
  revert cur. induction block as [|l block IH]; intros cur H.
  - simpl. rewrite app_nil_r. reflexivity.
  - inversion H as [|? ? Hl Hb]; subst.
    cbn [fold_left partition_step]. rewrite Hl, IH by exact Hb.
    rewrite <- app_assoc. reflexivity.
Qed.

Lemma partition_fold_closed_block (block : list str) (sep : str)
  (done : list (list str)) (cur : list str) :
  Forall (fun l => line_is_separator l = false) block ->
  line_is_separator sep = true ->
  fold_left partition_step (block ++ [sep]) (done, cur) =
  (done ++ [cur ++ block], []).
Proof.
  intros Hb Hs. rewrite fold_left_app, partition_fold_block by exact Hb.
  cbn [fold_left partition_step]. rewrite Hs. reflexivity.
Qed.

Lemma partition_fold_rows (blockf : list str -> list str) (sep : str)
  (rows : list (list str)) (done : list (list str)) :
  line_is_separator sep = true ->
  (forall r, In r rows ->
             Forall (fun l => line_is_separator l = false) (blockf r)) ->
  fold_left partition_step (flat_map (fun r => blockf r ++ [sep]) rows)
    (done, []) =
  (done ++ map blockf rows, []).
Proof.
  intros Hs. revert done. induction rows as [|r rows IH]; intros done Hb.
  - simpl. rewrite app_nil_r. reflexivity.
  - cbn [flat_map]. rewrite fold_left_app.
    rewrite partition_fold_closed_block
      by (try exact Hs; apply Hb; left; reflexivity).
    rewrite IH by (intros r' Hr'; apply Hb; right; exact Hr').
    cbn [map app]. rewrite <- app_assoc. reflexivity.
Qed.

Lemma filter_nonempty_all (blocks : list (list str)) :
  Forall (fun b => b <> []) blocks -> filter (@nonempty str) blocks = blocks.
Proof.
  intros H. apply filter_all. intros b Hb.
  rewrite Forall_forall in H. specialize (H b Hb).
  destruct b; [congruence|reflexivity].
Qed.

(** The output of the renderer partitions into the lines of its rows. *)
Lemma partition_rendered (row : list str) (rest : list (list str))
  (ws : list nat) (h nl : str) :
  Forall (fun r => r <> []) (row :: rest) ->
  line_is_separator h = true ->
  line_is_separator nl = true ->
  partition_raw_lines
    ([h] ++ data_lines ws row ++ [h]
     ++ flat_map (fun r => data_lines ws r ++ [nl]) rest) =
  map (data_lines ws) (row :: rest).
Proof.
  intros Hne Hh Hnl. unfold partition_raw_lines.
  cbn [app has_line_seps existsb]. rewrite Hh. cbn [orb negb].
  cbn [fold_left partition_step]. rewrite Hh.
  rewrite fold_left_app.
  rewrite partition_fold_block by apply data_lines_not_separators.
  cbn [fold_left partition_step app]. rewrite Hh.
  rewrite (partition_fold_rows (data_lines ws) nl rest _ Hnl)
    by (intros r _; apply data_lines_not_separators).
  rewrite filter_app. cbn [filter nonempty app map].
  rewrite app_nil_r.
  destruct (data_lines ws row) as [|l ls] eqn:E.
  { exfalso. inversion Hne; subst.
    apply (data_lines_nonempty ws row); assumption. }
  cbn [nonempty]. f_equal.
  apply filter_nonempty_all. apply Forall_map.
  inversion Hne as [|? ? _ Hrest]; subst.
  eapply Forall_impl; [|exact Hrest].
  intros r Hr. apply data_lines_nonempty. exact Hr.
Qed.

(** ** Reading the rendered rows back *)

Lemma split_nl_cell (atoms : list str) (k : nat) :
  Forall atom atoms ->
  nth k (split_on is_nl (join [NL] atoms)) [] = nth k atoms [] /\
  length atoms <= length (split_on is_nl (join [NL] atoms)).
Proof.
  intros H. destruct atoms as [|a atoms].
  - simpl. split; [destruct k as [|[|k]]; reflexivity|lia].
  - rewrite split_on_join.
    + split; [reflexivity|lia].
    + reflexivity.
    + discriminate.
    + eapply Forall_impl; [|exact H]. intros x (_ & _ & _ & Hx). exact Hx.
Qed.

Lemma atom_nth_tight (atoms : list str) (k : nat) :
  Forall atom atoms -> tight (nth k atoms []) /\ pipe_free (nth k atoms []).
Proof.
  intros H. destruct (Nat.lt_ge_cases k (length atoms)) as [Hk|Hk].
  - rewrite Forall_forall in H.
    destruct (H (nth k atoms []) (nth_In _ _ Hk)) as (_ & Ht & Hp & _). auto.
  - rewrite nth_overflow by exact Hk. split; [apply tight_nil|constructor].
Qed.

Lemma strip_format_field (w : nat) (t : str) :
  tight t -> strip (format_field w t) = t.
Proof.
  intros Ht. unfold format_field.
  apply (strip_around [SP] t (repeat SP (w - length t) ++ [SP])).
  - reflexivity.
  - rewrite forallb_app. simpl. rewrite andb_true_r.
    apply forallb_forall. intros c Hc. apply repeat_spec in Hc. subst c.
    reflexivity.
  - exact Ht.
Qed.

Lemma format_field_pipe_free (w : nat) (t : str) :
  pipe_free t -> pipe_free (format_field w t).
Proof.
  intros Ht. unfold format_field, pipe_free.
  apply Forall_app. split; [repeat constructor|].
  apply Forall_app. split; [exact Ht|].
  apply Forall_app. split; [|repeat constructor].
  apply Forall_forall. intros c Hc. apply repeat_spec in Hc. subst c.
  reflexivity.
Qed.

Lemma drop_trailing_pipe_snoc (y : str) (c : ascii) :
  is_pipe c = true -> drop_trailing_pipe (y ++ [c]) = y.
Proof.
  intros Hc. induction y as [|d y IH].
  - simpl. rewrite Hc. reflexivity.
  - cbn [app drop_trailing_pipe]. rewrite forallb_app. simpl.
    rewrite (is_space_pipe _ Hc). simpl.
    rewrite !andb_false_r. rewrite IH. reflexivity.
Qed.

Lemma map_fixed {A : Type} (f : A -> A) (l : list A) :
  (forall x, In x l -> f x = x) -> map f l = l.
Proof.
  intros H. rewrite <- (map_id l) at 2. apply map_ext_in. exact H.
Qed.

(** A rendered line splits into the texts it was made from. *)
Lemma split_table_row_data_line (ws : list nat) (rl : list str) :
  rl <> [] ->
  Forall (fun e => tight e /\ pipe_free e) rl ->
  split_table_row (data_line ws rl) = rl.
Proof.
  intros Hne Hrl. rewrite data_line_unfold by exact Hne.
  rewrite split_table_row_pipe by reflexivity.
  change (drop_leading_pipe (PIPE :: join [PIPE] (padded_cells ws rl) ++ [PIPE]))
    with (join [PIPE] (padded_cells ws rl) ++ [PIPE]).
  rewrite drop_trailing_pipe_snoc by reflexivity.
  unfold pipe_fields. rewrite split_on_join.
  - unfold padded_cells. rewrite map_map.
    transitivity (map (fun i => nth i rl []) (seq 0 (length rl)));
      [|apply map_nth_seq].
    apply map_ext_in.
    intros i Hi. apply in_seq in Hi.
    rewrite Forall_forall in Hrl.
    destruct (Hrl (nth i rl [])) as [Ht _]; [apply nth_In; lia|].
    rewrite (tight_strip _ Ht). apply strip_format_field. exact Ht.
  - reflexivity.
  - unfold padded_cells. intros E. apply map_eq_nil in E.
    destruct rl; [congruence|discriminate].
  - unfold padded_cells. apply Forall_map. apply Forall_forall.
    intros i Hi. apply in_seq in Hi. apply format_field_pipe_free.
    apply strip_Forall. rewrite Forall_forall in Hrl.
    destruct (Hrl (nth i rl [])) as [_ Hp]; [apply nth_In; lia|exact Hp].
Qed.

Lemma turn_row_entries (row : list str) :
  Forall cell_ok row ->
  Forall (Forall (fun e => tight e /\ pipe_free e)) (turn_row row).
Proof.
  intros H. unfold turn_row. apply Forall_map. apply Forall_forall.
  intros k _. apply Forall_map. eapply Forall_impl; [|exact H].
  intros cell (atoms & Ha & ->).
  rewrite (proj1 (split_nl_cell atoms k Ha)).
  apply atom_nth_tight. exact Ha.
Qed.

Lemma split_rendered_row (ws : list nat) (row : list str) :
  row <> [] ->
  Forall cell_ok row ->
  map split_table_row (data_lines ws row) = turn_row row.
Proof.
  intros Hne Hrow. unfold data_lines. rewrite map_map.
  apply map_fixed. intros rl Hrl.
  apply split_table_row_data_line.
  - pose proof (turn_row_lengths row) as Hl. rewrite Forall_forall in Hl.
    specialize (Hl rl Hrl). intros E. rewrite E in Hl.
    destruct row; [congruence|discriminate].
  - pose proof (turn_row_entries row Hrow) as He.
    rewrite Forall_forall in He. apply He. exact Hrl.
Qed.

Lemma flat_map_map {A B C : Type} (f : B -> list C) (g : A -> B)
  (l : list A) :
  flat_map f (map g l) = flat_map (fun x => f (g x)) l.
Proof.
  induction l as [|x l IH]; [reflexivity|]. simpl. rewrite IH. reflexivity.
Qed.

Lemma flat_map_nil {A B : Type} (f : A -> list B) (l : list A) :
  (forall x, In x l -> f x = []) -> flat_map f l = [].
Proof.
  induction l as [|x l IH]; intros H; [reflexivity|].
  simpl. rewrite (H x (or_introl eq_refl)). apply IH.
  intros y Hy. apply H. right. exact Hy.
Qed.

Lemma flat_map_singletons_in {A : Type} (l : list A) (d : A)
  (idx : list nat) :
  (forall k, In k idx -> k < length l) ->
  flat_map (fun k => if k <? length l then [nth k l d] else []) idx =
  map (fun k => nth k l d) idx.
Proof.
  induction idx as [|k idx IH]; intros H; [reflexivity|].
  cbn [flat_map map].
  destruct (Nat.ltb_spec k (length l)) as [_|Hk].
  - simpl. f_equal. apply IH. intros k' Hk'. apply H. right. exact Hk'.
  - specialize (H k (or_introl eq_refl)). lia.
Qed.

Lemma flat_map_singletons {A : Type} (l : list A) (d : A) (h : nat) :
  length l <= h ->
  flat_map (fun k => if k <? length l then [nth k l d] else []) (seq 0 h) = l.
Proof.
  intros Hh. replace h with (length l + (h - length l)) by lia.
  rewrite seq_app, flat_map_app.
  rewrite flat_map_singletons_in
    by (intros k Hk; apply in_seq in Hk; lia).
  rewrite map_nth_seq. rewrite flat_map_nil; [apply app_nil_r|].
  intros k Hk. apply in_seq in Hk.
  destruct (Nat.ltb_spec k (length l)); [lia|reflexivity].
Qed.

Lemma field_at_turned (row : list str) (atoms : list str) (j k : nat) :
  j < length row ->
  nth j row [] = join [NL] atoms ->
  Forall atom atoms ->
  field_at j (map (fun cell => nth k (split_on is_nl cell) []) row) =
  if k <? length atoms then [nth k atoms []] else [].
Proof.
  intros Hj Hcell Ha. unfold field_at.
  rewrite nth_error_map, (nth_error_nth' row [] Hj). cbn [option_map].
  rewrite Hcell, (proj1 (split_nl_cell atoms k Ha)).
  destruct (Nat.ltb_spec k (length atoms)) as [Hk|Hk].
  - rewrite Forall_forall in Ha.
    destruct (Ha (nth k atoms []) (nth_In _ _ Hk)) as (Hne & Ht & _).
    rewrite (tight_strip _ Ht).
    destruct (nth k atoms []); [congruence|reflexivity].
  - rewrite nth_overflow by exact Hk. reflexivity.
Qed.

Lemma row_height_ge (row : list str) (j : nat) :
  j < length row ->
  length (split_on is_nl (nth j row [])) <= row_height row.
Proof.
  intros Hj. unfold row_height. apply list_max_ge.
  rewrite map_map. apply in_map_iff. exists (nth j row []).
  split; [reflexivity|apply nth_In; exact Hj].
Qed.

(** Joining the lines of a row gives the row back. *)
Lemma join_rows_turn_row (row : list str) :
  row <> [] ->
  Forall cell_ok row ->
  join_rows (turn_row row) = row.
Proof.
  intros Hne Hrow. rewrite join_rows_columns.
  assert (Hmax : list_max (map (@length str) (turn_row row)) = length row).
  { apply normalized_max_fields; [|apply turn_row_lengths].
    intros E. pose proof (row_height_pos row Hne) as Hh.
    apply (f_equal (@length _)) in E. unfold turn_row in E.
    rewrite length_map, length_seq in E. simpl in E. lia. }
  rewrite Hmax.
  transitivity (map (fun j => nth j row []) (seq 0 (length row)));
    [|apply map_nth_seq].
  apply map_ext_in. intros j Hj. apply in_seq in Hj.
  assert (Hcell : cell_ok (nth j row [])) by (apply cell_ok_nth; exact Hrow).
  destruct Hcell as (atoms & Ha & Hcell).
  unfold column_cell. rewrite Hcell. f_equal.
  unfold turn_row. rewrite flat_map_map.
  rewrite (flat_map_ext _
             (fun k => if k <? length atoms then [nth k atoms []] else [])).
  - apply flat_map_singletons.
    etransitivity; [apply (proj2 (split_nl_cell atoms 0 Ha))|].
    rewrite <- Hcell. apply row_height_ge. lia.
  - intros k. apply field_at_turned; [lia|exact Hcell|exact Ha].
Qed.

(** ** A parsed table is normalized already *)

Lemma pad_to_full (n : nat) (row : list str) :
  length row = n -> pad_to n row = row.
Proof.
  intros H. unfold pad_to. rewrite H, Nat.sub_diag. apply app_nil_r.
Qed.

Lemma unify_table_parsed (n : nat) (table : list (list str)) :
  parsed_table n table -> unify_table table = Ok table.
Proof.
  intros (Hne & Hn & Hlen & _ & Hcols).
  rewrite unify_table_spec by exact Hne. f_equal.
  assert (Hm : max_fields_of table = n)
    by (apply normalized_max_fields; assumption).
  assert (Hpad : map (pad_to n) table = table).
  { apply map_fixed. intros row Hrow. apply pad_to_full.
    rewrite Forall_forall in Hlen. apply Hlen. exact Hrow. }
  assert (Hsurv : surviving_columns table = seq 0 n).
  { unfold surviving_columns. rewrite Hm, Hpad.
    apply filter_all. intros i Hi. apply in_seq in Hi.
    rewrite Hcols by lia. reflexivity. }
  rewrite Hm, Hpad, Hsurv. apply map_fixed. intros row Hrow.
  rewrite Forall_forall in Hlen. rewrite <- (Hlen row Hrow).
  unfold select_columns. apply map_nth_seq.
Qed.

(** ** Idempotence *)

Lemma parsed_table_rows_nonempty (n : nat) (table : list (list str)) :
  parsed_table n table -> Forall (fun r => r <> []) table.
Proof.
  intros (_ & Hn & Hlen & _). eapply Forall_impl; [|exact Hlen].
  simpl. intros r Hr ->. simpl in Hr. lia.
Qed.

(** Parsing the rendering of a parsed table gives the table back. *)
Lemma parse_rendered (n : nat) (table : list (list str)) (out : list str) :
  parsed_table n table ->
  draw_table table = Ok out ->
  parse_table out = Ok table.
Proof.
  intros Hp Hdraw.
  pose proof (parsed_table_rows_nonempty n table Hp) as Hne.
  pose proof Hp as (Htable & Hn & Hlen & Hcells & _).
  destruct table as [|row rest]; [congruence|].
  rewrite (draw_table_layout row rest Hne) in Hdraw.
  injection Hdraw as <-.
  set (table := row :: rest) in *.
  set (ws := get_column_widths table).
  assert (Hws : ws <> [])
    by (apply get_column_widths_nonempty with (n := n); assumption).
  assert (Hh : line_is_separator (header_line_of table) = true).
  { apply (border_is_separator "="%char ws); [reflexivity|exact Hws|].
    apply (table_line_border ws true). exact Hws. }
  assert (Hnl : line_is_separator (normal_line_of table) = true).
  { apply (border_is_separator "-"%char ws); [reflexivity|exact Hws|].
    apply (table_line_border ws false). exact Hws. }
  pose proof (partition_rendered row rest ws _ _ Hne Hh Hnl) as Hpart.
  unfold parse_table.
  match goal with
  | |- context [partition_raw_lines ?x] =>
      replace (partition_raw_lines x) with (map (data_lines ws) table)
        by (symmetry; exact Hpart)
  end.
  rewrite map_map.
  rewrite (map_fixed
             (fun r => join_rows (map split_table_row (data_lines ws r)))).
  - apply (unify_table_parsed n). exact Hp.
  - intros r Hr. rewrite Forall_forall in Hne, Hcells.
    rewrite split_rendered_row by (auto using Hne, Hcells).
    apply join_rows_turn_row; auto.
Qed.

Lemma draw_table_no_column (rest : list (list str)) :
  draw_table ([] :: rest) = Raise ValueError.
Proof. reflexivity. Qed.

(** C2: on raw lines (a raw line is one line of text and holds no
    newline), when [parse_table] followed by [draw_table] returns output
    lines, the same pipeline on these output lines returns the very same
    lines. *)
Theorem reformat_idempotent (raw_lines out : list str) :
  Forall single_line raw_lines ->
  reformat raw_lines = Ok out ->
  reformat out = Ok out.
Proof.
  intros Hlines Hout. unfold reformat in Hout.
  destruct (parse_table raw_lines) as [table|e] eqn:Hparse; [|discriminate].
  cbn [bind] in Hout.
  destruct (parse_table_shape raw_lines table Hlines Hparse)
    as (n & Hne & Hlen & Hcells & Hcols).
  assert (Hn : 0 < n).
  { destruct n as [|n]; [|lia]. exfalso.
    destruct table as [|row rest]; [congruence|].
    inversion Hlen as [|? ? Hrow _]; subst.
    apply length_zero_iff_nil in Hrow. subst row.
    rewrite draw_table_no_column in Hout. discriminate. }
  assert (Hp : parsed_table n table) by (repeat split; assumption).
  unfold reformat. rewrite (parse_rendered n table out Hp Hout).
  exact Hout.
Qed.

Lemma reformat_idempotent_witness :
  reformat
    [L "+====+===+"; L "| a  | b |"; L "+====+===+"; L "| cc | d |";
     L "+----+---+"] =
  Ok [L "+====+===+"; L "| a  | b |"; L "+====+===+"; L "| cc | d |";
      L "+----+---+"].
Proof.
  apply (reformat_idempotent [L "a  b"; L "cc  d"]).
  - repeat constructor.
  - vm_compute. reflexivity.
Defined.

(** * Further properties of the module *)

(** ** The partitioner *)

Lemma concat_filter_nonempty (parts : list (list str)) :
  concat (filter (@nonempty str) parts) = concat parts.
Proof.
  induction parts as [|part parts IH]; [reflexivity|].
  destruct part as [|l part]; simpl; [exact IH|].
  rewrite IH. reflexivity.
Qed.

Lemma partition_fold_concat (lines : list str) (done : list (list str))
  (cur : list str) :
  let st := fold_left partition_step lines (done, cur) in
  concat (fst st ++ [snd st]) =
  concat done ++ cur
  ++ filter (fun l => negb (line_is_separator l)) lines.
Proof.
  revert done cur. induction lines as [|line lines IH]; intros done cur.
  - simpl. rewrite concat_app. simpl. rewrite !app_nil_r. reflexivity.
  - cbn [fold_left partition_step filter].
    destruct (line_is_separator line); cbn [negb].
    + rewrite IH, concat_app. simpl. rewrite app_nil_r, <- app_assoc.
      reflexivity.
    + rewrite IH, <- app_assoc. reflexivity.
Qed.

Lemma no_line_seps_filter (lines : list str) :
  has_line_seps lines = false ->
  filter (fun l => negb (line_is_separator l)) lines = lines.
Proof.
  intros H. apply filter_all. intros l Hl.
  unfold has_line_seps in H.
  destruct (line_is_separator l) eqn:E; [|reflexivity].
  assert (existsb line_is_separator lines = true)
    by (apply existsb_exists; exists l; auto).
  congruence.
Qed.

Lemma concat_singletons {A : Type} (l : list A) :
  concat (map (fun x => [x]) l) = l.
Proof. induction l as [|x l IH]; [reflexivity|]. simpl. congruence. Qed.

Lemma partition_concat (lines : list str) :
  concat (partition_raw_lines lines) =
  filter (fun l => negb (line_is_separator l)) lines.
Proof.
  unfold partition_raw_lines. destruct (has_line_seps lines) eqn:E.
  - cbn [negb].
    pose proof (partition_fold_concat lines [] []) as H. cbv zeta in H.
    destruct (fold_left partition_step lines ([], [])) as [done cur].
    simpl in H. rewrite concat_filter_nonempty. exact H.
  - cbn [negb]. rewrite concat_singletons, no_line_seps_filter by exact E.
    reflexivity.
Qed.

Lemma partition_parts_nonempty (lines : list str) :
  Forall (fun part => part <> []) (partition_raw_lines lines).
Proof.
  unfold partition_raw_lines. destruct (negb (has_line_seps lines)).
  - apply Forall_map. apply Forall_forall. intros l _. discriminate.
  - destruct (fold_left partition_step lines ([], [])) as [done cur].
    apply Forall_forall. intros part Hin. apply filter_In in Hin as [_ Hne].
    destruct part; [discriminate|discriminate].
Qed.

(** X1: the partitions, one after the other, are the lines that are not
    separators, in their order; no partition is empty and none holds a
    separator line; without any separator line every line is a partition
    of its own. *)
Theorem partition_raw_lines_keeps_lines (raw_lines : list str) :
  concat (partition_raw_lines raw_lines) =
    filter (fun l => negb (line_is_separator l)) raw_lines
  /\ Forall (fun part => part <> []) (partition_raw_lines raw_lines)
  /\ Forall (Forall (fun l => line_is_separator l = false))
       (partition_raw_lines raw_lines)
  /\ (has_line_seps raw_lines = false ->
      partition_raw_lines raw_lines = map (fun x => [x]) raw_lines).
Proof.
  split; [apply partition_concat|].
  split; [apply partition_parts_nonempty|]. split.
  - apply Forall_forall. intros part Hpart.
    apply Forall_forall. intros l Hl.
    assert (Hin : In l (concat (partition_raw_lines raw_lines)))
      by (apply in_concat; exists part; auto).
    rewrite partition_concat in Hin. apply filter_In in Hin as [_ Hs].
    apply negb_true_iff in Hs. exact Hs.
  - intros H. unfold partition_raw_lines. rewrite H. reflexivity.
Qed.

Lemma partition_raw_lines_keeps_lines_witness :
  partition_raw_lines [L "a"; L "b"] = [[L "a"]; [L "b"]].
Proof.
  apply (proj2 (proj2 (proj2
           (partition_raw_lines_keeps_lines [L "a"; L "b"])))).
  reflexivity.
Defined.

(** ** When the parser raises *)

Lemma filter_nil_forallb {A : Type} (f : A -> bool) (l : list A) :
  filter (fun x => negb (f x)) l = [] -> forallb f l = true.
Proof.
  induction l as [|x l IH]; [reflexivity|]. simpl.
  destruct (f x); simpl; [exact IH|discriminate].
Qed.

Lemma partition_nil_iff (lines : list str) :
  partition_raw_lines lines = [] <-> forallb line_is_separator lines = true.
Proof.
  split.
  - intros H. apply filter_nil_forallb.
    rewrite <- partition_concat, H. reflexivity.
  - apply partition_only_separators.
Qed.

(** X2: [parse_table] raises exactly on the blocks that hold no line
    other than separators, the empty block among them, and what it
    raises is ValueError; on every other block it returns a table with
    one row for each partition. *)
Theorem parse_table_raises_iff (raw_lines : list str) :
  (forallb line_is_separator raw_lines = true ->
   parse_table raw_lines = Raise ValueError)
  /\ (forallb line_is_separator raw_lines = false ->
      exists table,
        parse_table raw_lines = Ok table /\
        table <> [] /\
        length table = length (partition_raw_lines raw_lines)).
Proof.
  split.
  - intros H. unfold parse_table.
    rewrite partition_only_separators by exact H. reflexivity.
  - intros H. unfold parse_table.
    set (rows := map (fun row_string =>
                        join_rows (map split_table_row row_string))
                   (partition_raw_lines raw_lines)).
    assert (Hne : rows <> []).
    { unfold rows. intros E. apply map_eq_nil in E.
      apply partition_nil_iff in E. congruence. }
    rewrite unify_table_spec by exact Hne. eexists. split; [reflexivity|].
    split.
    + destruct rows; [congruence|discriminate].
    + unfold rows. rewrite !length_map. reflexivity.
Qed.

Lemma parse_table_raises_iff_witness :
  parse_table [L "====="; L "-----"] = Raise ValueError /\
  exists table, parse_table [L "a  b"; L "-----"] = Ok table.
Proof.
  split.
  - apply (proj1 (parse_table_raises_iff [L "====="; L "-----"])).
    reflexivity.
  - destruct (proj2 (parse_table_raises_iff [L "a  b"; L "-----"]))
      as (table & H & _).
    + reflexivity.
    + exists table. exact H.
Defined.

(** ** When the renderer raises *)

Lemma draw_rows_some (ws : list nat) (h n : str) (rows : list (list str))
  (st : list str * bool) :
  Forall (fun row => row <> [] /\ length row <= length ws) rows ->
  exists st', foldM (draw_row ws h n) rows st = Ok st'.
Proof.
  revert st. induction rows as [|row rows IH]; intros [output first] Hall.
  - simpl. eauto.
  - inversion Hall as [|? ? [Hne Hlen] Hrows]; subst.
    cbn [foldM]. rewrite draw_row_ok by assumption. cbn [bind].
    apply IH. exact Hrows.
Qed.

Lemma draw_row_nil (ws : list nat) (h n : str) (st : list str * bool) :
  draw_row ws h n st [] = Raise ValueError.
Proof. destruct st. reflexivity. Qed.

Lemma first_empty_row (table : list (list str)) :
  Exists (fun r => r = []) table ->
  exists good rest,
    table = good ++ [] :: rest /\ Forall (fun r => r <> []) good.
Proof.
  induction table as [|row table IH]; intros H.
  - inversion H.
  - destruct row as [|c row].
    + exists [], table. split; [reflexivity|constructor].
    + inversion H as [? ? Hrow|? ? Hrest]; subst; [discriminate|].
      destruct (IH Hrest) as (good & rest & -> & Hgood).
      exists ((c :: row) :: good), rest. split; [reflexivity|].
      constructor; [discriminate|exact Hgood].
Qed.

Lemma draw_table_empty_row (table : list (list str)) :
  Exists (fun r => r = []) table -> draw_table table = Raise ValueError.
Proof.
  intros H. destruct (first_empty_row table H) as (good & rest & Ht & Hgood).
  destruct table as [|row0 table0] eqn:E; [inversion H|].
  rewrite <- E in *. clear E row0 table0.
  assert (Hunf : forall t, t <> [] ->
            draw_table t =
            (st <- foldM (draw_row (get_column_widths t) (header_line_of t)
                            (normal_line_of t)) t
                     ([header_line_of t], true) ;;
             Ok (fst st))).
  { intros t Hne. destruct t; [congruence|reflexivity]. }
  rewrite Hunf by (rewrite Ht; destruct good; discriminate).
  set (ws := get_column_widths table).
  rewrite Ht at 3. rewrite foldM_app.
  destruct (draw_rows_some ws (header_line_of table) (normal_line_of table)
              good ([header_line_of table], true)) as (st' & Hst).
  { apply Forall_forall. intros r Hr. rewrite Forall_forall in Hgood.
    split; [apply Hgood; exact Hr|].
    unfold ws. rewrite get_column_widths_length. apply list_max_ge.
    apply in_map. rewrite Ht. apply in_or_app. left. exact Hr. }
  rewrite Hst. cbn [bind foldM]. rewrite draw_row_nil. reflexivity.
Qed.

Lemma Forall_or_Exists_empty (table : list (list str)) :
  Forall (fun r => r <> []) table \/ Exists (fun r => r = []) table.
Proof.
  induction table as [|row table [IH|IH]].
  - left. constructor.
  - destruct row as [|c row].
    + right. left. reflexivity.
    + left. constructor; [discriminate|exact IH].
  - right. right. exact IH.
Qed.

Lemma draw_table_ok_rows (table : list (list str)) (out : list str) :
  draw_table table = Ok out -> Forall (fun r => r <> []) table.
Proof.
  intros H. destruct (Forall_or_Exists_empty table) as [Hf|He];
    [exact Hf|].
  rewrite (draw_table_empty_row table He) in H. discriminate.
Qed.



(** ** The layout of the output *)

Lemma flat_map_length_sum {A B : Type} (f : A -> list B) (l : list A) :
  length (flat_map f l) = list_sum (map (fun x => length (f x)) l).
Proof.
  induction l as [|x l IH]; [reflexivity|].
  simpl. rewrite length_app, IH. reflexivity.
Qed.

Lemma layout_length (ws : list nat) (h nl : str) (row : list str)
  (rest : list (list str)) :
  length ([h] ++ data_lines ws row ++ [h]
          ++ flat_map (fun r => data_lines ws r ++ [nl]) rest) =
  1 + list_sum (map (fun r => row_height r + 1) (row :: rest)).
Proof.
  rewrite !length_app, flat_map_length_sum, data_lines_length.
  cbn [length map list_sum].
  assert (E : map (fun x => length (data_lines ws x ++ [nl])) rest
              = map (fun r => row_height r + 1) rest).
  { apply map_ext. intros r. rewrite length_app, data_lines_length.
    reflexivity. }
  rewrite E. unfold list_sum. cbn [fold_right]. lia.
Qed.

(** X4: on a table without an empty row (ragged or not) the output is
    the header border, the lines of the first row, the header border
    again, and then each further row followed by the normal border: the
    [=] border is drawn twice, around the first row, also when the table
    has this one row only.  There is one border more than there are
    rows, and each row takes as many lines as its tallest cell has. *)
Theorem draw_table_output_layout (row : list str) (rest : list (list str)) :
  Forall (fun r => r <> []) (row :: rest) ->
  let table := row :: rest in
  let ws := get_column_widths table in
  exists out,
    draw_table table = Ok out /\
    out = [header_line_of table] ++ data_lines ws row
          ++ [header_line_of table]
          ++ flat_map (fun r => data_lines ws r ++ [normal_line_of table])
               rest /\
    length out =
      1 + list_sum (map (fun r => row_height r + 1) table) /\
    Forall (fun r => 1 <= row_height r) table.
Proof.
  intros Hne table ws. eexists. split; [apply draw_table_layout; exact Hne|].
  split; [reflexivity|]. split.
  - apply layout_length.
  - eapply Forall_impl; [|exact Hne]. intros r Hr.
    apply row_height_pos. exact Hr.
Qed.

Lemma draw_table_output_layout_witness :
  draw_table [[L "hello"]] = Ok [L "+=======+"; L "| hello |"; L "+=======+"].
Proof.
  destruct (draw_table_output_layout [L "hello"] [])
    as (out & Hout & Hlay & _).
  - repeat constructor. discriminate.
  - rewrite Hout, Hlay. vm_compute. reflexivity.
Defined.

(** ** The output is a rectangle *)

Lemma framed_length (sep : ascii) (cells : list str) :
  length (join [sep] ([[]] ++ cells ++ [[]])) =
  list_sum (map (@length ascii) cells) + length cells + 1.
Proof.
  cbn [app].
  induction cells as [|c cells IH]; [reflexivity|].
  cbn [app]. destruct (cells ++ [[]]) as [|q rest] eqn:E;
    [destruct cells; discriminate|].
  rewrite !join_cons2.  rewrite join_cons2 in IH.
  rewrite !length_app. rewrite !length_app in IH.
  unfold list_sum in *. cbn [map fold_right length] in *. lia.
Qed.

Lemma data_line_length (ws : list nat) (line : str) :
  is_data_line ws line -> length line = rendered_width ws.
Proof.
  intros (cells & -> & Hlen & Hcells).
  rewrite (framed_length PIPE cells). unfold rendered_width. rewrite Hlen.
  f_equal. f_equal. f_equal.
  apply nth_ext with (d := 0) (d' := 0).
  - rewrite !length_map. exact Hlen.
  - intros i Hi. rewrite length_map in Hi.
    rewrite (nth_map_lt _ _ _ _ []) by exact Hi.
    rewrite (nth_map_lt _ _ _ _ 0) by lia.
    apply Hcells. lia.
Qed.

Lemma border_line_length (fill : ascii) (ws : list nat) (line : str) :
  is_border_line fill ws line -> length line = rendered_width ws.
Proof.
  intros ->. change (L "+") with ["+"%char].
  rewrite framed_length. unfold rendered_width.
  rewrite length_map, map_map. f_equal. f_equal. f_equal.
  apply map_ext. intros w. apply repeat_length.
Qed.

(** X5: on a non-empty table whose rows all have the same positive
    number of cells, every line of the output has the same length: the
    sum of the column widths, three characters more for each column, and
    one. *)
Theorem draw_table_rectangular (table : list (list str)) (n : nat) :
  table <> [] -> 0 < n ->
  Forall (fun row => length row = n) table ->
  exists out,
    draw_table table = Ok out /\
    Forall
      (fun line =>
         length line =
         list_sum (get_column_widths table) + 3 * n + 1)
      out.
Proof.
  intros Hne Hn Hall.
  destruct (draw_table_classified table n Hne Hn Hall)
    as (out & Hout & _ & Hcls).
  exists out. split; [exact Hout|].
  assert (Hw : rendered_width (get_column_widths table) =
               list_sum (get_column_widths table) + 3 * n + 1).
  { unfold rendered_width.
    assert (Hl : length (get_column_widths table) = n).
    { rewrite get_column_widths_length.
      apply normalized_max_fields; assumption. }
    rewrite Hl.
    assert (Hs : forall l : list nat,
               list_sum (map (fun w => w + 2) l) = list_sum l + 2 * length l).
    { induction l as [|w l IH]; [reflexivity|].
      unfold list_sum in *. cbn [map fold_right length]. lia. }
    rewrite Hs, Hl. lia. }
  eapply Forall_impl; [|exact Hcls]. cbv beta.
  intros line [H|[H|H]]; rewrite <- Hw.
  - apply data_line_length. exact H.
  - apply (border_line_length _ _ _ H).
  - apply (border_line_length _ _ _ H).
Qed.

Lemma draw_table_rectangular_witness :
  exists out,
    draw_table example1_table = Ok out /\
    Forall (fun line => length line = 10) out.
Proof.
  destruct (draw_table_rectangular example1_table 2) as (out & H1 & H2).
  - discriminate.
  - lia.
  - repeat constructor.
  - exists out. split; [exact H1|exact H2].
Defined.

(** ** No newline in the output *)

Lemma table_line_single_line (ws : list nat) (header : bool) :
  single_line (table_line ws header).
Proof.
  unfold table_line, single_line.
  set (parts := map (fun width => repeat _ width) ws).
  assert (Hparts : Forall (Forall (fun c => is_nl c = false)) parts).
  { unfold parts. apply Forall_map. apply Forall_forall. intros w _.
    apply Forall_forall. intros c Hc. apply repeat_spec in Hc. subst c.
    destruct header; reflexivity. }
  apply Forall_join; [repeat constructor|].
  destruct (nonempty parts); [|exact Hparts].
  constructor; [constructor|]. apply Forall_app.
  split; [exact Hparts|repeat constructor].
Qed.

Lemma data_lines_single_line (ws : list nat) (row : list str) :
  Forall single_line (data_lines ws row).
Proof.
  unfold data_lines, turn_row. rewrite map_map. apply Forall_map.
  apply Forall_forall. intros k _. unfold data_line, single_line.
  apply Forall_join; [repeat constructor|].
  constructor; [constructor|]. apply Forall_app.
  split; [|repeat constructor].
  unfold padded_cells. apply Forall_map. apply Forall_forall.
  intros i _. unfold format_field.
  apply Forall_app. split; [repeat constructor|].
  apply Forall_app. split.
  - apply strip_Forall.
    set (rl := map (fun field => nth k (split_on is_nl field) []) row).
    destruct (Nat.lt_ge_cases i (length rl)) as [Hi|Hi].
    + unfold rl. rewrite (nth_map_lt _ _ _ _ [])
        by (unfold rl in Hi; rewrite length_map in Hi; exact Hi).
      set (field := nth i row []).
      destruct (Nat.lt_ge_cases k (length (split_on is_nl field))) as [Hk|Hk].
      * pose proof (split_on_pieces_free is_nl field) as Hp.
        rewrite Forall_forall in Hp. apply Hp. apply nth_In. exact Hk.
      * rewrite nth_overflow by exact Hk. constructor.
    + rewrite nth_overflow by exact Hi. constructor.
  - apply Forall_app. split; [|repeat constructor].
    apply Forall_forall. intros c Hc. apply repeat_spec in Hc. subst c.
    reflexivity.
Qed.

(** X6: whatever the table, when [draw_table] returns, no line of the
    output holds a newline character: the newlines inside the cells have
    become line breaks of the output. *)
Theorem draw_table_no_newline (table : list (list str)) (out : list str) :
  draw_table table = Ok out -> Forall single_line out.
Proof.
  intros Hout. pose proof (draw_table_ok_rows table out Hout) as Hne.
  destruct table as [|row rest].
  { injection Hout as <-. constructor. }
  rewrite (draw_table_layout row rest Hne) in Hout. injection Hout as <-.
  assert (Hh : single_line (header_line_of (row :: rest)))
    by apply table_line_single_line.
  constructor; [exact Hh|].
  apply Forall_app. split; [apply data_lines_single_line|].
  constructor; [exact Hh|].
  apply Forall_forall. intros line Hline.
  apply in_flat_map in Hline as (r & _ & Hline).
  apply in_app_or in Hline as [Hline|[<-|[]]].
  - pose proof (data_lines_single_line (get_column_widths (row :: rest)) r)
      as Hd.
    rewrite Forall_forall in Hd. apply Hd. exact Hline.
  - apply table_line_single_line.
Qed.

Lemma draw_table_no_newline_witness :
  Forall single_line
    [L "+===+===+"; L "| a | c |"; L "| b |   |"; L "+===+===+"].
Proof.
  apply (draw_table_no_newline [[L "a" ++ [NL] ++ L "b"; L "c"]]).
  vm_compute. reflexivity.
Defined.

(** ** Widths *)

(** X7: on any table, ragged or not, [get_column_widths] returns one
    width for each column of the longest row, and the width of a column
    is the largest rendered width among the cells that the rows have in
    that column; so no cell is wider than its column. *)
Theorem get_column_widths_ragged (table : list (list str)) :
  let ws := get_column_widths table in
  length ws = list_max (map (@length str) table)
  /\ (forall j, nth j ws 0 = list_max (map (width_in j) table))
  /\ (forall row j,
        In row table -> j < length row ->
        get_field_width (nth j row []) <= nth j ws 0).
Proof.
  intros ws. split; [apply get_column_widths_length|].
  split; [apply get_column_widths_nth|].
  intros row j Hin Hj.
  pose proof (width_in_le_widths table row j Hin) as H.
  unfold width_in in H.
  destruct (Nat.ltb_spec j (length row)); [exact H|lia].
Qed.

Lemma get_column_widths_ragged_witness :
  get_field_width (L "ccc") <=
  nth 0 (get_column_widths [[L "a"; L "bb"]; [L "ccc"]]) 0.
Proof.
  apply (proj2 (proj2 (get_column_widths_ragged
                         [[L "a"; L "bb"]; [L "ccc"]]))
           [L "ccc"] 0).
  - right. left. reflexivity.
  - simpl. lia.
Defined.

Lemma split_on_count (p : ascii -> bool) (s : str) :
  length (split_on p s) = S (length (filter p s)).
Proof.
  induction s as [|c s IH]; [reflexivity|].
  simpl. destruct (p c); simpl; [rewrite IH; reflexivity|].
  destruct (split_on p s); simpl in *; lia.
Qed.

Lemma split_on_total_length (p : ascii -> bool) (s : str) :
  list_sum (map (@length ascii) (split_on p s)) + length (split_on p s) =
  length s + 1.
Proof.
  induction s as [|c s IH]; [reflexivity|].
  cbn [split_on]. unfold list_sum in *. destruct (p c).
  - cbn [map fold_right length]. lia.
  - destruct (split_on p s) as [|q rest];
      cbn [map fold_right length] in *; lia.
Qed.

Lemma list_max_le_sum (xs : list nat) : list_max xs <= list_sum xs.
Proof.
  induction xs as [|x xs IH]; [simpl; lia|].
  unfold list_max, list_sum in *. cbn [fold_right]. lia.
Qed.

(** X8: the rendered width of a text is never more than its length; it
    is the length when the text holds no newline, and less as soon as it
    holds one. *)
Theorem get_field_width_bounds (field_text : str) :
  get_field_width field_text <= length field_text
  /\ (single_line field_text ->
      get_field_width field_text = length field_text)
  /\ (existsb is_nl field_text = true ->
      get_field_width field_text < length field_text).
Proof.
  unfold get_field_width.
  pose proof (split_on_total_length is_nl field_text) as Hsum.
  pose proof (split_on_count is_nl field_text) as Hcnt.
  pose proof (list_max_le_sum
                (map (@length ascii) (split_on is_nl field_text))) as Hmax.
  split; [lia|]. split.
  - intros H. rewrite split_on_free by exact H. simpl. lia.
  - intros H. apply existsb_exists in H as (c & Hin & Hc).
    assert (Hf : In c (filter is_nl field_text))
      by (apply filter_In; auto).
    destruct (filter is_nl field_text); [contradiction|].
    simpl in Hcnt. lia.
Qed.

Lemma get_field_width_bounds_witness :
  get_field_width (L "plain text") = 10 /\
  get_field_width (L "foo" ++ [NL] ++ L "quux") < 8.
Proof.
  split.
  - apply (proj1 (proj2 (get_field_width_bounds (L "plain text")))).
    repeat constructor.
  - apply (proj2 (proj2 (get_field_width_bounds
                           (L "foo" ++ [NL] ++ L "quux")))).
    reflexivity.
Defined.

(** ** Padding *)

Lemma format_field_full_length (w : nat) (text : str) :
  length (format_field w text) = Nat.max w (length text) + 2.
Proof.
  unfold format_field. rewrite !length_app, repeat_length. simpl. lia.
Qed.

Lemma pad_fields_short_widths (row : list str) (ws : list nat) :
  length ws < length row -> pad_fields row ws = Raise IndexError.
Proof.
  intros H. unfold pad_fields.
  replace (length row) with (length ws + S (length row - length ws - 1))
    by lia.
  rewrite seq_app, foldM_app, pad_loop_ok.
  - cbn [bind seq foldM]. unfold pad_step at 1. unfold py_index.
    simpl Nat.add.
    replace (nth_error ws (length ws)) with (@None nat)
      by (symmetry; apply nth_error_None; lia).
    reflexivity.
  - apply Forall_forall. intros i Hi. apply in_seq in Hi. lia.
Qed.

(** X9: [pad_fields] returns one padded cell for each field when there
    is a width for each field, and raises IndexError when the row has
    more fields than there are widths.  A padded cell is never cut: it
    is as long as the larger of the width and the stripped text, plus
    two, and stripping it gives the stripped text back. *)
Theorem pad_fields_behaviour (row : list str) (widths : list nat) :
  (length row <= length widths ->
   exists cells,
     pad_fields row widths = Ok cells /\
     length cells = length row /\
     forall i, i < length row ->
       strip (nth i cells []) = strip (nth i row []) /\
       length (nth i cells []) =
         Nat.max (nth i widths 0) (length (strip (nth i row []))) + 2)
  /\ (length widths < length row ->
      pad_fields row widths = Raise IndexError).
Proof.
  split; [|apply pad_fields_short_widths].
  intros H. exists (padded_cells widths row).
  split; [apply pad_fields_ok; exact H|].
  unfold padded_cells. rewrite length_map, length_seq.
  split; [reflexivity|]. intros i Hi.
  rewrite (nth_map_lt _ _ _ _ 0) by (rewrite length_seq; exact Hi).
  rewrite seq_nth by exact Hi. simpl. split.
  - apply strip_format_field. apply strip_tight.
  - apply format_field_full_length.
Qed.

Lemma pad_fields_behaviour_witness :
  (exists cells, pad_fields [L " a "; L "long text"] [3; 4] = Ok cells) /\
  pad_fields [L "a"; L "b"] [1] = Raise IndexError.
Proof.
  split.
  - destruct (proj1 (pad_fields_behaviour [L " a "; L "long text"] [3; 4]))
      as (cells & H & _).
    + simpl. lia.
    + exists cells. exact H.
  - apply (proj2 (pad_fields_behaviour [L "a"; L "b"] [1])). simpl. lia.
Defined.

(** ** Turning a row into lines *)

Lemma join_split_on_nl (s : str) : join [NL] (split_on is_nl s) = s.
Proof.
  induction s as [|c s IH]; [reflexivity|].
  cbn [split_on]. destruct (is_nl c) eqn:Hc.
  - apply is_nl_eq in Hc. subst c.
    rewrite join_nil_cons by apply split_on_nonempty.
    rewrite IH. reflexivity.
  - destruct (split_on is_nl s) as [|q rest] eqn:E.
    { exfalso. apply (split_on_nonempty is_nl s E). }
    destruct rest as [|q' rest].
    + simpl in *. congruence.
    + rewrite join_cons2 in *. cbn [app] in *. congruence.
Qed.

Lemma firstn_seq_le (n start len : nat) :
  n <= len -> firstn n (seq start len) = seq start n.
Proof.
  revert start len. induction n as [|n IH]; intros start len H.
  - reflexivity.
  - destruct len as [|len]; [lia|]. simpl. f_equal. apply IH. lia.
Qed.

Lemma turn_row_column (row : list str) (j : nat) :
  j < length row ->
  map (fun line => nth j line []) (turn_row row) =
  map (fun k => nth k (split_on is_nl (nth j row [])) [])
    (seq 0 (row_height row)).
Proof.
  intros Hj. unfold turn_row. rewrite map_map. apply map_ext.
  intros k.
  apply (nth_map_lt (fun field => nth k (split_on is_nl field) [])
           row j [] [] Hj).
Qed.

(** X10: [split_row_into_lines] raises ValueError on a row without
    cells.  On any other row it returns as many lines as the tallest
    cell has sub-lines, at least one, each line with one entry for each
    cell; read down the lines, the entries of a cell are its sub-lines
    in order, which joined by newlines are the cell, and then empty
    strings. *)
Theorem split_row_into_lines_transposes (row : list str) :
  (row = [] -> split_row_into_lines row = Raise ValueError)
  /\ (row <> [] ->
      exists lines,
        split_row_into_lines row = Ok lines /\
        length lines = row_height row /\ 1 <= length lines /\
        Forall (fun line => length line = length row) lines /\
        forall j, j < length row ->
          let sub := split_on is_nl (nth j row []) in
          let column := map (fun line => nth j line []) lines in
          firstn (length sub) column = sub /\
          join [NL] sub = nth j row [] /\
          Forall (fun e => e = []) (skipn (length sub) column)).
Proof.
  split; [intros ->; reflexivity|].
  intros Hne. exists (turn_row row).
  split; [apply split_row_into_lines_ok; exact Hne|].
  assert (Hlen : length (turn_row row) = row_height row)
    by (unfold turn_row; rewrite length_map, length_seq; reflexivity).
  split; [exact Hlen|].
  split; [rewrite Hlen; apply row_height_pos; exact Hne|].
  split; [apply turn_row_lengths|].
  intros j Hj sub column. unfold column. rewrite turn_row_column by exact Hj.
  fold sub. pose proof (row_height_ge row j Hj) as Hh. fold sub in Hh.
  split; [|split].
  - rewrite firstn_map, firstn_seq_le by exact Hh.
    apply map_nth_seq.
  - apply join_split_on_nl.
  - rewrite skipn_map, skipn_seq. apply Forall_map.
    apply Forall_forall. intros k Hk. apply in_seq in Hk.
    apply nth_overflow. lia.
Qed.

Lemma split_row_into_lines_transposes_witness :
  split_row_into_lines [] = Raise ValueError /\
  exists lines,
    split_row_into_lines [L "foo" ++ [NL] ++ L "baz"; L "bar"] = Ok lines /\
    length lines = 2.
Proof.
  split.
  - apply (proj1 (split_row_into_lines_transposes [])). reflexivity.
  - destruct (proj2 (split_row_into_lines_transposes
                       [L "foo" ++ [NL] ++ L "baz"; L "bar"]))
      as (lines & H & Hl & _).
    + discriminate.
    + exists lines. split; [exact H|]. rewrite Hl. reflexivity.
Defined.

(** ** The normalizer is idempotent *)

Lemma unify_table_fixed (n : nat) (table : list (list str)) :
  table <> [] ->
  Forall (fun row => length row = n) table ->
  (forall i, i < n -> blank_column table i = false) ->
  unify_table table = Ok table.
Proof.
  intros Hne Hlen Hcols.
  rewrite unify_table_spec by exact Hne. f_equal.
  assert (Hm : max_fields_of table = n)
    by (apply normalized_max_fields; assumption).
  assert (Hpad : map (pad_to n) table = table).
  { apply map_fixed. intros row Hrow. apply pad_to_full.
    rewrite Forall_forall in Hlen. apply Hlen. exact Hrow. }
  assert (Hsurv : surviving_columns table = seq 0 n).
  { unfold surviving_columns. rewrite Hm, Hpad.
    apply filter_all. intros i Hi. apply in_seq in Hi.
    rewrite Hcols by lia. reflexivity. }
  rewrite Hm, Hpad, Hsurv. apply map_fixed. intros row Hrow.
  rewrite Forall_forall in Hlen. rewrite <- (Hlen row Hrow).
  unfold select_columns. apply map_nth_seq.
Qed.

Lemma unify_table_output_shape (table out : list (list str)) :
  unify_table table = Ok out ->
  exists n,
    out <> [] /\
    Forall (fun row => length row = n) out /\
    (forall i, i < n -> blank_column out i = false).
Proof.
  intros H.
  assert (Hne : table <> []) by (intros ->; discriminate).
  rewrite unify_table_spec in H by exact Hne. injection H as <-.
  exists (length (surviving_columns table)). split; [|split].
  - destruct table; [congruence|discriminate].
  - apply Forall_map. apply Forall_forall. intros row _.
    apply select_columns_length.
  - intros i Hi. rewrite blank_column_select by exact Hi.
    assert (Hin : In (nth i (surviving_columns table) 0)
                    (surviving_columns table)) by (apply nth_In; exact Hi).
    unfold surviving_columns in Hin at 2.
    apply filter_In in Hin as [_ Hnb].
    apply negb_true_iff in Hnb. exact Hnb.
Qed.

(** X11: [unify_table] is idempotent: the table it returns has rows of
    one length and no column that is blank in every row, and
    [unify_table] returns such a table unchanged. *)
Theorem unify_table_idempotent (table out : list (list str)) :
  unify_table table = Ok out ->
  unify_table out = Ok out
  /\ exists n,
       Forall (fun row => length row = n) out /\
       forall i, i < n -> blank_column out i = false.
Proof.
  intros H. destruct (unify_table_output_shape table out H)
    as (n & Hne & Hlen & Hcols).
  split; [apply (unify_table_fixed n); assumption|].
  exists n. auto.
Qed.

Lemma unify_table_idempotent_witness :
  unify_table [[L "a"; L "b"]; [L "c"; L ""]] =
  Ok [[L "a"; L "b"]; [L "c"; L ""]].
Proof.
  apply (proj1 (unify_table_idempotent
                  [[L "a"; L " "; L "b"]; [L "c"]]
                  [[L "a"; L "b"]; [L "c"; L ""]] eq_refl)).
Defined.

(** ** Rendering and parsing back *)

(** X12: a table as the parser makes it (rows of one positive length,
    cells made of stripped pieces without [|], no blank column) is
    rendered by [draw_table], and [parse_table] on the rendered lines
    returns the table itself. *)
Theorem parse_table_inverts_draw_table (n : nat) (table : list (list str)) :
  parsed_table n table ->
  exists out,
    draw_table table = Ok out /\ parse_table out = Ok table.
Proof.
  intros Hp. pose proof Hp as (Hne & Hn & Hlen & _).
  destruct (draw_table_classified table n Hne Hn Hlen) as (out & Hout & _).
  exists out. split; [exact Hout|].
  apply (parse_rendered n table out Hp Hout).
Qed.

Lemma atom_one_letter (c : ascii) :
  is_space c = false -> is_pipe c = false -> is_nl c = false -> atom [c].
Proof.
  intros Hs Hp Hn. repeat split.
  - discriminate.
  - simpl. rewrite Hs. reflexivity.
  - apply (rstrip_snoc_nonspace [] c Hs).
  - repeat constructor. exact Hp.
  - repeat constructor. exact Hn.
Qed.

Lemma parse_table_inverts_draw_table_witness :
  exists out,
    draw_table [[L "a"; L "b"]] = Ok out /\
    parse_table out = Ok [[L "a"; L "b"]].
Proof.
  apply (parse_table_inverts_draw_table 2).
  split; [discriminate|]. split; [lia|].
  split; [repeat constructor|]. split.
  - constructor; [|constructor].
    constructor; [|constructor; [|constructor]].
    + exists [L "a"]. split; [|reflexivity].
      constructor; [|constructor]. apply atom_one_letter; reflexivity.
    + exists [L "b"]. split; [|reflexivity].
      constructor; [|constructor]. apply atom_one_letter; reflexivity.
  - intros i Hi. destruct i as [|[|i]]; [reflexivity|reflexivity|lia].
Defined.

Lemma cell_ok_pipe_free (c : str) : cell_ok c -> pipe_free c.
Proof.
  intros (atoms & Ha & ->). apply Forall_join; [repeat constructor|].
  eapply Forall_impl; [|exact Ha]. intros a (_ & _ & Hp & _). exact Hp.
Qed.

Lemma cell_ok_sub_lines (c : str) :
  cell_ok c -> Forall tight (split_on is_nl c).
Proof.
  intros (atoms & Ha & ->). destruct atoms as [|a atoms].
  - simpl. constructor; [apply tight_nil|constructor].
  - rewrite split_on_join.
    + eapply Forall_impl; [|exact Ha]. intros x (_ & Ht & _). exact Ht.
    + reflexivity.
    + discriminate.
    + eapply Forall_impl; [|exact Ha]. intros x (_ & _ & _ & Hx). exact Hx.
Qed.

(** X13: when [parse_table] returns on raw lines (lines without a
    newline), the table is not empty, its rows have one length, no
    column is blank in every row, and a cell holds no [|] and no
    whitespace at the ends of any of its sub-lines. *)
Theorem parse_table_output_shape (raw_lines : list str)
  (table : list (list str)) :
  Forall single_line raw_lines ->
  parse_table raw_lines = Ok table ->
  exists n,
    table <> [] /\
    Forall (fun row => length row = n) table /\
    (forall i, i < n -> blank_column table i = false) /\
    Forall (Forall (fun cell =>
                      pipe_free cell /\
                      Forall tight (split_on is_nl cell))) table.
Proof.
  intros Hl Hp.
  destruct (parse_table_shape raw_lines table Hl Hp)
    as (n & Hne & Hlen & Hcells & Hcols).
  exists n. repeat split; try assumption.
  eapply Forall_impl; [|exact Hcells]. intros row Hrow.
  eapply Forall_impl; [|exact Hrow]. intros cell Hc.
  split; [apply cell_ok_pipe_free|apply cell_ok_sub_lines]; exact Hc.
Qed.

Lemma parse_table_output_shape_witness :
  exists n,
    Forall (fun row : list str => length row = n)
      [[L "a"; L "b"]; [L "cc"; L "d"]].
Proof.
  destruct (parse_table_output_shape [L "a  b"; L "cc  d"]
              [[L "a"; L "b"]; [L "cc"; L "d"]])
    as (n & _ & H & _).
  - repeat constructor.
  - vm_compute. reflexivity.
  - exists n. exact H.
Defined.

(** ** The bounds of the block *)

Lemma get_table_bounds_in_block (pre block post : list str) (row : Z) :
  Forall (fun l => blank_line l = false) block ->
  ends_blank pre -> starts_blank post ->
  (Z.of_nat (length pre) < row <= Z.of_nat (length pre + length block))%Z ->
  get_table_bounds (pre ++ block ++ post) row =
  (if (length pre =? 0)%nat then 0%Z else (Z.of_nat (length pre) + 1)%Z,
   match post with
   | [] => Z.of_nat (length pre + length block + 1)
   | _ :: _ => Z.of_nat (length pre + length block)
   end).
Proof.
  intros Hb Hpre Hpost Hrow. unfold get_table_bounds.
  replace row with (Z.of_nat (Z.to_nat row)) by lia.
  assert (Hlen : length (pre ++ block ++ post)
                 = length pre + length block + length post)
    by (rewrite !length_app; lia).
  rewrite (scan_upper_block pre block post Hb Hpre) by lia.
  rewrite (scan_lower_block pre block post Hb Hpost) by lia.
  reflexivity.
Qed.

(** X14: with the cursor on a line of a block of non-blank lines that
    lies between blank lines or the ends of the buffer,
    [get_table_bounds] returns as upper bound the number of the first
    line of the block, or 0 when the block starts the buffer, and as
    lower bound the number of its last line, or one more than the number
    of lines when the block ends the buffer; the slice that
    [reformat_table] reads with these bounds is exactly the block. *)
Theorem get_table_bounds_of_block (pre block post : list str) (row : Z) :
  Forall (fun l => blank_line l = false) block ->
  ends_blank pre -> starts_blank post ->
  (Z.of_nat (length pre) < row <= Z.of_nat (length pre + length block))%Z ->
  get_table_bounds (pre ++ block ++ post) row =
    (if (length pre =? 0)%nat then 0%Z else (Z.of_nat (length pre) + 1)%Z,
     match post with
     | [] => Z.of_nat (length pre + length block + 1)
     | _ :: _ => Z.of_nat (length pre + length block)
     end)
  /\ selected_block (pre ++ block ++ post) row = block.
Proof.
  intros Hb Hpre Hpost Hrow.
  split; [apply get_table_bounds_in_block; assumption|].
  apply selected_block_of_block; assumption.
Qed.

Lemma get_table_bounds_of_block_witness :
  get_table_bounds [L "x"; L ""; L "a  b"; L "c  d"] 3 = (3, 5)%Z /\
  selected_block [L "x"; L ""; L "a  b"; L "c  d"] 3 = [L "a  b"; L "c  d"].
Proof.
  apply (get_table_bounds_of_block [L "x"; L ""] [L "a  b"; L "c  d"] [] 3).
  - repeat constructor.
  - reflexivity.
  - exact I.
  - simpl. lia.
Defined.

(** X15: with the cursor on a blank line, [get_table_bounds] returns an
    upper bound above the lower one, the line after and the line before
    the cursor, and the slice read with them is empty. *)
Theorem get_table_bounds_blank_cursor (buffer : list str) (row : Z)
  (line : str) :
  buffer_line buffer (row - 1) = Ok line ->
  blank_line line = true ->
  get_table_bounds buffer row = (row + 1, row - 1)%Z
  /\ selected_block buffer row = [].
Proof.
  intros Hline Hblank.
  assert (Hb : get_table_bounds buffer row = (row + 1, row - 1)%Z).
  { unfold get_table_bounds. cbn [scan_upper scan_lower].
    rewrite Hline. unfold blank_line in Hblank.
    destruct (truthy (strip line)); [discriminate|reflexivity]. }
  split; [exact Hb|].
  unfold selected_block. rewrite Hb. unfold buffer_slice.
  replace (Z.to_nat (Z.max 0 (row - 1)) - Z.to_nat (Z.max 0 (row + 1 - 1)))
    with 0 by lia.
  reflexivity.
Qed.

Lemma get_table_bounds_blank_cursor_witness :
  get_table_bounds [L "a"; L "  "; L "b"] 2 = (3, 1)%Z /\
  selected_block [L "a"; L "  "; L "b"] 2 = [].
Proof.
  apply (get_table_bounds_blank_cursor [L "a"; L "  "; L "b"] 2 (L "  ")).
  - reflexivity.
  - reflexivity.
Defined.

(** ** The command on a buffer *)

Lemma buffer_assign_in_block (pre block post lines : list str) :
  buffer_assign (pre ++ block ++ post)
    ((if (length pre =? 0)%nat then 0%Z else (Z.of_nat (length pre) + 1)%Z)
     - 1)
    (match post with
     | [] => Z.of_nat (length pre + length block + 1)
     | _ :: _ => Z.of_nat (length pre + length block)
     end)
    lines =
  pre ++ lines ++ post.
Proof.
  unfold buffer_assign.
  assert (Hlo : Z.to_nat
                  (Z.max 0
                     ((if (length pre =? 0)%nat then 0
                       else Z.of_nat (length pre) + 1) - 1)) = length pre).
  { destruct (Nat.eqb_spec (length pre) 0); lia. }
  rewrite Hlo.
  rewrite firstn_app, firstn_all, Nat.sub_diag. cbn [firstn].
  rewrite app_nil_r. f_equal. f_equal.
  destruct post as [|b post'].
  - rewrite app_nil_r. apply skipn_all2. rewrite length_app. lia.
  - replace (Nat.max (length pre)
               (Z.to_nat (Z.max 0 (Z.of_nat (length pre + length block)))))
      with (length pre + length block) by lia.
    rewrite skipn_app, skipn_all2 by lia.
    replace (length pre + length block - length pre) with (length block)
      by lia.
    cbn [app]. rewrite skipn_app, skipn_all, Nat.sub_diag. reflexivity.
Qed.

Lemma reformat_table_on_block (pre block post : list str) (row : Z) :
  Forall (fun l => blank_line l = false) block ->
  ends_blank pre -> starts_blank post ->
  (Z.of_nat (length pre) < row <= Z.of_nat (length pre + length block))%Z ->
  reformat_table (pre ++ block ++ post) row =
  (out <- reformat block ;; Ok (pre ++ out ++ post)).
Proof.
  intros Hb Hpre Hpost Hrow.
  pose proof (selected_block_of_block pre block post Hb Hpre Hpost row Hrow)
    as Hsel.
  unfold selected_block in Hsel. unfold reformat_table.
  rewrite get_table_bounds_in_block in * by assumption.
  rewrite Hsel. unfold reformat.
  destruct (parse_table block) as [table|e]; [|reflexivity].
  cbn [bind]. destruct (draw_table table) as [out|e]; [|reflexivity].
  cbn [bind]. rewrite buffer_assign_in_block. reflexivity.
Qed.

(** X16: with the cursor inside a block of non-blank lines that lies
    between blank lines or the ends of the buffer, [reformat_table]
    replaces the block by what the pipeline makes of it and leaves every
    line before and after the block as it is; when the pipeline raises,
    the command raises the same exception and writes nothing. *)
Theorem reformat_table_replaces_block
  (pre block post : list str) (row : Z) :
  Forall (fun l => blank_line l = false) block ->
  ends_blank pre -> starts_blank post ->
  (Z.of_nat (length pre) < row <= Z.of_nat (length pre + length block))%Z ->
  (forall out,
      reformat block = Ok out ->
      reformat_table (pre ++ block ++ post) row = Ok (pre ++ out ++ post))
  /\ (forall e,
        reformat block = Raise e ->
        reformat_table (pre ++ block ++ post) row = Raise e).
Proof.
  intros Hb Hpre Hpost Hrow.
  rewrite (reformat_table_on_block pre block post row Hb Hpre Hpost Hrow).
  split; intros x ->; reflexivity.
Qed.

Lemma reformat_table_replaces_block_witness :
  reformat_table [L "title"; L ""; L "a  b"; L "cc  d"; L ""; L "end"] 4 =
  Ok [L "title"; L "";
      L "+====+===+"; L "| a  | b |"; L "+====+===+"; L "| cc | d |";
      L "+----+---+";
      L ""; L "end"].
Proof.
  apply (proj1 (reformat_table_replaces_block
                  [L "title"; L ""] [L "a  b"; L "cc  d"] [L ""; L "end"] 4
                  ltac:(repeat constructor) eq_refl eq_refl
                  ltac:(simpl; lia))
           [L "+====+===+"; L "| a  | b |"; L "+====+===+"; L "| cc | d |";
            L "+----+---+"]).
  vm_compute. reflexivity.
Defined.

Lemma reformat_parsed (raw_lines out : list str) :
  Forall single_line raw_lines ->
  reformat raw_lines = Ok out ->
  exists n table, parsed_table n table /\ draw_table table = Ok out.
Proof.
  intros Hlines Hout. unfold reformat in Hout.
  destruct (parse_table raw_lines) as [table|e] eqn:Hparse; [|discriminate].
  cbn [bind] in Hout.
  destruct (parse_table_shape raw_lines table Hlines Hparse)
    as (n & Hne & Hlen & Hcells & Hcols).
  exists n, table. split; [|exact Hout].
  repeat split; try assumption.
  destruct n as [|n]; [|lia]. exfalso.
  destruct table as [|row rest]; [congruence|].
  inversion Hlen as [|? ? Hrow _]; subst.
  apply length_zero_iff_nil in Hrow. subst row.
  rewrite draw_table_no_column in Hout. discriminate.
Qed.

Lemma rendered_lines_not_blank (n : nat) (table : list (list str))
  (out : list str) :
  parsed_table n table ->
  draw_table table = Ok out ->
  out <> [] /\ Forall (fun l => blank_line l = false) out.
Proof.
  intros (Hne & Hn & Hlen & _) Hout.
  destruct (draw_table_classified table n Hne Hn Hlen)
    as (out' & Hout' & Hne' & Hcls).
  rewrite Hout in Hout'. injection Hout' as <-.
  split; [exact Hne'|].
  assert (Hws : get_column_widths table <> [])
    by (apply get_column_widths_nonempty with (n := n); assumption).
  eapply Forall_impl; [|exact Hcls]. cbv beta.
  intros line Hline. unfold blank_line. apply negb_false_iff.
  destruct Hline as [Hd|[Hb|Hb]].
  - apply (strip_In_nonspace line PIPE); [|reflexivity].
    apply (data_line_has_pipe line _ Hd).
  - apply (strip_In_nonspace line "+"%char); [|reflexivity].
    apply (border_line_has_plus _ _ line Hws Hb).
  - apply (strip_In_nonspace line "+"%char); [|reflexivity].
    apply (border_line_has_plus _ _ line Hws Hb).
Qed.

(** X17: the command is idempotent on the buffer.  When
    [reformat_table] has rewritten a block of raw lines into the lines
    [out], running it again with the cursor on any line of [out] returns
    the same buffer. *)
Theorem reformat_table_twice
  (pre block post out : list str) (row : Z) :
  Forall single_line block ->
  Forall (fun l => blank_line l = false) block ->
  ends_blank pre -> starts_blank post ->
  (Z.of_nat (length pre) < row <= Z.of_nat (length pre + length block))%Z ->
  reformat block = Ok out ->
  reformat_table (pre ++ block ++ post) row = Ok (pre ++ out ++ post)
  /\ forall row' : Z,
       (Z.of_nat (length pre) < row'
        <= Z.of_nat (length pre + length out))%Z ->
       reformat_table (pre ++ out ++ post) row' = Ok (pre ++ out ++ post).
Proof.
  intros Hsl Hb Hpre Hpost Hrow Hout. split.
  - rewrite (reformat_table_on_block pre block post row Hb Hpre Hpost Hrow).
    rewrite Hout. reflexivity.
  - intros row' Hrow'.
    destruct (reformat_parsed block out Hsl Hout) as (n & table & Hp & Hdraw).
    destruct (rendered_lines_not_blank n table out Hp Hdraw) as [_ Hnb].
    rewrite (reformat_table_on_block pre out post row' Hnb Hpre Hpost Hrow').
    unfold reformat. rewrite (parse_rendered n table out Hp Hdraw).
    cbn [bind]. rewrite Hdraw. reflexivity.
Qed.

Lemma reformat_table_twice_witness :
  reformat_table
    [L "+====+===+"; L "| a  | b |"; L "+====+===+"; L "| cc | d |";
     L "+----+---+"; L ""; L "end"] 4 =
  Ok [L "+====+===+"; L "| a  | b |"; L "+====+===+"; L "| cc | d |";
      L "+----+---+"; L ""; L "end"].
Proof.
  apply (proj2 (reformat_table_twice [] [L "a  b"; L "cc  d"]
                  [L ""; L "end"]
                  [L "+====+===+"; L "| a  | b |"; L "+====+===+";
                   L "| cc | d |"; L "+----+---+"] 1%Z
                  ltac:(repeat constructor) ltac:(repeat constructor)
                  I eq_refl ltac:(simpl; lia) eq_refl) 4%Z).
  simpl. lia.
Defined.

(** ** One-line rows *)

Lemma join_strip_field (field : str) :
  join [NL] (if truthy (strip field) then [strip field] else []) =
  strip field.
Proof. destruct (strip field); reflexivity. Qed.

Lemma join_rows_one_row (row : list str) : join_rows [row] = map strip row.
Proof.
  rewrite join_rows_columns. cbn [map list_max fold_right].
  rewrite Nat.max_0_r.
  transitivity (map (fun i => strip (nth i row [])) (seq 0 (length row))).
  - apply map_ext_in. intros i Hi. apply in_seq in Hi.
    unfold column_cell. cbn [flat_map]. rewrite app_nil_r.
    unfold field_at. rewrite (nth_error_nth' row []) by lia.
    apply join_strip_field.
  - rewrite <- (map_map (fun i => nth i row []) strip).
    rewrite map_nth_seq. reflexivity.
Qed.

(** X18: on a block without any separator line every line is a row of
    its own: the table handed to the normalizer has, for each line in
    order, the fields of the line with the whitespace around them
    removed. *)
Theorem parse_table_line_rows (raw_lines : list str) :
  has_line_seps raw_lines = false ->
  parse_table raw_lines =
  unify_table (map (fun line => map strip (split_table_row line)) raw_lines).
Proof.
  intros H. unfold parse_table, partition_raw_lines. rewrite H.
  cbn [negb]. rewrite map_map. f_equal. apply map_ext.
  intros line. cbn [map]. apply join_rows_one_row.
Qed.

Lemma parse_table_line_rows_witness :
  parse_table [L " a   b "; L "c"] = Ok [[L "a"; L "b"]; [L "c"; L ""]].
Proof.
  rewrite (parse_table_line_rows [L " a   b "; L "c"] eq_refl).
  vm_compute. reflexivity.
Defined.

(** ** Separators of the output *)

Lemma widths_nonempty_of_rows (table : list (list str)) :
  table <> [] -> Forall (fun r => r <> []) table ->
  get_column_widths table <> [].
Proof.
  intros Hne Hrows E.
  pose proof (get_column_widths_length table) as Hl. rewrite E in Hl.
  destruct table as [|row rest]; [congruence|].
  inversion Hrows as [|? ? Hrow _]; subst.
  assert (Hge : length row <= list_max (map (@length str) (row :: rest)))
    by (apply list_max_ge; left; reflexivity).
  destruct row; [congruence|]. simpl in Hl, Hge. lia.
Qed.

(** X19: the partitioner reads the rows back out of the renderer's
    output.  On a table without an empty row, ragged or not, the border
    lines of the output are separator lines and its data lines are not,
    and [partition_raw_lines] on the output returns one partition for
    each row, in order, holding the lines of that row. *)
Theorem partition_raw_lines_of_output (table : list (list str))
  (out : list str) :
  draw_table table = Ok out ->
  table <> [] ->
  line_is_separator (header_line_of table) = true
  /\ line_is_separator (normal_line_of table) = true
  /\ partition_raw_lines out =
     map (data_lines (get_column_widths table)) table
  /\ Forall (Forall (fun l => line_is_separator l = false))
       (partition_raw_lines out).
Proof.
  intros Hout Hne. pose proof (draw_table_ok_rows table out Hout) as Hrows.
  pose proof (widths_nonempty_of_rows table Hne Hrows) as Hws.
  assert (Hh : line_is_separator (header_line_of table) = true).
  { apply (border_is_separator "="%char (get_column_widths table));
      [reflexivity|exact Hws|].
    apply (table_line_border _ true). exact Hws. }
  assert (Hnl : line_is_separator (normal_line_of table) = true).
  { apply (border_is_separator "-"%char (get_column_widths table));
      [reflexivity|exact Hws|].
    apply (table_line_border _ false). exact Hws. }
  destruct table as [|row rest]; [congruence|].
  rewrite (draw_table_layout row rest Hrows) in Hout. injection Hout as <-.
  pose proof (partition_rendered row rest
                (get_column_widths (row :: rest)) _ _ Hrows Hh Hnl) as Hp.
  split; [exact Hh|]. split; [exact Hnl|]. split; [exact Hp|].
  match goal with
  | |- Forall _ (partition_raw_lines ?x) =>
      replace (partition_raw_lines x)
        with (map (data_lines (get_column_widths (row :: rest)))
                (row :: rest))
        by (symmetry; exact Hp)
  end.
  apply Forall_map. apply Forall_forall. intros r _.
  apply data_lines_not_separators.
Qed.

Lemma partition_raw_lines_of_output_witness :
  partition_raw_lines
    [L "+===+===+"; L "| a | b |"; L "+===+===+"; L "| c |"; L "+---+---+"] =
  [[L "| a | b |"]; [L "| c |"]].
Proof.
  apply (proj1 (proj2 (proj2
           (partition_raw_lines_of_output [[L "a"; L "b"]; [L "c"]]
              [L "+===+===+"; L "| a | b |"; L "+===+===+"; L "| c |";
               L "+---+---+"] eq_refl ltac:(discriminate))))).
Defined.

(** X20: [table_line] on no width gives the empty string, which is not a
    separator line; on widths it gives a line that starts and ends with
    [+], holds one run of the fill character for each width, has the
    length of the widths and one [+] more than there are widths, and is
    a separator line for [line_is_separator]. *)
Theorem table_line_shape (widths : list nat) (header : bool) :
  let fill := if header then "="%char else "-"%char in
  (widths = [] ->
   table_line widths header = [] /\
   line_is_separator (table_line widths header) = false)
  /\ (widths <> [] ->
      table_line widths header =
        join (L "+") ([[]] ++ map (repeat fill) widths ++ [[]]) /\
      length (table_line widths header) =
        list_sum widths + length widths + 1 /\
      line_is_separator (table_line widths header) = true).
Proof.
  intros fill. split.
  - intros ->. split; reflexivity.
  - intros Hne.
    assert (Hline : table_line widths header =
                    join (L "+") ([[]] ++ map (repeat fill) widths ++ [[]])).
    { unfold table_line. fold fill.
      destruct widths as [|w ws]; [congruence|reflexivity]. }
    split; [exact Hline|]. split.
    + rewrite Hline. change (L "+") with ["+"%char].
      rewrite framed_length, length_map, map_map. f_equal. f_equal. f_equal.
      apply map_fixed. intros w _. apply repeat_length.
    + apply line_is_separator_iff. exists (table_line widths header).
      split; [|split; [|left; reflexivity]].
      * rewrite Hline. cbn [app].
        rewrite join_nil_cons
          by (destruct (map (repeat fill) widths); discriminate).
        discriminate.
      * rewrite Hline. apply forallb_join; [reflexivity|].
        constructor; [reflexivity|]. apply Forall_app. split.
        -- apply Forall_map. apply Forall_forall. intros w _.
           apply forallb_forall. intros c Hc. apply repeat_spec in Hc.
           subst c. unfold fill. destruct header; reflexivity.
        -- constructor; [reflexivity|constructor].
Qed.

Lemma table_line_shape_witness :
  table_line [] true = [] /\ length (table_line [3; 4] false) = 10.
Proof.
  split.
  - apply (proj1 (table_line_shape [] true) eq_refl).
  - apply (proj2 (table_line_shape [3; 4] false)). discriminate.
Defined.
